(** * SATER Map: the geodetic direction-finding engine of [main.py]

    A shallow embedding of the pure functions of [main.py] that make up
    the direction-finding engine, of its coordinate converters and of
    its map tile arithmetic, and the properties stated about them.

    Modelling conventions.
    - A Python [float] is a real number ([R]): the arithmetic is exact
      and the rounding of IEEE-754 operations is not modelled, with one
      exception: the argument that [calc_endpoint_haversine] hands to
      [math.asin] goes through a [rounding], because an error of the
      last bit there decides between a point and a [ValueError]; the
      rounding [exact] is the arithmetic without error.  [math.sin],
      [math.cos], [math.tan], [math.sqrt], [math.asin] are the functions
      of the same name of the standard library of reals, [math.atan2] is
      defined below from [atan].
    - A Python [int] is an integer ([Z]); [int(x)] truncates toward zero,
      [round(x, n)] rounds to the nearest multiple of [10^-n], ties to
      even.
    - A Python exception is a value [Raises e] of the type [outcome];
      [math.asin] raises [ValueError] outside [[-1, 1]], indexing a
      sequence out of range raises [IndexError].  The tile arithmetic
      has its own two exceptions ([tile_outcome]): [math.log] of a
      number that is not positive, and a float division by zero, which
      in exact arithmetic happens at the poles, where [cos] is 0.
    - [str] is [string]; tuples are products; lists are [list].

    Numerical values of the UTM series are enclosed by interval
    arithmetic on rationals, proved sound for the reals. *)

From Stdlib Require Import Reals Lra Lia ZArith List String Ascii Bool.
From Stdlib Require Import QArith Qreals Qround DecimalString Machin RNsatz.
From Stdlib Require DecimalPos DecimalFacts.
Import ListNotations.
Local Open Scope R_scope.

(** ** Python exceptions and the error monad *)

Inductive exn : Type :=
| ValueError
| IndexError.

Inductive outcome (A : Type) : Type :=
| Returns (a : A)
| Raises (e : exn).

Arguments Returns {A} a.
Arguments Raises {A} e.

Definition bind {A B : Type} (m : outcome A) (k : A -> outcome B) : outcome B :=
  match m with
  | Returns a => k a
  | Raises e => Raises e
  end.

Notation "x <- m ;; k" := (bind m (fun x => k))
  (at level 61, m at next level, right associativity).
Notation "' p <- m ;; k" := (bind m (fun x => let p := x in k))
  (at level 61, p pattern, m at next level, right associativity).

(** ** Python numeric primitives *)

(** [int(x)] on a float: truncation toward zero. *)
Definition py_int (x : R) : Z :=
  if Rle_dec 0 x then Zfloor x else Zceil x.

(** Nearest integer, ties to even. *)
Definition round_half_even (x : R) : Z :=
  let f := Zfloor x in
  let r := x - IZR f in
  if Rlt_dec r (1 / 2) then f
  else if Rlt_dec (1 / 2) r then (f + 1)%Z
  else if Z.even f then f else (f + 1)%Z.

(** [round(x, ndigits)] on a float. *)
Definition py_round (x : R) (ndigits : nat) : R :=
  IZR (round_half_even (x * 10 ^ ndigits)) / 10 ^ ndigits.

(** [x % m] on floats, for a positive modulus [m]. *)
Definition py_fmod (x m : R) : R := x - m * IZR (Zfloor (x / m)).

(** [math.radians] and [math.degrees]. *)
Definition radians (x : R) : R := x * PI / 180.
Definition degrees (x : R) : R := x * 180 / PI.

(** [math.atan2(y, x)], with the value [PI] on the negative x axis and
    [0] at the origin. *)
Definition atan2 (y x : R) : R :=
  if Rlt_dec 0 x then atan (y / x)
  else if Rlt_dec x 0 then
         if Rle_dec 0 y then atan (y / x) + PI else atan (y / x) - PI
  else if Rlt_dec 0 y then PI / 2
  else if Rlt_dec y 0 then - (PI / 2)
  else 0.

(** [math.asin(x)]: a [ValueError] ("math domain error") outside [[-1, 1]]. *)
Definition py_asin (x : R) : outcome R :=
  if Rle_dec (-1) x then
    if Rle_dec x 1 then Returns (asin x) else Raises ValueError
  else Raises ValueError.

(** [s[i]] on a string: negative indices count from the end, anything
    out of range raises [IndexError]. *)
Definition str_index (s : string) (i : Z) : outcome ascii :=
  let n := Z.of_nat (String.length s) in
  let j := if (i <? 0)%Z then (i + n)%Z else i in
  if (j <? 0)%Z then Raises IndexError
  else match String.get (Z.to_nat j) s with
       | Some c => Returns c
       | None => Raises IndexError
       end.

(** [l[i]] on a list. *)
Definition list_index {A : Type} (l : list A) (i : Z) : outcome A :=
  let n := Z.of_nat (List.length l) in
  let j := if (i <? 0)%Z then (i + n)%Z else i in
  if (j <? 0)%Z then Raises IndexError
  else match nth_error l (Z.to_nat j) with
       | Some c => Returns c
       | None => Raises IndexError
       end.

(** ** CoordinateConverter: DMS and decimal degrees *)

Local Open Scope string_scope.

(** [dms_to_dd(deg, minutes, seconds, direction)] (main.py, l. 178). *)
Definition dms_to_dd (deg minutes : Z) (seconds : R) (direction : string)
  : outcome R :=
  let dd := IZR deg + (IZR minutes / 60) + (seconds / 3600) in
  let dd := if existsb (String.eqb direction) ["W"; "S"] then - dd else dd in
  Returns (py_round dd 6).

(** [dd_to_dms(dd, coord_type)] (main.py, l. 185). *)
Definition dd_to_dms (dd : R) (coord_type : string) : Z * Z * R * string :=
  let is_positive := if Rle_dec 0 dd then true else false in
  let dd := Rabs dd in
  let deg := py_int dd in
  let minutes := py_int ((dd - IZR deg) * 60) in
  let seconds := py_round ((dd - IZR deg - IZR minutes / 60) * 3600) 2 in
  let direction :=
    if coord_type =? "lat"
    then (if is_positive then "N" else "S")
    else (if is_positive then "E" else "W") in
  (deg, minutes, seconds, direction).

(** The range of a decimal coordinate on its axis. *)
Definition valid_dd (coord_type : string) (dd : R) : Prop :=
  if coord_type =? "lat" then -90 <= dd <= 90 else -180 <= dd <= 180.

(** The ranges the specification gives for the components of a DMS
    coordinate. *)
Definition dms_in_range (deg minutes : Z) (seconds : R) : Prop :=
  (0 <= deg)%Z /\ (0 <= minutes <= 59)%Z /\ 0 <= seconds < 60.

(** The value the specification gives: no rounding. *)
Definition dms_value (deg minutes : Z) (seconds : R) (direction : string) : R :=
  let dd := IZR deg + IZR minutes / 60 + seconds / 3600 in
  if existsb (String.eqb direction) ["W"; "S"] then - dd else dd.


(** ** CoordinateConverter: UTM and MGRS *)

Definition Rleb (x y : R) : bool := if Rle_dec x y then true else false.
Definition Rltb (x y : R) : bool := if Rlt_dec x y then true else false.

(** The UTM zone of [lat_lon_to_utm] (main.py, l. 206-218): the
    six-degree zone of the longitude, with the overrides for Norway and
    Svalbard. *)
Definition utm_zone (lat lon : R) : Z :=
  let zone := (py_int ((lon + 180) / 6) + 1)%Z in
  if Rleb 56 lat && Rltb lat 64 && Rleb 3 lon && Rltb lon 12 then 32%Z
  else if Rleb 72 lat && Rltb lat 84 then
    if Rleb 0 lon && Rltb lon 9 then 31%Z
    else if Rleb 9 lon && Rltb lon 21 then 33%Z
    else if Rleb 21 lon && Rltb lon 33 then 35%Z
    else if Rleb 33 lon && Rltb lon 42 then 37%Z
    else zone
  else zone.

(** The latitude band letter of [lat_lon_to_utm] (main.py, l. 220-224). *)
Definition utm_letter (lat : R) : outcome ascii :=
  let letters := "CDEFGHJKLMNPQRSTUVWXX" in
  if Rleb (-80) lat && Rleb lat 84
  then str_index letters (py_int ((lat + 80) / 8))
  else Returns "Z"%char.

(** The ellipsoid constants of [lat_lon_to_utm] (main.py, l. 226-232). *)
Definition wgs84_a : R := 6378137.
Definition wgs84_f : R := 1 / (298257223563 / 1000000000).
Definition utm_k0 : R := 9996 / 10000.
Definition wgs84_e : R := sqrt (wgs84_f * (2 - wgs84_f)).
Definition wgs84_e2 : R := wgs84_e * wgs84_e.
Definition wgs84_ep2 : R := wgs84_e2 / (1 - wgs84_e2).

(** The transverse Mercator series of [lat_lon_to_utm] (main.py,
    l. 234-253), for a zone already chosen. *)
Definition utm_easting_northing (zone : Z) (lat lon : R) : R * R :=
  let a := wgs84_a in
  let k0 := utm_k0 in
  let e2 := wgs84_e2 in
  let ep2 := wgs84_ep2 in
  let lon0 := radians (IZR ((zone - 1) * 6 - 180 + 3)) in
  let lat_rad := radians lat in
  let lon_rad := radians lon in
  let N := a / sqrt (1 - e2 * sin lat_rad ^ 2) in
  let T := tan lat_rad ^ 2 in
  let C := ep2 * cos lat_rad ^ 2 in
  let A := (lon_rad - lon0) * cos lat_rad in
  let M := a * ((1 - e2 / 4 - 3 * e2 ^ 2 / 64 - 5 * e2 ^ 3 / 256) * lat_rad
                - (3 * e2 / 8 + 3 * e2 ^ 2 / 32 + 45 * e2 ^ 3 / 1024)
                  * sin (2 * lat_rad)
                + (15 * e2 ^ 2 / 256 + 45 * e2 ^ 3 / 1024) * sin (4 * lat_rad)
                - (35 * e2 ^ 3 / 3072) * sin (6 * lat_rad)) in
  let easting :=
    k0 * N * (A + (1 - T + C) * A ^ 3 / 6
              + (5 - 18 * T + T ^ 2 + 72 * C - 58 * ep2) * A ^ 5 / 120)
    + 500000 in
  let northing :=
    k0 * (M + N * tan lat_rad
              * (A ^ 2 / 2 + (5 - T + 9 * C + 4 * C ^ 2) * A ^ 4 / 24
                 + (61 - 58 * T + T ^ 2 + 600 * C - 330 * ep2) * A ^ 6 / 720)) in
  let northing := if Rltb lat 0 then northing + 10000000 else northing in
  (easting, northing).

(** [lat_lon_to_utm(lat, lon)] (main.py, l. 204). *)
Definition lat_lon_to_utm (lat lon : R) : outcome (Z * ascii * R * R) :=
  let zone := utm_zone lat lon in
  letter <- utm_letter lat ;;
  let '(easting, northing) := utm_easting_northing zone lat lon in
  Returns (zone, letter, easting, northing).

(** [f"{z}"] on an integer. *)
Definition format_d (z : Z) : string :=
  DecimalString.NilZero.string_of_int (Z.to_int z).

Fixpoint zeros (n : nat) : string :=
  match n with
  | O => ""
  | S n' => String "0" (zeros n')
  end.

(** [f"{z:05d}"] on an integer: zero padding to five characters, the
    sign counted in the width. *)
Definition format_05d (z : Z) : string :=
  let digits := DecimalString.NilZero.string_of_uint (N.to_uint (Z.abs_N z)) in
  if (z <? 0)%Z
  then "-" ++ zeros (4 - String.length digits) ++ digits
  else zeros (5 - String.length digits) ++ digits.

(** [lat_lon_to_mgrs(lat, lon)] (main.py, l. 258). *)
Definition lat_lon_to_mgrs (lat lon : R) : outcome string :=
  '(zone, letter, easting, northing) <- lat_lon_to_utm lat lon ;;
  let set_number := (zone mod 6)%Z in
  let set_number := if (set_number =? 0)%Z then 6%Z else set_number in
  let col_letters :=
    ["ABCDEFGH"; "JKLMNPQR"; "STUVWXYZ"; "ABCDEFGH"; "JKLMNPQR"; "STUVWXYZ"] in
  let col_idx := (py_int (easting / 100000) - 1)%Z in
  let col_idx := if (col_idx <? 0)%Z then 0%Z else col_idx in
  let col_idx := if (7 <? col_idx)%Z then 7%Z else col_idx in
  col_set <- list_index col_letters (set_number - 1) ;;
  col_letter <- str_index col_set col_idx ;;
  let row_letters := "ABCDEFGHJKLMNPQRSTUV" in
  let row_idx := (py_int (northing / 100000) mod 20)%Z in
  row_letter <- str_index row_letters (row_idx mod 20) ;;
  let e_100k := py_int (py_fmod easting 100000) in
  let n_100k := py_int (py_fmod northing 100000) in
  Returns (format_d zone ++ String letter " "
           ++ String col_letter (String row_letter " ")
           ++ format_05d e_100k ++ " " ++ format_05d n_100k).

Local Close Scope string_scope.

(** ** BearingProjector *)

(** The rounding of the argument of [math.asin].  The domain test of
    [math.asin] is the one place of the projection where a rounding
    error of the last bit decides between a value and a [ValueError]:
    the floats compute [sin lat1 * cos d + cos lat1 * sin d * cos brng]
    in five rounded operations, and the result can exceed 1 when the
    exact value is 1.  A [rounding] gives, for the exact value of that
    argument, the float that the code hands to [math.asin]; [exact] is
    the arithmetic without rounding, and [accurate_to eps fl] bounds
    the error of [fl] by [eps]. *)
Definition rounding : Type := R -> R.

Definition exact : rounding := fun x => x.

Definition accurate_to (eps : R) (fl : rounding) : Prop :=
  forall x, Rabs (fl x - x) <= eps.

(** [calc_endpoint_haversine(lat, lon, azimuth, dist_km)] (main.py,
    l. 284); [R_km] is the source's [R], [fl] the rounding of the
    argument of [asin]. *)
Definition calc_endpoint_haversine (fl : rounding)
  (lat lon azimuth dist_km : R) : outcome (R * R) :=
  let R_km := 6371 in
  let lat1 := radians lat in
  let lon1 := radians lon in
  let brng := radians azimuth in
  lat2 <- py_asin (fl (sin lat1 * cos (dist_km / R_km)
                       + cos lat1 * sin (dist_km / R_km) * cos brng)) ;;
  let lon2 := lon1 + atan2 (sin brng * sin (dist_km / R_km) * cos lat1)
                           (cos (dist_km / R_km) - sin lat1 * sin lat2) in
  Returns (degrees lat2, degrees lon2).

(** ** IntersectionSolver *)

(** [line_intersection(p1, p2, p3, p4)] (main.py, l. 297). *)
Definition line_intersection (p1 p2 p3 p4 : R * R) : option (R * R) :=
  let '(x1, y1) := p1 in
  let '(x2, y2) := p2 in
  let '(x3, y3) := p3 in
  let '(x4, y4) := p4 in
  let denom := (x1 - x2) * (y3 - y4) - (y1 - y2) * (x3 - x4) in
  if Rlt_dec (Rabs denom) (1 / 10000000000) then None
  else
    let t := ((x1 - x3) * (y3 - y4) - (y1 - y3) * (x3 - x4)) / denom in
    let px := x1 + t * (x2 - x1) in
    let py := y1 + t * (y2 - y1) in
    Some (px, py).

(** The dataclass [Station] (main.py, l. 119). *)
Record Station : Type := mkStation {
  callsign : string;
  lat : R;
  lon : R;
  azimuth : R;
  uncertainty : R;
  color : string;
  visible : bool;
  signal : string;
  notes : string;
  station_id : string
}.

(** The angle test of [calculate_all_intersections] (main.py,
    l. 346-352): the absolute difference of the two directions, folded
    once when it exceeds [PI]. *)
Definition folded_diff (dir_to_inter dir_azimuth : R) : R :=
  let diff := Rabs (dir_to_inter - dir_azimuth) in
  if Rlt_dec PI diff then 2 * PI - diff else diff.

(** The body of the double loop of [calculate_all_intersections]
    (main.py, l. 323-357) for the pair [s1], [s2]: the point the body
    appends, as [(lat, lon)], or [None] when it appends nothing. *)
Definition pair_intersection (fl : rounding) (s1 s2 : Station)
  (azimuth_length_km : R) : outcome (option (R * R)) :=
  end1 <- calc_endpoint_haversine fl (lat s1) (lon s1) (azimuth s1)
                                  azimuth_length_km ;;
  end2 <- calc_endpoint_haversine fl (lat s2) (lon s2) (azimuth s2)
                                  azimuth_length_km ;;
  let inter := line_intersection (lon s1, lat s1) (snd end1, fst end1)
                                 (lon s2, lat s2) (snd end2, fst end2) in
  match inter with
  | Some (int_lon, int_lat) =>
      let dir1_to_inter := atan2 (int_lon - lon s1) (int_lat - lat s1) in
      let dir1_azimuth := radians (azimuth s1) in
      let dir2_to_inter := atan2 (int_lon - lon s2) (int_lat - lat s2) in
      let dir2_azimuth := radians (azimuth s2) in
      let diff1 := folded_diff dir1_to_inter dir1_azimuth in
      let diff2 := folded_diff dir2_to_inter dir2_azimuth in
      if Rltb diff1 (PI / 2) && Rltb diff2 (PI / 2) then
        if Rleb (-90) int_lat && Rleb int_lat 90
           && Rleb (-180) int_lon && Rleb int_lon 180
        then Returns (Some (int_lat, int_lon))
        else Returns None
      else Returns None
  | None => Returns None
  end.

(** The inner loop, over the stations [s2] that follow [s1]. *)
Fixpoint intersections_from (fl : rounding) (s1 : Station)
  (rest : list Station) (azimuth_length_km : R) : outcome (list (R * R)) :=
  match rest with
  | [] => Returns []
  | s2 :: rest' =>
      r <- pair_intersection fl s1 s2 azimuth_length_km ;;
      tl <- intersections_from fl s1 rest' azimuth_length_km ;;
      Returns (match r with Some p => p :: tl | None => tl end)
  end.

(** [calculate_all_intersections(stations, azimuth_length_km)] (main.py,
    l. 317). *)
Fixpoint calculate_all_intersections (fl : rounding)
  (stations : list Station) (azimuth_length_km : R)
  : outcome (list (R * R)) :=
  match stations with
  | [] => Returns []
  | s1 :: rest =>
      here <- intersections_from fl s1 rest azimuth_length_km ;;
      later <- calculate_all_intersections fl rest azimuth_length_km ;;
      Returns (here ++ later)
  end.

(** ** FixClusterEstimator *)

(** [distance_km(lat1, lon1, lat2, lon2)] (main.py, l. 362). *)
Definition distance_km (lat1 lon1 lat2 lon2 : R) : R :=
  let dlat := (lat2 - lat1) * 111 in
  let dlon := (lon2 - lon1) * 111 * cos (radians ((lat1 + lat2) / 2)) in
  sqrt (dlat ^ 2 + dlon ^ 2).

(** The search of the farthest pair (main.py, l. 382-389): the state is
    [(max_dist, p1, p2)]. *)
Definition farthest_step (pi pj : R * R) (st : R * (R * R) * (R * R))
  : R * (R * R) * (R * R) :=
  let '(max_dist, _, _) := st in
  let d := distance_km (fst pi) (snd pi) (fst pj) (snd pj) in
  if Rlt_dec max_dist d then (d, pi, pj) else st.

Fixpoint farthest_pair (points : list (R * R)) (st : R * (R * R) * (R * R))
  : R * (R * R) * (R * R) :=
  match points with
  | [] => st
  | pi :: rest =>
      farthest_pair rest (fold_left (fun st pj => farthest_step pi pj st) rest st)
  end.

(** The sweep that grows the circle (main.py, l. 395-402): the state is
    [(center_lat, center_lon, radius)]. *)
Definition grow_step (st : R * R * R) (p : R * R) : R * R * R :=
  let '(center_lat, center_lon, radius) := st in
  let d := distance_km center_lat center_lon (fst p) (snd p) in
  if Rlt_dec radius d then
    let new_radius := (radius + d) / 2 in
    let ratio := if Rlt_dec 0 d then (new_radius - radius) / d else 0 in
    (center_lat + ratio * (fst p - center_lat),
     center_lon + ratio * (snd p - center_lon),
     new_radius)
  else st.

(** The closing pass (main.py, l. 404-407), for a fixed center. *)
Definition cover_step (center_lat center_lon radius : R) (p : R * R) : R :=
  let d := distance_km center_lat center_lon (fst p) (snd p) in
  if Rlt_dec radius d then d else radius.

(** [smallest_enclosing_circle(points)] (main.py, l. 368). *)
Definition smallest_enclosing_circle (points : list (R * R)) : R * R * R :=
  match points with
  | [] => (0, 0, 0)
  | [p] => (fst p, snd p, 1 / 2)
  | [p1; p2] =>
      let center_lat := (fst p1 + fst p2) / 2 in
      let center_lon := (snd p1 + snd p2) / 2 in
      let radius := distance_km center_lat center_lon (fst p1) (snd p1) in
      (center_lat, center_lon, Rmax radius (1 / 2))
  | p0 :: p1 :: _ =>
      let '(max_dist, p1, p2) := farthest_pair points (0, p0, p1) in
      let center_lat := (fst p1 + fst p2) / 2 in
      let center_lon := (snd p1 + snd p2) / 2 in
      let radius := max_dist / 2 in
      let '(center_lat, center_lon, radius) :=
        fold_left grow_step points (center_lat, center_lon, radius) in
      let radius := fold_left (cover_step center_lat center_lon) points radius in
      (center_lat, center_lon, Rmax radius (1 / 2))
  end.

(** [calculate_uncertainty_circle(intersections)] (main.py, l. 412). *)
Definition calculate_uncertainty_circle (intersections : list (R * R))
  : option (R * R * R * R) :=
  match intersections with
  | [] => None
  | _ =>
      let '(center_lat, center_lon, radius_km) :=
        smallest_enclosing_circle intersections in
      let surface_km2 := PI * radius_km * radius_km in
      Some (center_lat, center_lon, radius_km, surface_km2)
  end.

(** ** DirectionFindingEngine *)

(** The entry [mission_data['intersection']] (main.py, l. 3426-3434). *)
Record Fix : Type := mkFix {
  center_lat : R;
  center_lon : R;
  radius_km : R;
  surface_km2 : R;
  mgrs : string;
  point_count : nat
}.

(** The computation of the fix in [generate_pdf_report] (main.py,
    l. 3420-3435): [None] when the key ['intersection'] is not set. *)
Definition mission_intersection (fl : rounding) (stations : list Station)
  (azimuth_length_km : R) : outcome (option Fix) :=
  let visible := filter visible stations in
  if (2 <=? List.length visible)%nat then
    intersections <- calculate_all_intersections fl visible
                                                 azimuth_length_km ;;
    match intersections with
    | [] => Returns None
    | _ =>
        match calculate_uncertainty_circle intersections with
        | Some (center_lat, center_lon, radius_km, surface_km2) =>
            mgrs <- lat_lon_to_mgrs center_lat center_lon ;;
            Returns (Some (mkFix center_lat center_lon radius_km surface_km2
                                 mgrs (List.length intersections)))
        | None => Returns None
        end
    end
  else Returns None.


(** ** Values of the projection, example stations *)

(** The latitude of the projected endpoint, in degrees: the value
    [calc_endpoint_haversine] computes when [asin] is defined. *)
Definition endpoint_lat (lat azimuth dist_km : R) : R :=
  degrees (asin (sin (radians lat) * cos (dist_km / 6371)
                 + cos (radians lat) * sin (dist_km / 6371)
                   * cos (radians azimuth))).

(** The longitude of the projected endpoint, in degrees. *)
Definition endpoint_lon (lat lon azimuth dist_km : R) : R :=
  degrees (radians lon
           + atan2 (sin (radians azimuth) * sin (dist_km / 6371)
                    * cos (radians lat))
                   (cos (dist_km / 6371)
                    - sin (radians lat)
                      * sin (asin (sin (radians lat) * cos (dist_km / 6371)
                                   + cos (radians lat) * sin (dist_km / 6371)
                                     * cos (radians azimuth))))).

(** Two stations on the equator: [station_A] at (0, 0) looks north-east,
    [station_B] at (0, 10) looks north. *)
Definition station_A : Station :=
  mkStation "A" 0 0 45 5 "#e74c3c" true "S5" "" "a0000001".

Definition station_B : Station :=
  mkStation "B" 0 10 0 5 "#3498db" true "S5" "" "b0000002".

(** A second station at the position of [station_A], looking north. *)
Definition station_A_north : Station :=
  mkStation "A2" 0 0 0 5 "#f39c12" true "S5" "" "e0000005".

(** The longitude, in degrees, that [station_A] reaches after an eighth
    of a turn of the great circle. *)
Definition lon_A_eighth : R := degrees (atan (sqrt 2 / 2)).

(** The deviation as the specification words it: the absolute
    difference of two directions, wrap-normalized into [[0, PI]]. *)
Definition angular_deviation (a b : R) : R :=
  let r := py_fmod (Rabs (a - b)) (2 * PI) in
  if Rlt_dec PI r then 2 * PI - r else r.

(** An arc whose cosine is -40/41 and whose sine is 9/41. *)
Definition long_arc : R := acos (- (40 / 41)).

(** A station at latitude 60 looking north-north-west (azimuth 330) and
    a station on the equator, at longitude -110, looking east. *)
Definition station_N : Station :=
  mkStation "N" 60 0 330 5 "#2ecc71" true "S5" "" "c0000003".

Definition station_E : Station :=
  mkStation "E" 0 (-110) 90 5 "#9b59b6" true "S5" "" "d0000004".

(** ** Rational enclosures of real numbers *)

(** An interval with rational ends. *)
Record itv : Type := mk_itv { lower : Q; upper : Q }.

(** An enclosure is an interval with rational ends, or nothing known. *)
Definition bound : Type := option itv.

(** [encloses b x]: the real [x] lies in [b]. *)
Definition encloses (b : bound) (x : R) : Prop :=
  match b with
  | Some i => Q2R (lower i) <= x <= Q2R (upper i)
  | None => True
  end.

(** The ends are rounded outward to multiples of [1 / grid]. *)
Definition grid : positive := (10 ^ 30)%positive.

Definition round_down_to (g : positive) (q : Q) : Q :=
  Qfloor (q * inject_Z (Zpos g)) # g.
Definition round_up_to (g : positive) (q : Q) : Q :=
  Qceiling (q * inject_Z (Zpos g)) # g.

Definition round_down (q : Q) : Q := round_down_to grid q.
Definition round_up (q : Q) : Q := round_up_to grid q.

Definition outward (l u : Q) : bound :=
  Some (mk_itv (round_down l) (round_up u)).

Definition ipoint (q : Q) : bound := Some (mk_itv q q).

(** Sum, opposite, difference, product, inverse of a positive
    interval, quotient, power and square root of enclosures. *)
Definition iadd (a b : bound) : bound :=
  match a, b with
  | Some x, Some y => outward (lower x + lower y) (upper x + upper y)
  | _, _ => None
  end.

Definition iopp (a : bound) : bound :=
  match a with
  | Some x => Some (mk_itv (- upper x) (- lower x))
  | None => None
  end.

Definition isub (a b : bound) : bound := iadd a (iopp b).

Definition qmin (p q : Q) : Q := if Qle_bool p q then p else q.
Definition qmax (p q : Q) : Q := if Qle_bool p q then q else p.

Definition imul (a b : bound) : bound :=
  match a, b with
  | Some x, Some y =>
      let p1 := (lower x * lower y)%Q in
      let p2 := (lower x * upper y)%Q in
      let p3 := (upper x * lower y)%Q in
      let p4 := (upper x * upper y)%Q in
      outward (qmin (qmin p1 p2) (qmin p3 p4)) (qmax (qmax p1 p2) (qmax p3 p4))
  | _, _ => None
  end.

Definition Qlt_bool (p q : Q) : bool := negb (Qle_bool q p).

Definition iinv (a : bound) : bound :=
  match a with
  | Some x =>
      if Qlt_bool 0 (lower x) && Qlt_bool 0 (upper x)
      then outward (/ upper x) (/ lower x)
      else None
  | None => None
  end.

Definition idiv (a b : bound) : bound := imul a (iinv b).

Fixpoint ipow (a : bound) (n : nat) : bound :=
  match n with
  | O => ipoint 1
  | S n' => imul a (ipow a n')
  end.

Definition isqrt (a : bound) : bound :=
  match a with
  | Some x =>
      let s := (Zpos grid * Zpos grid)%Z in
      let gl := Z.sqrt (Qfloor (lower x * inject_Z s)) # grid in
      let gu := (Z.sqrt (Qceiling (upper x * inject_Z s)) + 1) # grid in
      if Qle_bool 0 gl && Qle_bool 0 gu
         && Qle_bool (gl * gl) (lower x) && Qle_bool (upper x) (gu * gu)
      then Some (mk_itv gl gu)
      else None
  | None => None
  end.

(** The interval from zero to the upper end. *)
Definition izero_to (a : bound) : bound :=
  match a with
  | Some x => Some (mk_itv 0 (upper x))
  | None => None
  end.

(** The interval [[-1, 1]]. *)
Definition iunit : bound := Some (mk_itv (-1) 1).

(** [within a l u]: the enclosure [a] is known and lies in [[l, u]]. *)
Definition within (a : bound) (l u : Q) : bool :=
  match a with
  | Some x => Qle_bool l (lower x) && Qle_bool (upper x) u
  | None => false
  end.

(** Taylor enclosures: [sin] on [[0, 3]], [cos] on [[-3/2, 3/2]]. *)
Definition isin (a : bound) : bound :=
  if within a 0 3 then
    iadd (iadd (isub (iadd (isub a (idiv (ipow a 3) (ipoint 6)))
                           (idiv (ipow a 5) (ipoint 120)))
                     (idiv (ipow a 7) (ipoint 5040)))
               (ipoint 0))
         (izero_to (idiv (ipow a 9) (ipoint 362880)))
  else iunit.

Definition icos (a : bound) : bound :=
  if within a (- (3 # 2)) (3 # 2) then
    iadd (isub (iadd (isub (ipoint 1) (idiv (ipow a 2) (ipoint 2)))
                     (idiv (ipow a 4) (ipoint 24)))
               (idiv (ipow a 6) (ipoint 720)))
         (izero_to (idiv (ipow a 8) (ipoint 40320)))
  else iunit.

(** Ten digits of [PI]. *)
Definition pi_bound : bound :=
  Some (mk_itv (3141592653 # 1000000000) (3141592654 # 1000000000)).

(** The coordinate ranges that [calculate_all_intersections] requires of
    a point [(lat, lon)] (main.py, l. 356). *)
Definition in_coordinate_range (p : R * R) : Prop :=
  -90 <= fst p <= 90 /\ -180 <= snd p <= 180.

(** [ordered_pair p q l]: [p] occurs in [l] before an occurrence of [q]. *)
Fixpoint ordered_pair {A : Type} (p q : A) (l : list A) : Prop :=
  match l with
  | [] => False
  | x :: rest => (x = p /\ In q rest) \/ ordered_pair p q rest
  end.

(** The distance between two points [(lat, lon)]. *)
Definition point_distance (p q : R * R) : R :=
  distance_km (fst p) (snd p) (fst q) (snd q).

(** Three points. *)
Definition three_points : list (R * R) := [(0, 0); (0, 1); (1, 0)].

(** The central meridian of a UTM zone, in degrees (main.py, l. 234). *)
Definition central_meridian (zone : Z) : R := IZR ((zone - 1) * 6 - 180 + 3).

(** The latitudes for which [lat_lon_to_utm] has no zone override
    (main.py, l. 208-218). *)
Definition no_zone_override (lat : R) : Prop :=
  lat < 56 \/ 64 <= lat < 72 \/ 84 <= lat.

(** ** Map tiles *)

(** The two exceptions of the tile arithmetic: the [ValueError] of
    [math.log] and the [ZeroDivisionError] of a float division. *)
Inductive tile_exn : Type := LogDomainError | ZeroDivisionError.

Inductive tile_outcome (A : Type) : Type :=
| TileReturns (a : A)
| TileRaises (e : tile_exn).

Arguments TileReturns {A} a.
Arguments TileRaises {A} e.

Definition tile_bind {A B : Type} (m : tile_outcome A)
  (k : A -> tile_outcome B) : tile_outcome B :=
  match m with
  | TileReturns a => k a
  | TileRaises e => TileRaises e
  end.

(** [math.log(x)] and [x / y] on floats. *)
Definition py_log (x : R) : tile_outcome R :=
  if Rlt_dec 0 x then TileReturns (ln x) else TileRaises LogDomainError.

Definition py_truediv (x y : R) : tile_outcome R :=
  if Req_dec_T y 0 then TileRaises ZeroDivisionError else TileReturns (x / y).

(** [range(a, b)]. *)
Definition py_range (a b : Z) : list Z :=
  map (fun i => (a + Z.of_nat i)%Z) (seq 0 (Z.to_nat (b - a))).

(** [lat_lon_to_tile(lat, lon, zoom)] (main.py, l. 422); [2 ** zoom] is
    the exact power of two, also for a negative [zoom]. *)
Definition lat_lon_to_tile (lat lon : R) (zoom : Z) : tile_outcome (Z * Z) :=
  let lat_rad := radians lat in
  let n := powerRZ 2 zoom in
  let x := py_int ((lon + 180) / 360 * n) in
  tile_bind (py_truediv 1 (cos lat_rad)) (fun secant =>
  tile_bind (py_log (tan lat_rad + secant)) (fun l =>
  let y := py_int ((1 - l / PI) / 2 * n) in
  TileReturns (x, y))).

(** The body of the loop on [z] of [get_tiles_for_bounds] (main.py,
    l. 434-438): the tiles it appends at one zoom level. *)
Definition tiles_at_zoom (min_lat min_lon max_lat max_lon : R) (z : Z)
  : tile_outcome (list (Z * Z * Z)) :=
  tile_bind (lat_lon_to_tile min_lat min_lon z) (fun '(x_min, y_max) =>
  tile_bind (lat_lon_to_tile max_lat max_lon z) (fun '(x_max, y_min) =>
  TileReturns
    (flat_map (fun x => map (fun y => (z, x, y)) (py_range y_min (y_max + 1)))
              (py_range x_min (x_max + 1))))).

Fixpoint tiles_loop (min_lat min_lon max_lat max_lon : R) (zooms : list Z)
  (tiles : list (Z * Z * Z)) : tile_outcome (list (Z * Z * Z)) :=
  match zooms with
  | [] => TileReturns tiles
  | z :: zooms' =>
      tile_bind (tiles_at_zoom min_lat min_lon max_lat max_lon z)
                (fun new => tiles_loop min_lat min_lon max_lat max_lon zooms'
                                       (tiles ++ new))
  end.

(** [get_tiles_for_bounds(min_lat, min_lon, max_lat, max_lon, min_zoom,
    max_zoom)] (main.py, l. 430). *)
Definition get_tiles_for_bounds (min_lat min_lon max_lat max_lon : R)
  (min_zoom max_zoom : Z) : tile_outcome (list (Z * Z * Z)) :=
  tiles_loop min_lat min_lon max_lat max_lon
             (py_range min_zoom (max_zoom + 1)) [].

(** The Mercator ordinate [log(tan(lat) + 1 / cos(lat))] of
    [lat_lon_to_tile], and the two tile coordinates it returns when it
    returns. *)
Definition mercator (lat : R) : R :=
  ln (tan (radians lat) + 1 / cos (radians lat)).

Definition tile_x (lon : R) (zoom : Z) : Z :=
  py_int ((lon + 180) / 360 * powerRZ 2 zoom).

Definition tile_y (lat : R) (zoom : Z) : Z :=
  py_int ((1 - mercator lat / PI) / 2 * powerRZ 2 zoom).

(** The characters of a string are all decimal digits. *)
Definition all_digits (s : string) : Prop :=
  Forall (fun c => In c (list_ascii_of_string "0123456789"%string))
         (list_ascii_of_string s).

(** ** Tile providers *)

(** An entry of [TILE_PROVIDERS] (main.py, l. 53); the fields [name] and
    [attribution], which [get_tile_url] does not read, are left out. *)
Record TileProvider : Type := mkTileProvider {
  url : string;
  subdomains : list string;
  provider_max_zoom : Z
}.

Definition provider_osm : TileProvider :=
  mkTileProvider "https://{s}.tile.openstreetmap.org/{z}/{x}/{y}.png"
                 ["a"; "b"; "c"]%string 19.
Definition provider_osm_fr : TileProvider :=
  mkTileProvider "https://{s}.tile.openstreetmap.fr/osmfr/{z}/{x}/{y}.png"
                 ["a"; "b"; "c"]%string 19.
Definition provider_topo : TileProvider :=
  mkTileProvider "https://{s}.tile.opentopomap.org/{z}/{x}/{y}.png"
                 ["a"; "b"; "c"]%string 17.
Definition provider_cartodb_dark : TileProvider :=
  mkTileProvider
    "https://{s}.basemaps.cartocdn.com/dark_all/{z}/{x}/{y}{r}.png"
    ["a"; "b"; "c"; "d"]%string 20.
Definition provider_geoportail_plan : TileProvider :=
  mkTileProvider
    "https://data.geopf.fr/wmts?SERVICE=WMTS&REQUEST=GetTile&VERSION=1.0.0&TILEMATRIXSET=PM&LAYER=GEOGRAPHICALGRIDSYSTEMS.PLANIGNV2&STYLE=normal&FORMAT=image/png&TILECOL={x}&TILEROW={y}&TILEMATRIX={z}"
    [] 18.
Definition provider_geoportail_sat : TileProvider :=
  mkTileProvider
    "https://data.geopf.fr/wmts?SERVICE=WMTS&REQUEST=GetTile&VERSION=1.0.0&TILEMATRIXSET=PM&LAYER=ORTHOIMAGERY.ORTHOPHOTOS&STYLE=normal&FORMAT=image/jpeg&TILECOL={x}&TILEROW={y}&TILEMATRIX={z}"
    [] 19.
Definition provider_esri_sat : TileProvider :=
  mkTileProvider
    "https://server.arcgisonline.com/ArcGIS/rest/services/World_Imagery/MapServer/tile/{z}/{y}/{x}"
    [] 19.

Definition TILE_PROVIDERS : list (string * TileProvider) :=
  [("osm", provider_osm); ("osm-fr", provider_osm_fr);
   ("topo", provider_topo); ("cartodb-dark", provider_cartodb_dark);
   ("geoportail-plan", provider_geoportail_plan);
   ("geoportail-sat", provider_geoportail_sat);
   ("esri-sat", provider_esri_sat)]%string.

(** [d.get(key, default)] on a dict with string keys. *)
Fixpoint dict_get {V : Type} (d : list (string * V)) (key : string)
  (default : V) : V :=
  match d with
  | [] => default
  | (k, v) :: d' => if String.eqb key k then v else dict_get d' key default
  end.

(** [s.replace(old, new)] for a non-empty [old]: every occurrence of
    [old] met from the left is replaced, and the scan resumes after it;
    [skip] counts the characters of a matched occurrence still to
    pass. *)
Fixpoint replace_from (old new s : string) (skip : nat) : string :=
  match s with
  | EmptyString => EmptyString
  | String c s' =>
      match skip with
      | S k => replace_from old new s' k
      | O =>
          if String.prefix old s
          then (new ++ replace_from old new s' (String.length old - 1))%string
          else String c (replace_from old new s' 0)
      end
  end.

Definition str_replace (s old new : string) : string :=
  replace_from old new s 0.

(** [get_tile_url(provider_key, z, x, y, subdomain_index)] (main.py,
    l. 442); [TILE_PROVIDERS['osm']] is [provider_osm]. *)
Definition get_tile_url (provider_key : string) (z x y subdomain_index : Z)
  : outcome string :=
  let provider := dict_get TILE_PROVIDERS provider_key provider_osm in
  let url0 := url provider in
  url1 <- match subdomains provider with
          | [] => Returns url0
          | _ :: _ =>
              subdomain <- list_index
                             (subdomains provider)
                             (subdomain_index
                              mod Z.of_nat (List.length (subdomains provider))) ;;
              Returns (str_replace url0 "{s}" subdomain)
          end ;;
  let url2 := str_replace url1 "{z}" (format_d z) in
  let url3 := str_replace url2 "{x}" (format_d x) in
  let url4 := str_replace url3 "{y}" (format_d y) in
  Returns url4.

(** ** Rounding lemmas *)

Lemma Rabs_le_between (x b : R) : Rabs x <= b -> - b <= x <= b.
Proof.
  unfold Rabs. destruct (Rcase_abs x); lra.
Qed.

Lemma round_half_even_error (x : R) :
  Rabs (IZR (round_half_even x) - x) <= 1 / 2.
Proof.
  unfold round_half_even.
  pose proof (Zfloor_bound x) as [Hlo Hhi].
  destruct (Rlt_dec _ _) as [H1 | H1].
  - apply Rabs_le. lra.
  - destruct (Rlt_dec _ _) as [H2 | H2].
    + rewrite plus_IZR. apply Rabs_le. lra.
    + assert (x - IZR (Zfloor x) = 1 / 2) by lra.
      destruct (Z.even _); [| rewrite plus_IZR]; apply Rabs_le; lra.
Qed.

Lemma pow10_pos (n : nat) : 0 < 10 ^ n.
Proof. apply pow_lt. lra. Qed.

Lemma py_round_error (x : R) (n : nat) :
  Rabs (py_round x n - x) <= 1 / 2 / 10 ^ n.
Proof.
  unfold py_round.
  pose proof (pow10_pos n) as Hp.
  pose proof (round_half_even_error (x * 10 ^ n)) as H.
  replace (IZR (round_half_even (x * 10 ^ n)) / 10 ^ n - x)
    with ((IZR (round_half_even (x * 10 ^ n)) - x * 10 ^ n) / 10 ^ n)
    by (field; lra).
  unfold Rdiv at 1. rewrite Rabs_mult, (Rabs_pos_eq (/ _)).
  - unfold Rdiv. apply Rmult_le_compat_r; [| exact H].
    left. now apply Rinv_0_lt_compat.
  - left. now apply Rinv_0_lt_compat.
Qed.

Lemma py_round_error_6 (x : R) : Rabs (py_round x 6 - x) <= 5 / 10000000.
Proof.
  pose proof (py_round_error x 6) as H. simpl in H. lra.
Qed.

Lemma py_round_error_2 (x : R) : Rabs (py_round x 2 - x) <= 5 / 1000.
Proof.
  pose proof (py_round_error x 2) as H. simpl in H. lra.
Qed.

(** ** DMS round trip *)

Lemma dms_round_trip_any (dd : R) (coord_type : string) :
  let '(deg, minutes, seconds, direction) := dd_to_dms dd coord_type in
  exists v, dms_to_dd deg minutes seconds direction = Returns v
            /\ Rabs (v - dd) <= 2 / 1000000.
Proof.
  unfold dd_to_dms, dms_to_dd.
  set (a := Rabs dd).
  set (deg := py_int a).
  set (minutes := py_int ((a - IZR deg) * 60)).
  set (rest := (a - IZR deg - IZR minutes / 60) * 3600).
  set (seconds := py_round rest 2).
  eexists; split; [reflexivity |].
  pose proof (py_round_error rest 2) as Hs. fold seconds in Hs.
  apply Rabs_le_between in Hs. simpl in Hs.
  set (raw := IZR deg + IZR minutes / 60 + seconds / 3600).
  assert (Hraw : - (1 / 720000) <= raw - a <= 1 / 720000).
  { unfold raw. unfold rest in Hs. lra. }
  match goal with |- Rabs (py_round ?y 6 - dd) <= _ =>
    pose proof (py_round_error y 6) as Hr; apply Rabs_le_between in Hr;
    set (v := py_round y 6) in *
  end.
  simpl in Hr.
  apply Rabs_le.
  unfold a in *.
  destruct (Rle_dec 0 dd) as [Hd | Hd].
  - rewrite Rabs_pos_eq in Hraw by assumption.
    destruct (String.eqb coord_type "lat"); simpl in Hr; lra.
  - rewrite Rabs_left in Hraw by lra.
    destruct (String.eqb coord_type "lat"); simpl in Hr; lra.
Qed.

(** C4. For every decimal-degree value [dd] in the valid range of its
    axis, converting it with [dd_to_dms] and back with [dms_to_dd]
    returns a value within 1e-4 degrees of [dd]. *)
Theorem dms_round_trip (dd : R) (coord_type : string) :
  valid_dd coord_type dd ->
  let '(deg, minutes, seconds, direction) := dd_to_dms dd coord_type in
  exists v, dms_to_dd deg minutes seconds direction = Returns v
            /\ Rabs (v - dd) <= 1 / 10000.
Proof.
  intros _.
  pose proof (dms_round_trip_any dd coord_type) as H.
  destruct (dd_to_dms dd coord_type) as [[[deg minutes] seconds] direction].
  destruct H as [v [Hv Hb]].
  exists v. split; [exact Hv | lra].
Qed.

Lemma dms_round_trip_witness :
  valid_dd "lat" (488566 / 10000)
  /\ let '(deg, minutes, seconds, direction) :=
       dd_to_dms (488566 / 10000) "lat" in
     exists v, dms_to_dd deg minutes seconds direction = Returns v
               /\ Rabs (v - 488566 / 10000) <= 1 / 10000.
Proof.
  assert (Hr : valid_dd "lat" (488566 / 10000)) by (unfold valid_dd; simpl String.eqb; cbv iota; lra).
  split; [exact Hr | exact (dms_round_trip (488566 / 10000) "lat" Hr)].
Defined.

(** ** [dms_to_dd]: value and failures *)

Lemma Zfloor_0 (x : R) : 0 <= x < 1 -> Zfloor x = 0%Z.
Proof. intros H. apply Zfloor_eq. simpl. lra. Qed.

(** C6, as stated, fails: [dms_to_dd] returns a value on components out
    of range (degrees -1, minutes 70, seconds 61), and the value it
    returns is rounded, so it differs from [deg + min/60 + sec/3600]
    (at 0 degrees, 0 minutes, 0.001 seconds it is 0). *)
Lemma dms_to_dd_no_validation :
  ~ (forall deg minutes seconds direction,
        ~ dms_in_range deg minutes seconds ->
        exists e, dms_to_dd deg minutes seconds direction = Raises e)
  /\ dms_to_dd 0 0 (1 / 1000) "N" <> Returns (dms_value 0 0 (1 / 1000) "N").
Proof.
  split.
  - intros H.
    destruct (H (-1)%Z 70%Z 61 "N"%string) as [e He].
    + unfold dms_in_range. lia.
    + discriminate He.
  - unfold dms_to_dd, dms_value, py_round, round_half_even. simpl existsb.
    cbv iota.
    set (y := (0 + 0 / 60 + 1 / 1000 / 3600) * 10 ^ 6).
    assert (Hy : y = 5 / 18) by (unfold y; simpl; field).
    rewrite Hy.
    rewrite (Zfloor_0 (5 / 18)) by lra.
    destruct (Rlt_dec (5 / 18 - 0) (1 / 2)) as [_ | Hn]; [| exfalso; lra].
    intros Heq. injection Heq as Heq. simpl in Heq. lra.
Qed.

(** C6, amended. For every input, in range or not, [dms_to_dd] returns
    [deg + min/60 + sec/3600], negated for the directions S and W,
    rounded to six decimals, hence within 5e-7 of that value; it never
    fails. *)
Theorem dms_to_dd_rounded_value (deg minutes : Z) (seconds : R)
  (direction : string) :
  exists v, dms_to_dd deg minutes seconds direction = Returns v
            /\ v = py_round (dms_value deg minutes seconds direction) 6
            /\ Rabs (v - dms_value deg minutes seconds direction)
               <= 5 / 10000000.
Proof.
  eexists. split; [reflexivity |]. split.
  - unfold dms_value. reflexivity.
  - apply py_round_error_6.
Qed.

(** ** Indexing in bounds *)

Lemma string_get_in_bounds (s : string) (n : nat) :
  (n < String.length s)%nat -> exists c, String.get n s = Some c.
Proof.
  revert n. induction s as [| a s IH]; intros n Hn; simpl in *.
  - lia.
  - destruct n as [| n].
    + now exists a.
    + apply IH. lia.
Qed.

Lemma str_index_in_bounds (s : string) (i : Z) :
  (0 <= i < Z.of_nat (String.length s))%Z ->
  exists c, str_index s i = Returns c /\ String.get (Z.to_nat i) s = Some c.
Proof.
  intros Hi. unfold str_index.
  destruct (Z.ltb_spec i 0) as [Hneg | _]; [lia |].
  destruct (Z.ltb_spec i 0) as [Hneg | _]; [lia |].
  destruct (string_get_in_bounds s (Z.to_nat i)) as [c Hc]; [lia |].
  exists c. now rewrite Hc.
Qed.

Lemma py_int_nonneg (x : R) : 0 <= x -> py_int x = Zfloor x.
Proof.
  intros H. unfold py_int. destruct (Rle_dec 0 x); [reflexivity | contradiction].
Qed.

Lemma Zfloor_range (x : R) (lo hi : Z) :
  IZR lo <= x -> x < IZR hi + 1 -> (lo <= Zfloor x <= hi)%Z.
Proof.
  intros Hlo Hhi. split.
  - now apply Zfloor_lub.
  - pose proof (Zfloor_bound x) as [Hb _].
    assert (IZR (Zfloor x) < IZR (hi + 1)) by (rewrite plus_IZR; lra).
    apply lt_IZR in H. lia.
Qed.

Lemma Rleb_true (x y : R) : x <= y -> Rleb x y = true.
Proof. intros H. unfold Rleb. destruct (Rle_dec x y); [reflexivity | contradiction]. Qed.

Lemma Rleb_false (x y : R) : y < x -> Rleb x y = false.
Proof. intros H. unfold Rleb. destruct (Rle_dec x y); [lra | reflexivity]. Qed.

Lemma Rltb_true (x y : R) : x < y -> Rltb x y = true.
Proof. intros H. unfold Rltb. destruct (Rlt_dec x y); [reflexivity | contradiction]. Qed.

Lemma Rltb_false (x y : R) : y <= x -> Rltb x y = false.
Proof. intros H. unfold Rltb. destruct (Rlt_dec x y); [lra | reflexivity]. Qed.

(** ** The latitude band letter *)

Lemma utm_letter_index (lat : R) :
  -80 <= lat <= 84 -> (0 <= py_int ((lat + 80) / 8) <= 20)%Z.
Proof.
  intros H. rewrite py_int_nonneg by lra.
  apply Zfloor_range; simpl; lra.
Qed.

Lemma utm_letter_in_range (lat : R) :
  -80 <= lat <= 84 ->
  exists c, utm_letter lat = Returns c
            /\ String.get (Z.to_nat (py_int ((lat + 80) / 8)))
                 "CDEFGHJKLMNPQRSTUVWXX" = Some c.
Proof.
  intros H. unfold utm_letter.
  rewrite !Rleb_true by lra. simpl andb. cbv iota.
  apply str_index_in_bounds.
  pose proof (utm_letter_index lat H). simpl. lia.
Qed.

Lemma utm_letter_out_of_range (lat : R) :
  ~ (-80 <= lat <= 84) -> utm_letter lat = Returns "Z"%char.
Proof.
  intros H. unfold utm_letter, Rleb.
  destruct (Rle_dec (-80) lat); destruct (Rle_dec lat 84); simpl;
    try reflexivity.
  exfalso. apply H. lra.
Qed.

Lemma utm_letter_total (lat : R) : exists c, utm_letter lat = Returns c.
Proof.
  destruct (Rle_dec (-80) lat) as [H1 | H1].
  - destruct (Rle_dec lat 84) as [H2 | H2].
    + destruct (utm_letter_in_range lat) as [c [Hc _]]; [lra | now exists c].
    + exists "Z"%char. apply utm_letter_out_of_range. lra.
  - exists "Z"%char. apply utm_letter_out_of_range. lra.
Qed.

Lemma utm_letter_84 : utm_letter 84 = Returns "X"%char.
Proof.
  unfold utm_letter.
  rewrite !Rleb_true by lra. simpl andb. cbv iota.
  rewrite py_int_nonneg by lra.
  rewrite (Zfloor_eq 20) by (simpl; lra).
  reflexivity.
Qed.

Lemma lat_lon_to_utm_letter (lat lon : R) (c : ascii) :
  utm_letter lat = Returns c ->
  lat_lon_to_utm lat lon
  = Returns (utm_zone lat lon, c,
             fst (utm_easting_northing (utm_zone lat lon) lat lon),
             snd (utm_easting_northing (utm_zone lat lon) lat lon)).
Proof.
  intros Hc. unfold lat_lon_to_utm. rewrite Hc. cbn [bind].
  now destruct (utm_easting_northing (utm_zone lat lon) lat lon).
Qed.

(** C10. For every latitude in [[-80, 84]] the index
    [int((lat + 80) / 8)] lies in [[0, 20]], the 21-character table has
    a letter there and [lat_lon_to_utm] returns with that letter;
    latitude 84 gives 'X'; a latitude outside [[-80, 84]] gives 'Z'. *)
Theorem utm_letter_lookup_in_bounds :
  (forall lat lon, -80 <= lat <= 84 ->
     (0 <= py_int ((lat + 80) / 8) <= 20)%Z
     /\ exists c,
          String.get (Z.to_nat (py_int ((lat + 80) / 8)))
            "CDEFGHJKLMNPQRSTUVWXX" = Some c
          /\ exists zone easting northing,
               lat_lon_to_utm lat lon = Returns (zone, c, easting, northing))
  /\ (exists zone easting northing,
        lat_lon_to_utm 84 0 = Returns (zone, "X"%char, easting, northing))
  /\ (forall lat lon, ~ (-80 <= lat <= 84) ->
        exists zone easting northing,
          lat_lon_to_utm lat lon = Returns (zone, "Z"%char, easting, northing)).
Proof.
  split; [| split].
  - intros lat lon H. split; [now apply utm_letter_index |].
    destruct (utm_letter_in_range lat H) as [c [Hc Hg]].
    exists c. split; [exact Hg |].
    do 3 eexists. now apply lat_lon_to_utm_letter.
  - do 3 eexists. apply lat_lon_to_utm_letter, utm_letter_84.
  - intros lat lon H. do 3 eexists.
    now apply lat_lon_to_utm_letter, utm_letter_out_of_range.
Qed.

Lemma utm_letter_lookup_in_bounds_witness :
  -80 <= -80 <= 84
  /\ (0 <= py_int ((-80 + 80) / 8) <= 20)%Z
  /\ exists c,
       String.get (Z.to_nat (py_int ((-80 + 80) / 8)))
         "CDEFGHJKLMNPQRSTUVWXX" = Some c
       /\ exists zone easting northing,
            lat_lon_to_utm (-80) 0 = Returns (zone, c, easting, northing).
Proof.
  assert (H : -80 <= -80 <= 84) by lra.
  split; [exact H |].
  exact (proj1 utm_letter_lookup_in_bounds (-80) 0 H).
Defined.

(** ** UTM and MGRS never fail *)

Lemma lat_lon_to_utm_total (lat lon : R) :
  exists letter,
    utm_letter lat = Returns letter
    /\ lat_lon_to_utm lat lon
       = Returns (utm_zone lat lon, letter,
                  fst (utm_easting_northing (utm_zone lat lon) lat lon),
                  snd (utm_easting_northing (utm_zone lat lon) lat lon)).
Proof.
  destruct (utm_letter_total lat) as [c Hc].
  exists c. split; [exact Hc | now apply lat_lon_to_utm_letter].
Qed.

(** The column index of [lat_lon_to_mgrs] after its two clamps. *)
Lemma mgrs_col_idx_clamped (raw : Z) :
  (if (7 <? (if (raw <? 0)%Z then 0%Z else raw))%Z then 7%Z
   else if (raw <? 0)%Z then 0%Z else raw)
  = Z.max 0 (Z.min 7 raw).
Proof.
  destruct (Z.ltb_spec raw 0).
  - simpl. lia.
  - destruct (Z.ltb_spec 7 raw); lia.
Qed.

Lemma mgrs_col_set (zone : Z) :
  let set_number := (zone mod 6)%Z in
  let set_number := if (set_number =? 0)%Z then 6%Z else set_number in
  exists col_set,
    list_index
      ["ABCDEFGH"; "JKLMNPQR"; "STUVWXYZ"; "ABCDEFGH"; "JKLMNPQR"; "STUVWXYZ"]%string
      (set_number - 1) = Returns col_set
    /\ String.length col_set = 8%nat.
Proof.
  intros set_number set_number'.
  assert (H : (0 <= zone mod 6 < 6)%Z) by (apply Z.mod_pos_bound; lia).
  fold set_number in H.
  assert (Hs : (set_number' - 1 = 0 \/ set_number' - 1 = 1
                \/ set_number' - 1 = 2 \/ set_number' - 1 = 3
                \/ set_number' - 1 = 4 \/ set_number' - 1 = 5)%Z).
  { unfold set_number'. destruct (Z.eqb_spec set_number 0); lia. }
  destruct Hs as [-> | [-> | [-> | [-> | [-> | ->]]]]];
    eexists; (split; [reflexivity | reflexivity]).
Qed.

Lemma lat_lon_to_mgrs_total (lat lon : R) :
  exists letter col_set col_letter row_letter,
    let zone := utm_zone lat lon in
    let easting := fst (utm_easting_northing zone lat lon) in
    let northing := snd (utm_easting_northing zone lat lon) in
    utm_letter lat = Returns letter
    /\ String.get
         (Z.to_nat (Z.max 0 (Z.min 7 (py_int (easting / 100000) - 1))))
         col_set = Some col_letter
    /\ lat_lon_to_mgrs lat lon
       = Returns (format_d zone ++ String letter " "
                  ++ String col_letter (String row_letter " ")
                  ++ format_05d (py_int (py_fmod easting 100000)) ++ " "
                  ++ format_05d (py_int (py_fmod northing 100000)))%string.
Proof.
  destruct (lat_lon_to_utm_total lat lon) as [letter [Hl Hu]].
  set (zone := utm_zone lat lon) in *.
  set (easting := fst (utm_easting_northing zone lat lon)) in *.
  set (northing := snd (utm_easting_northing zone lat lon)) in *.
  destruct (mgrs_col_set zone) as [col_set [Hset Hlen]].
  set (col_idx := Z.max 0 (Z.min 7 (py_int (easting / 100000) - 1))).
  destruct (str_index_in_bounds col_set col_idx) as [col_letter [Hcol Hget]].
  { rewrite Hlen. unfold col_idx. simpl. lia. }
  set (row_idx := (py_int (northing / 100000) mod 20)%Z).
  destruct (str_index_in_bounds "ABCDEFGHJKLMNPQRSTUV" (row_idx mod 20))
    as [row_letter [Hrow _]].
  { simpl. apply Z.mod_pos_bound. lia. }
  exists letter, col_set, col_letter, row_letter.
  cbv zeta. fold zone easting northing.
  split; [exact Hl |]. split; [exact Hget |].
  unfold lat_lon_to_mgrs. rewrite Hu. cbn [bind].
  rewrite Hset. cbn [bind].
  rewrite mgrs_col_idx_clamped. fold col_idx. rewrite Hcol. cbn [bind].
  fold row_idx. rewrite Hrow. cbn [bind]. reflexivity.
Qed.

Lemma utm_zone_0_200 : utm_zone 0 200 = 64%Z.
Proof.
  unfold utm_zone.
  rewrite (Rleb_false 56 0) by lra. rewrite (Rleb_false 72 0) by lra.
  simpl andb. cbv iota.
  rewrite py_int_nonneg by lra.
  rewrite (Zfloor_eq 63) by (simpl; lra). reflexivity.
Qed.

Lemma utm_letter_0 : utm_letter 0 = Returns "N"%char.
Proof.
  unfold utm_letter.
  rewrite !Rleb_true by lra. simpl andb. cbv iota.
  rewrite py_int_nonneg by lra.
  rewrite (Zfloor_eq 10) by (simpl; lra). reflexivity.
Qed.

(** C8, amended. The two conversions check nothing and never fail: for
    every latitude and longitude [lat_lon_to_utm] returns the zone
    [int((lon + 180) / 6) + 1] (with the Norway and Svalbard overrides)
    whatever its value, with the band letter Z outside [[-80, 84]], and
    [lat_lon_to_mgrs] returns a string whose column letter is read, in
    the entry of the table [col_letters] that the zone selects, at the
    index [int(easting / 100000) - 1] clamped into [[0, 7]], and whose
    row letter is read at [int(northing / 100000) % 20]. *)
Theorem utm_mgrs_never_fail (lat lon : R) :
  exists letter col_set col_letter row_letter,
    let zone := utm_zone lat lon in
    let easting := fst (utm_easting_northing zone lat lon) in
    let northing := snd (utm_easting_northing zone lat lon) in
    let set_number := (zone mod 6)%Z in
    let set_number := if (set_number =? 0)%Z then 6%Z else set_number in
    utm_letter lat = Returns letter
    /\ (~ (-80 <= lat <= 84) -> letter = "Z"%char)
    /\ lat_lon_to_utm lat lon = Returns (zone, letter, easting, northing)
    /\ list_index
         ["ABCDEFGH"; "JKLMNPQR"; "STUVWXYZ";
          "ABCDEFGH"; "JKLMNPQR"; "STUVWXYZ"]%string
         (set_number - 1) = Returns col_set
    /\ String.get
         (Z.to_nat (Z.max 0 (Z.min 7 (py_int (easting / 100000) - 1))))
         col_set = Some col_letter
    /\ String.get (Z.to_nat (py_int (northing / 100000) mod 20))
                  "ABCDEFGHJKLMNPQRSTUV" = Some row_letter
    /\ lat_lon_to_mgrs lat lon
       = Returns (format_d zone ++ String letter " "
                  ++ String col_letter (String row_letter " ")
                  ++ format_05d (py_int (py_fmod easting 100000)) ++ " "
                  ++ format_05d (py_int (py_fmod northing 100000)))%string.
Proof.
  destruct (lat_lon_to_utm_total lat lon) as [letter [Hl Hu]].
  set (zone := utm_zone lat lon) in *.
  set (easting := fst (utm_easting_northing zone lat lon)) in *.
  set (northing := snd (utm_easting_northing zone lat lon)) in *.
  destruct (mgrs_col_set zone) as [col_set [Hset Hlen]].
  set (col_idx := Z.max 0 (Z.min 7 (py_int (easting / 100000) - 1))).
  destruct (str_index_in_bounds col_set col_idx) as [col_letter [Hcol Hget]].
  { rewrite Hlen. unfold col_idx. simpl. lia. }
  set (row_idx := (py_int (northing / 100000) mod 20)%Z).
  assert (Hmod : (row_idx mod 20 = row_idx)%Z).
  { unfold row_idx. apply Z.mod_mod. lia. }
  destruct (str_index_in_bounds "ABCDEFGHJKLMNPQRSTUV" (row_idx mod 20))
    as [row_letter [Hrow Hrget]].
  { simpl. apply Z.mod_pos_bound. lia. }
  exists letter, col_set, col_letter, row_letter. cbv zeta.
  split; [exact Hl |].
  split.
  { intros Hout. rewrite (utm_letter_out_of_range lat Hout) in Hl.
    now injection Hl. }
  split; [exact Hu |].
  split; [exact Hset |].
  split; [exact Hget |].
  split; [rewrite Hmod in Hrget; exact Hrget |].
  unfold lat_lon_to_mgrs. rewrite Hu. cbn [bind].
  fold zone. rewrite Hset. cbn [bind].
  rewrite mgrs_col_idx_clamped. fold col_idx. rewrite Hcol. cbn [bind].
  fold row_idx. rewrite Hrow. cbn [bind]. reflexivity.
Qed.

(** ** The great-circle projection *)

Lemma sin_period_Z (x : R) (k : Z) : sin (x + 2 * IZR k * PI) = sin x.
Proof.
  destruct (Z_le_gt_dec 0 k) as [Hk | Hk].
  - rewrite <- (Z2Nat.id k Hk), <- INR_IZR_INZ. apply sin_period.
  - rewrite <- (sin_period (x + 2 * IZR k * PI) (Z.to_nat (- k))).
    rewrite INR_IZR_INZ, Z2Nat.id by lia. rewrite opp_IZR.
    f_equal. ring.
Qed.

Lemma cos_period_Z (x : R) (k : Z) : cos (x + 2 * IZR k * PI) = cos x.
Proof.
  destruct (Z_le_gt_dec 0 k) as [Hk | Hk].
  - rewrite <- (Z2Nat.id k Hk), <- INR_IZR_INZ. apply cos_period.
  - rewrite <- (cos_period (x + 2 * IZR k * PI) (Z.to_nat (- k))).
    rewrite INR_IZR_INZ, Z2Nat.id by lia. rewrite opp_IZR.
    f_equal. ring.
Qed.


Lemma sin_cos_sqr (x : R) : sin x * sin x + cos x * cos x = 1.
Proof.
  pose proof (sin2_cos2 x) as H. unfold Rsqr in H. exact H.
Qed.

(** The argument of [asin] in [calc_endpoint_haversine] is a sine. *)
Lemma haversine_asin_arg_bound (lat1 delta brng : R) :
  -1 <= sin lat1 * cos delta + cos lat1 * sin delta * cos brng <= 1.
Proof.
  pose proof (sin_cos_sqr lat1) as H1.
  pose proof (sin_cos_sqr delta) as H2.
  pose proof (sin_cos_sqr brng) as H3.
  set (s := sin lat1) in *. set (c := cos lat1) in *.
  set (b := sin delta) in *. set (a := cos delta) in *.
  set (t := cos brng) in *. set (w := sin brng) in *.
  assert (Hu : (s * a + c * b * t) * (s * a + c * b * t) <= 1).
  { assert (Hcs : (s * a + c * (b * t)) * (s * a + c * (b * t))
                  = (s * s + c * c) * (a * a + (b * t) * (b * t))
                    - (s * (b * t) - c * a) * (s * (b * t) - c * a)) by ring.
    assert (Hsq : 0 <= (s * (b * t) - c * a) * (s * (b * t) - c * a))
      by apply Rle_0_sqr.
    assert (Hbt : (b * t) * (b * t) <= b * b).
    { assert (0 <= b * b * (w * w)) by
        (apply Rmult_le_pos; apply Rle_0_sqr).
      replace (b * b) with (b * b * (w * w + t * t)) by (rewrite H3; ring).
      lra. }
    replace (s * a + c * b * t) with (s * a + c * (b * t)) by ring.
    rewrite Hcs, H1. lra. }
  set (u := s * a + c * b * t) in *.
  split.
  - destruct (Rle_dec (-1) u) as [H | H]; [exact H |].
    assert (1 < (- u) * (- u)).
    { replace 1 with (1 * 1) by ring.
      apply Rmult_le_0_lt_compat; lra. }
    lra.
  - destruct (Rle_dec u 1) as [H | H]; [exact H |].
    assert (1 < u * u).
    { replace 1 with (1 * 1) by ring.
      apply Rmult_le_0_lt_compat; lra. }
    lra.
Qed.

Lemma calc_endpoint_haversine_returns (lat lon azimuth dist_km : R) :
  calc_endpoint_haversine exact lat lon azimuth dist_km
  = Returns (endpoint_lat lat azimuth dist_km,
             endpoint_lon lat lon azimuth dist_km).
Proof.
  unfold calc_endpoint_haversine, exact, py_asin.
  pose proof (haversine_asin_arg_bound (radians lat) (dist_km / 6371)
                (radians azimuth)) as [Hlo Hhi].
  destruct (Rle_dec _ _) as [_ | Hn]; [| contradiction].
  destruct (Rle_dec _ _) as [_ | Hn]; [| contradiction].
  reflexivity.
Qed.





(** ** [atan2], [radians], [degrees] *)

Lemma atan2_pos_x (y x : R) : 0 < x -> atan2 y x = atan (y / x).
Proof.
  intros H. unfold atan2. destruct (Rlt_dec 0 x); [reflexivity | contradiction].
Qed.

Lemma atan2_neg_x_neg_y (y x : R) :
  x < 0 -> y < 0 -> atan2 y x = atan (y / x) - PI.
Proof.
  intros Hx Hy. unfold atan2.
  destruct (Rlt_dec 0 x); [lra |].
  destruct (Rlt_dec x 0); [| contradiction].
  destruct (Rle_dec 0 y); [lra | reflexivity].
Qed.

Lemma atan2_x0_pos_y (y : R) : 0 < y -> atan2 y 0 = PI / 2.
Proof.
  intros Hy. unfold atan2.
  destruct (Rlt_dec 0 0); [lra |].
  destruct (Rlt_dec 0 y); [reflexivity | contradiction].
Qed.

Lemma atan2_0_0 : atan2 0 0 = 0.
Proof.
  unfold atan2.
  destruct (Rlt_dec 0 0); [lra | reflexivity].
Qed.

Lemma atan2_neg_y_bounds (y x : R) : y < 0 -> - PI < atan2 y x < 0.
Proof.
  intros Hy. pose proof PI_RGT_0 as Hpi. unfold atan2.
  destruct (Rlt_dec 0 x) as [Hx | Hx].
  - pose proof (atan_bound (y / x)) as Hb.
    assert (y / x < 0).
    { assert (0 < (- y) * / x)
        by (apply Rmult_lt_0_compat; [lra | now apply Rinv_0_lt_compat]).
      unfold Rdiv. lra. }
    assert (atan (y / x) < 0) by (rewrite <- atan_0; now apply atan_increasing).
    lra.
  - destruct (Rlt_dec x 0) as [Hx' | Hx'].
    + destruct (Rle_dec 0 y); [lra |].
      pose proof (atan_bound (y / x)) as Hb.
      assert (0 < y / x).
      { replace (y / x) with ((- y) * / (- x)) by (field; lra).
        apply Rmult_lt_0_compat; [lra | apply Rinv_0_lt_compat; lra]. }
      assert (0 < atan (y / x)) by (rewrite <- atan_0; now apply atan_increasing).
      lra.
    + destruct (Rlt_dec 0 y); [lra |].
      destruct (Rlt_dec y 0); [lra | contradiction].
Qed.

Lemma atan_pos (x : R) : 0 < x -> 0 < atan x < PI / 2.
Proof.
  intros H. pose proof (atan_bound x) as Hb.
  split; [| lra]. rewrite <- atan_0. now apply atan_increasing.
Qed.

Lemma degrees_radians (x : R) : degrees (radians x) = x.
Proof.
  unfold degrees, radians. field. apply PI_neq0.
Qed.

Lemma degrees_PI_frac (n d : R) : d <> 0 -> degrees (n * PI / d) = n * 180 / d.
Proof.
  intros H. unfold degrees. field. split; [exact H | apply PI_neq0].
Qed.

Lemma folded_diff_small (a b : R) :
  Rabs (a - b) <= PI -> folded_diff a b = Rabs (a - b).
Proof.
  intros H. unfold folded_diff.
  destruct (Rlt_dec PI (Rabs (a - b))); [lra | reflexivity].
Qed.

Lemma folded_diff_large (a b : R) :
  PI < Rabs (a - b) -> folded_diff a b = 2 * PI - Rabs (a - b).
Proof.
  intros H. unfold folded_diff.
  destruct (Rlt_dec PI (Rabs (a - b))); [reflexivity | contradiction].
Qed.

(** ** The pair routine *)

(** The pair routine once the two projections have returned. *)
Lemma pair_intersection_unfold (s1 s2 : Station) (d : R) :
  pair_intersection exact s1 s2 d
  = match line_intersection
            (lon s1, lat s1)
            (endpoint_lon (lat s1) (lon s1) (azimuth s1) d,
             endpoint_lat (lat s1) (azimuth s1) d)
            (lon s2, lat s2)
            (endpoint_lon (lat s2) (lon s2) (azimuth s2) d,
             endpoint_lat (lat s2) (azimuth s2) d) with
    | Some (int_lon, int_lat) =>
        if Rltb (folded_diff (atan2 (int_lon - lon s1) (int_lat - lat s1))
                             (radians (azimuth s1))) (PI / 2)
           && Rltb (folded_diff (atan2 (int_lon - lon s2) (int_lat - lat s2))
                                (radians (azimuth s2))) (PI / 2)
        then
          if Rleb (-90) int_lat && Rleb int_lat 90
             && Rleb (-180) int_lon && Rleb int_lon 180
          then Returns (Some (int_lat, int_lon))
          else Returns None
        else Returns None
    | None => Returns None
    end.
Proof.
  unfold pair_intersection.
  rewrite !calc_endpoint_haversine_returns. cbn [bind fst snd]. reflexivity.
Qed.

Lemma line_intersection_some (x1 y1 x2 y2 x3 y3 x4 y4 : R) :
  1 / 10000000000
  <= Rabs ((x1 - x2) * (y3 - y4) - (y1 - y2) * (x3 - x4)) ->
  line_intersection (x1, y1) (x2, y2) (x3, y3) (x4, y4)
  = Some (x1 + ((x1 - x3) * (y3 - y4) - (y1 - y3) * (x3 - x4))
               / ((x1 - x2) * (y3 - y4) - (y1 - y2) * (x3 - x4))
               * (x2 - x1),
          y1 + ((x1 - x3) * (y3 - y4) - (y1 - y3) * (x3 - x4))
               / ((x1 - x2) * (y3 - y4) - (y1 - y2) * (x3 - x4))
               * (y2 - y1)).
Proof.
  intros H. unfold line_intersection.
  destruct (Rlt_dec _ _) as [Hd | Hd]; [lra | reflexivity].
Qed.

(** The point a pair contributes lies on the line through each station
    and its projected endpoint, in the (lon, lat) plane. *)
Lemma line_intersection_on_lines (p1 p2 p3 p4 : R * R) (px py : R) :
  line_intersection p1 p2 p3 p4 = Some (px, py) ->
  (px - fst p1) * (snd p2 - snd p1) = (py - snd p1) * (fst p2 - fst p1)
  /\ (px - fst p3) * (snd p4 - snd p3) = (py - snd p3) * (fst p4 - fst p3).
Proof.
  destruct p1 as [x1 y1], p2 as [x2 y2], p3 as [x3 y3], p4 as [x4 y4].
  unfold line_intersection.
  destruct (Rlt_dec _ _) as [Hd | Hd]; [discriminate |].
  intros H. injection H as <- <-. cbn [fst snd].
  assert (Hne : (x1 - x2) * (y3 - y4) - (y1 - y2) * (x3 - x4) <> 0).
  { intros H0. rewrite H0, Rabs_R0 in Hd. lra. }
  split; field; exact Hne.
Qed.

(** ** Two stations on the equator *)

Lemma radians_0 : radians 0 = 0.
Proof. unfold radians. lra. Qed.

Lemma radians_45 : radians 45 = PI / 4.
Proof. unfold radians. lra. Qed.

Lemma asin_half : asin (1 / 2) = PI / 6.
Proof.
  rewrite <- sin_PI6. apply asin_sin.
  pose proof PI_RGT_0. lra.
Qed.

Lemma atan_inv_sqrt3 : atan (1 / sqrt 3) = PI / 6.
Proof.
  rewrite <- tan_PI6. apply atan_tan.
  pose proof PI_RGT_0. lra.
Qed.

Lemma sqrt2_sqr : sqrt 2 * sqrt 2 = 2.
Proof. apply sqrt_sqrt. lra. Qed.

Lemma sqrt3_sqr : sqrt 3 * sqrt 3 = 3.
Proof. apply sqrt_sqrt. lra. Qed.

Lemma inv_sqrt2_sqr : 1 / sqrt 2 * (1 / sqrt 2) = 1 / 2.
Proof.
  pose proof sqrt2_sqr as H. pose proof Rlt_sqrt2_0 as Hp.
  replace (1 / sqrt 2 * (1 / sqrt 2)) with (1 / (sqrt 2 * sqrt 2))
    by (field; lra).
  now rewrite H.
Qed.

Lemma lon_A_eighth_bounds : 30 < lon_A_eighth < 45.
Proof.
  pose proof sqrt2_sqr as H2. pose proof sqrt3_sqr as H3.
  pose proof Rlt_sqrt2_0 as Hp2. pose proof Rlt_sqrt3_0 as Hp3.
  pose proof PI_RGT_0 as Hpi.
  assert (Hlo : 1 / sqrt 3 < sqrt 2 / 2).
  { apply Rmult_lt_reg_r with (sqrt 3); [exact Hp3 |].
    replace (1 / sqrt 3 * sqrt 3) with 1 by (field; lra).
    assert (2 < sqrt 2 * sqrt 3); [| lra].
    destruct (Rlt_dec 2 (sqrt 2 * sqrt 3)) as [Hlt | Hge]; [exact Hlt |].
    assert (0 < sqrt 2 * sqrt 3) by now apply Rmult_lt_0_compat.
    assert ((sqrt 2 * sqrt 3) * (sqrt 2 * sqrt 3) <= 2 * 2)
      by (apply Rmult_le_compat; lra).
    replace ((sqrt 2 * sqrt 3) * (sqrt 2 * sqrt 3))
      with ((sqrt 2 * sqrt 2) * (sqrt 3 * sqrt 3)) in * by ring.
    rewrite H2, H3 in *. lra. }
  assert (Hhi : sqrt 2 / 2 < 1).
  { destruct (Rlt_dec (sqrt 2) 2) as [Hlt | Hge]; [lra |].
    assert (2 * 2 <= sqrt 2 * sqrt 2) by (apply Rmult_le_compat; lra).
    lra. }
  apply atan_increasing in Hlo. apply atan_increasing in Hhi.
  rewrite atan_inv_sqrt3 in Hlo. rewrite atan_1 in Hhi.
  unfold lon_A_eighth, degrees.
  assert (Hinv : 0 < / PI) by now apply Rinv_0_lt_compat.
  split.
  - replace 30 with (PI / 6 * 180 / PI) by (field; lra).
    apply Rmult_lt_compat_r; lra.
  - replace 45 with (PI / 4 * 180 / PI) by (field; lra).
    apply Rmult_lt_compat_r; lra.
Qed.

Lemma endpoint_A_quarter :
  endpoint_lat 0 45 (6371 * (PI / 2)) = 45
  /\ endpoint_lon 0 0 45 (6371 * (PI / 2)) = 90.
Proof.
  unfold endpoint_lat, endpoint_lon.
  replace (6371 * (PI / 2) / 6371) with (PI / 2) by field.
  rewrite radians_0, radians_45, sin_0, cos_0, sin_PI2, cos_PI2, cos_PI4,
    sin_PI4.
  pose proof Rlt_sqrt2_0 as Hp. pose proof PI_neq0 as Hpi.
  split.
  - replace (0 * 0 + 1 * 1 * (1 / sqrt 2)) with (/ sqrt 2) by (field; lra).
    rewrite asin_inv_sqrt2. unfold degrees. field. exact Hpi.
  - match goal with |- degrees (0 + atan2 ?y ?x) = _ =>
      replace x with 0 by ring; replace y with (1 / sqrt 2) by ring end.
    rewrite atan2_x0_pos_y.
    + unfold degrees. field. exact Hpi.
    + apply Rdiv_lt_0_compat; lra.
Qed.

Lemma endpoint_B_quarter :
  endpoint_lat 0 0 (6371 * (PI / 2)) = 90
  /\ endpoint_lon 0 10 0 (6371 * (PI / 2)) = 10.
Proof.
  unfold endpoint_lat, endpoint_lon.
  replace (6371 * (PI / 2) / 6371) with (PI / 2) by field.
  rewrite radians_0, sin_0, cos_0, sin_PI2, cos_PI2.
  pose proof PI_neq0 as Hpi.
  split.
  - replace (0 * 0 + 1 * 1 * 1) with 1 by ring.
    rewrite asin_1. unfold degrees. field. exact Hpi.
  - match goal with |- degrees (_ + atan2 ?y ?x) = _ =>
      replace x with 0 by ring; replace y with 0 by ring end.
    rewrite atan2_0_0, Rplus_0_r. apply degrees_radians.
Qed.

Lemma endpoint_A_eighth :
  endpoint_lat 0 45 (6371 * (PI / 4)) = 30
  /\ endpoint_lon 0 0 45 (6371 * (PI / 4)) = lon_A_eighth.
Proof.
  unfold endpoint_lat, endpoint_lon.
  replace (6371 * (PI / 4) / 6371) with (PI / 4) by field.
  rewrite radians_0, radians_45, sin_0, cos_0, cos_PI4, sin_PI4.
  pose proof Rlt_sqrt2_0 as Hp. pose proof PI_neq0 as Hpi.
  pose proof inv_sqrt2_sqr as Hh. pose proof sqrt2_sqr as H2.
  split.
  - replace (0 * (1 / sqrt 2) + 1 * (1 / sqrt 2) * (1 / sqrt 2))
      with (1 / 2) by lra.
    rewrite asin_half. unfold degrees. field. exact Hpi.
  - match goal with |- degrees (0 + atan2 ?y ?x) = _ =>
      replace x with (1 / sqrt 2) by ring; replace y with (1 / 2) by lra end.
    rewrite atan2_pos_x by (apply Rdiv_lt_0_compat; lra).
    rewrite Rplus_0_l. unfold lon_A_eighth. do 2 f_equal.
    apply Rmult_eq_reg_r with (2 * sqrt 2); [| lra].
    replace (1 / 2 / (1 / sqrt 2) * (2 * sqrt 2)) with (sqrt 2 * sqrt 2)
      by (field; lra).
    replace (sqrt 2 / 2 * (2 * sqrt 2)) with (sqrt 2 * sqrt 2) by field.
    reflexivity.
Qed.

Lemma endpoint_B_eighth :
  endpoint_lat 0 0 (6371 * (PI / 4)) = 45
  /\ endpoint_lon 0 10 0 (6371 * (PI / 4)) = 10.
Proof.
  unfold endpoint_lat, endpoint_lon.
  replace (6371 * (PI / 4) / 6371) with (PI / 4) by field.
  rewrite radians_0, sin_0, cos_0, cos_PI4, sin_PI4.
  pose proof Rlt_sqrt2_0 as Hp. pose proof PI_neq0 as Hpi.
  split.
  - replace (0 * (1 / sqrt 2) + 1 * (1 / sqrt 2) * 1) with (/ sqrt 2)
      by (field; lra).
    rewrite asin_inv_sqrt2. unfold degrees. field. exact Hpi.
  - match goal with |- degrees (_ + atan2 ?y ?x) = _ =>
      replace x with (1 / sqrt 2) by ring; replace y with 0 by ring end.
    rewrite atan2_pos_x by (apply Rdiv_lt_0_compat; lra).
    replace (0 / (1 / sqrt 2)) with 0 by (field; lra).
    rewrite atan_0, Rplus_0_r. apply degrees_radians.
Qed.

(** The point [station_A] and [station_B] contribute, from the
    endpoints projected at the distance [d]: the chord of [station_B]
    is the meridian of longitude 10. *)
Lemma pair_A_B_value (d la lo lb : R) :
  endpoint_lat 0 45 d = la -> endpoint_lon 0 0 45 d = lo ->
  endpoint_lat 0 0 d = lb -> endpoint_lon 0 10 0 d = 10 ->
  0 < la -> 1 <= lo -> 1 <= lb -> 10 * la <= 90 * lo ->
  pair_intersection exact station_A station_B d
  = Returns (Some (10 * la / lo, 10)).
Proof.
  intros Hla Hlo Hlb Hlob Pla Plo Plb Hle.
  rewrite pair_intersection_unfold. cbn [lat lon azimuth station_A station_B].
  rewrite Hla, Hlo, Hlb, Hlob.
  assert (Hprod : 1 <= lo * lb).
  { replace 1 with (1 * 1) by ring. apply Rmult_le_compat; lra. }
  assert (Hli : line_intersection (0, 0) (lo, la) (10, 0) (10, lb)
                = Some (10, 10 * la / lo)).
  { rewrite line_intersection_some.
    - f_equal. f_equal; field; lra.
    - replace ((0 - lo) * (0 - lb) - (0 - la) * (10 - 10)) with (lo * lb)
        by ring.
      rewrite Rabs_pos_eq; lra. }
  rewrite Hli. cbv beta iota.
  assert (Hpy : 0 < 10 * la / lo) by (apply Rdiv_lt_0_compat; lra).
  pose proof PI_RGT_0 as Hpi.
  (* station_A: the bearing to the point lies in the first quadrant *)
  rewrite !Rminus_0_r, radians_45, radians_0.
  rewrite (atan2_pos_x 10 (10 * la / lo)) by exact Hpy.
  assert (Hq : 0 < atan (10 / (10 * la / lo)) < PI / 2).
  { apply atan_pos. apply Rdiv_lt_0_compat; lra. }
  rewrite folded_diff_small by (apply Rabs_le; lra).
  rewrite Rltb_true by (apply Rabs_def1; lra).
  (* station_B: the point is due north *)
  replace (10 - 10) with 0 by ring.
  rewrite (atan2_pos_x 0 (10 * la / lo)) by exact Hpy.
  replace (0 / (10 * la / lo)) with 0 by (field; lra).
  rewrite atan_0, folded_diff_small
    by (rewrite Rminus_0_r, Rabs_R0; lra).
  rewrite Rminus_0_r, Rabs_R0, Rltb_true by lra.
  assert (Hle' : 10 * la / lo <= 90).
  { apply Rmult_le_reg_r with lo; [lra |].
    replace (10 * la / lo * lo) with (10 * la) by (field; lra). lra. }
  rewrite !Rleb_true by lra.
  reflexivity.
Qed.

Lemma pair_A_B_quarter :
  pair_intersection exact station_A station_B (6371 * (PI / 2))
  = Returns (Some (5, 10)).
Proof.
  destruct endpoint_A_quarter as [Hla Hlo].
  destruct endpoint_B_quarter as [Hlb Hlob].
  rewrite (pair_A_B_value _ 45 90 90 Hla Hlo Hlb Hlob) by lra.
  do 3 f_equal. field.
Qed.

Lemma pair_A_B_eighth :
  pair_intersection exact station_A station_B (6371 * (PI / 4))
  = Returns (Some (300 / lon_A_eighth, 10))
  /\ 300 / lon_A_eighth <> 5.
Proof.
  destruct endpoint_A_eighth as [Hla Hlo].
  destruct endpoint_B_eighth as [Hlb Hlob].
  pose proof lon_A_eighth_bounds as Hb.
  split.
  - rewrite (pair_A_B_value _ 30 lon_A_eighth 45 Hla Hlo Hlb Hlob) by lra.
    do 3 f_equal. field. lra.
  - intros H.
    assert (300 = 5 * lon_A_eighth); [| lra].
    rewrite <- H. field. lra.
Qed.

(** ** The pair routine and the projection distance *)

Lemma calculate_all_intersections_two (s1 s2 : Station) (d : R) :
  calculate_all_intersections exact [s1; s2] d
  = r <- pair_intersection exact s1 s2 d ;;
    Returns (match r with Some p => [p] | None => [] end).
Proof.
  cbn [calculate_all_intersections intersections_from].
  destruct (pair_intersection exact s1 s2 d) as [[p |] | e]; reflexivity.
Qed.

(** C5. The point returned depends on the projection distance:
    [station_A] and [station_B] cross validly at the two positive
    distances 6371 * PI / 2 and 6371 * PI / 4, and the routine returns
    two different points, (5, 10) and (300 / lon_A_eighth, 10), where
    the infinite-line intersection of the two bearings is one point. *)
Theorem intersection_depends_on_distance :
  0 < 6371 * (PI / 2) /\ 0 < 6371 * (PI / 4)
  /\ exists p1 p2,
       calculate_all_intersections exact [station_A; station_B]
         (6371 * (PI / 2))
       = Returns [p1]
       /\ calculate_all_intersections exact [station_A; station_B]
            (6371 * (PI / 4))
          = Returns [p2]
       /\ p1 <> p2.
Proof.
  pose proof PI_RGT_0 as Hpi.
  split; [lra |]. split; [lra |].
  destruct pair_A_B_eighth as [He Hne].
  exists (5, 10), (300 / lon_A_eighth, 10).
  rewrite !calculate_all_intersections_two, pair_A_B_quarter, He.
  cbn [bind]. split; [reflexivity |]. split; [reflexivity |].
  intros H. injection H as H. now apply Hne.
Qed.

(** The point returned, if any, lies on the two lines of the (lon, lat)
    plane through each station and its own endpoint projected at the
    given distance; it depends on the distance through the two
    endpoints. *)
Lemma pair_intersection_on_chord_lines (s1 s2 : Station) (d : R)
  (end1 end2 : R * R) (int_lat int_lon : R) :
  calc_endpoint_haversine exact (lat s1) (lon s1) (azimuth s1) d
  = Returns end1 ->
  calc_endpoint_haversine exact (lat s2) (lon s2) (azimuth s2) d
  = Returns end2 ->
  pair_intersection exact s1 s2 d = Returns (Some (int_lat, int_lon)) ->
  line_intersection (lon s1, lat s1) (snd end1, fst end1)
                    (lon s2, lat s2) (snd end2, fst end2)
  = Some (int_lon, int_lat)
  /\ (int_lon - lon s1) * (fst end1 - lat s1)
     = (int_lat - lat s1) * (snd end1 - lon s1)
  /\ (int_lon - lon s2) * (fst end2 - lat s2)
     = (int_lat - lat s2) * (snd end2 - lon s2).
Proof.
  intros H1 H2 Hp. unfold pair_intersection in Hp.
  rewrite H1, H2 in Hp. cbn [bind] in Hp.
  destruct (line_intersection (lon s1, lat s1) (snd end1, fst end1)
              (lon s2, lat s2) (snd end2, fst end2))
    as [[px py] |] eqn:Hli; [| discriminate].
  destruct (_ && _); [| discriminate].
  destruct (_ && _); [| discriminate].
  injection Hp as <- <-.
  split; [reflexivity |].
  apply line_intersection_on_lines in Hli. exact Hli.
Qed.


(** ** The fix for zero, one and two visible stations *)

(** C3. With fewer than two visible stations the fix computation returns
    no fix; with exactly two visible stations whose bearings validly
    cross at a point, it returns a fix made of that one point, with
    [point_count] 1 and radius exactly 0.5 km. *)
Theorem fix_degenerate_counts (stations : list Station) (d : R) :
  ((List.length (filter visible stations) < 2)%nat ->
   mission_intersection exact stations d = Returns None)
  /\ (forall s1 s2 p,
        filter visible stations = [s1; s2] ->
        pair_intersection exact s1 s2 d = Returns (Some p) ->
        exists fx,
          mission_intersection exact stations d = Returns (Some fx)
          /\ point_count fx = 1%nat
          /\ radius_km fx = 1 / 2
          /\ (center_lat fx, center_lon fx) = p).
Proof.
  split.
  - intros Hlen. unfold mission_intersection.
    destruct (Nat.leb_spec 2 (List.length (filter visible stations)));
      [lia | reflexivity].
  - intros s1 s2 p Hvis Hp. unfold mission_intersection.
    rewrite Hvis. cbn [List.length Nat.leb].
    rewrite calculate_all_intersections_two, Hp. cbn [bind].
    cbn [calculate_uncertainty_circle smallest_enclosing_circle].
    destruct (lat_lon_to_mgrs_total (fst p) (snd p))
      as (l & cs & cl & rl & _ & _ & Hm).
    cbv zeta in Hm. rewrite Hm. cbn [bind].
    eexists. split; [reflexivity |].
    cbn [point_count radius_km center_lat center_lon List.length].
    repeat split. now destruct p.
Qed.

Lemma fix_degenerate_counts_witness :
  mission_intersection exact [station_A] 100 = Returns None
  /\ exists fx,
       mission_intersection exact [station_A; station_B] (6371 * (PI / 2))
       = Returns (Some fx)
       /\ point_count fx = 1%nat
       /\ radius_km fx = 1 / 2
       /\ (center_lat fx, center_lon fx) = (5, 10).
Proof.
  split.
  - apply (proj1 (fix_degenerate_counts [station_A] 100)).
    cbn. lia.
  - apply (proj2 (fix_degenerate_counts [station_A; station_B]
                    (6371 * (PI / 2))) station_A station_B (5, 10)).
    + reflexivity.
    + exact pair_A_B_quarter.
Defined.

(** ** The enclosing circle *)

Lemma distance_km_nonneg (lat1 lon1 lat2 lon2 : R) :
  0 <= distance_km lat1 lon1 lat2 lon2.
Proof. unfold distance_km. apply sqrt_pos. Qed.

Lemma cover_step_ge (clat clon r : R) (p : R * R) :
  r <= cover_step clat clon r p
  /\ distance_km clat clon (fst p) (snd p) <= cover_step clat clon r p.
Proof.
  unfold cover_step. destruct (Rlt_dec _ _); lra.
Qed.

Lemma cover_fold_ge (clat clon : R) (points : list (R * R)) (r : R) :
  r <= fold_left (cover_step clat clon) points r.
Proof.
  revert r. induction points as [| q points IH]; intros r; cbn [fold_left].
  - lra.
  - pose proof (cover_step_ge clat clon r q) as [H _].
    specialize (IH (cover_step clat clon r q)). lra.
Qed.

(** The closing pass leaves every point within the radius. *)
Lemma cover_fold_encloses (clat clon : R) (points : list (R * R)) (r : R)
  (p : R * R) :
  In p points ->
  distance_km clat clon (fst p) (snd p)
  <= fold_left (cover_step clat clon) points r.
Proof.
  revert r. induction points as [| q points IH]; intros r Hin;
    cbn [fold_left].
  - destruct Hin.
  - destruct Hin as [-> | Hin].
    + pose proof (cover_step_ge clat clon r p) as [_ H].
      pose proof (cover_fold_ge clat clon points (cover_step clat clon r p)).
      lra.
    + now apply IH.
Qed.

(** The branches for one point and for three points or more enclose
    every input point, in the metric [distance_km]. *)
Lemma smallest_enclosing_circle_encloses_1_3 (points : list (R * R))
  (p : R * R) :
  List.length points <> 2%nat -> In p points ->
  let '(clat, clon, r) := smallest_enclosing_circle points in
  distance_km clat clon (fst p) (snd p) <= r.
Proof.
  intros Hlen Hin.
  destruct points as [| p0 [| p1 [| p2 rest]]].
  - destruct Hin.
  - destruct Hin as [<- | []]. cbn [smallest_enclosing_circle].
    unfold distance_km.
    replace (((fst p0 - fst p0) * 111) ^ 2
             + ((snd p0 - snd p0) * 111
                * cos (radians ((fst p0 + fst p0) / 2))) ^ 2)
      with 0 by ring.
    rewrite sqrt_0. lra.
  - now contradict Hlen.
  - cbn [smallest_enclosing_circle].
    set (points := p0 :: p1 :: p2 :: rest) in *.
    destruct (farthest_pair points (0, p0, p1)) as [[max_dist q1] q2].
    match goal with |- context [fold_left grow_step points ?st] =>
      destruct (fold_left grow_step points st) as [[clat clon] radius] end.
    pose proof (cover_fold_encloses clat clon points radius p Hin) as H.
    pose proof (Rmax_l (fold_left (cover_step clat clon) points radius) (1 / 2)).
    lra.
Qed.

(** The branch for two points encloses the first of them. *)
Lemma smallest_enclosing_circle_two_first (p1 p2 : R * R) :
  let '(clat, clon, r) := smallest_enclosing_circle [p1; p2] in
  distance_km clat clon (fst p1) (snd p1) <= r.
Proof.
  cbn [smallest_enclosing_circle]. apply Rmax_l.
Qed.

Lemma radians_30 : radians 30 = PI / 6.
Proof. unfold radians. lra. Qed.

Lemma sqrt_between (x lo hi : R) :
  0 <= lo -> 0 <= hi -> lo * lo <= x <= hi * hi -> lo <= sqrt x <= hi.
Proof.
  intros Hlo Hhi [H1 H2].
  rewrite <- (sqrt_square lo Hlo), <- (sqrt_square hi Hhi).
  split; apply sqrt_le_1_alt; assumption.
Qed.

(** C2 fails on the code in the branch for two points: for the points
    (52.5, 0) and (22.5, 10) the circle returned has its center at
    (37.5, 5) and a radius below 1711 km, and the second point is more
    than 1732 km from the center. *)
Theorem smallest_enclosing_circle_two_points_gap :
  let '(clat, clon, r) :=
    smallest_enclosing_circle [(105 / 2, 0); (45 / 2, 10)] in
  clat = 75 / 2 /\ clon = 5 /\ r <= 1711
  /\ 1732 <= distance_km clat clon (45 / 2) 10.
Proof.
  cbn [smallest_enclosing_circle fst snd].
  pose proof sqrt2_sqr as H2. pose proof sqrt3_sqr as H3.
  pose proof Rlt_sqrt2_0 as Hp2.
  split; [lra |]. split; [lra |].
  unfold distance_km.
  replace (radians (((105 / 2 + 45 / 2) / 2 + 105 / 2) / 2)) with (PI / 4)
    by (unfold radians; lra).
  replace (radians (((105 / 2 + 45 / 2) / 2 + 45 / 2) / 2)) with (PI / 6)
    by (unfold radians; lra).
  rewrite cos_PI4, cos_PI6.
  split.
  - apply Rmax_lub; [| lra].
    refine (proj2 (sqrt_between _ 0 1711 _ _ _)); [lra | lra |].
    replace (((105 / 2 - (105 / 2 + 45 / 2) / 2) * 111) ^ 2
             + ((0 - (0 + 10) / 2) * 111 * (1 / sqrt 2)) ^ 2)
      with (2772225 + 308025 * (1 / sqrt 2 * (1 / sqrt 2))) by (field; lra).
    rewrite inv_sqrt2_sqr. lra.
  - refine (proj1 (sqrt_between _ 1732 2000 _ _ _)); [lra | lra |].
    replace (((45 / 2 - (105 / 2 + 45 / 2) / 2) * 111) ^ 2
             + ((10 - (0 + 10) / 2) * 111 * (sqrt 3 / 2)) ^ 2)
      with (2772225 + 308025 / 4 * (sqrt 3 * sqrt 3)) by field.
    rewrite H3. lra.
Qed.

(** ** The direction test *)

Lemma py_fmod_shift (x m : R) (k : Z) :
  0 < m -> IZR k * m <= x < (IZR k + 1) * m ->
  py_fmod x m = x - m * IZR k.
Proof.
  intros Hm [Hlo Hhi]. unfold py_fmod.
  rewrite (Zfloor_eq k); [reflexivity |].
  assert (Hx : x = x / m * m) by (field; lra).
  split.
  - apply Rmult_le_reg_r with m; [exact Hm | lra].
  - apply Rmult_lt_reg_r with m; [exact Hm | lra].
Qed.

(** The test of the source is the deviation of the spec as long as the
    two directions are at most a full turn apart. *)
Lemma folded_diff_is_deviation (a b : R) :
  Rabs (a - b) <= 2 * PI -> folded_diff a b = angular_deviation a b.
Proof.
  intros H. pose proof PI_RGT_0 as Hpi.
  pose proof (Rabs_pos (a - b)) as H0.
  unfold folded_diff, angular_deviation.
  destruct (Rle_lt_or_eq_dec _ _ H) as [Hlt | Heq].
  - rewrite (py_fmod_shift _ _ 0) by (simpl; lra).
    simpl. rewrite Rmult_0_r, Rminus_0_r. reflexivity.
  - rewrite (py_fmod_shift _ _ 1) by (simpl; lra).
    rewrite Heq. simpl.
    destruct (Rlt_dec PI (2 * PI)); [| lra].
    destruct (Rlt_dec PI (2 * PI - 2 * PI * 1)); lra.
Qed.

(** Beyond a full turn the test of the source is the opposite of the
    deviation. *)
Lemma folded_diff_beyond_turn (a b : R) :
  2 * PI < Rabs (a - b) < 3 * PI ->
  folded_diff a b = - angular_deviation a b
  /\ angular_deviation a b = Rabs (a - b) - 2 * PI.
Proof.
  intros [Hlo Hhi]. pose proof PI_RGT_0 as Hpi.
  unfold folded_diff, angular_deviation.
  rewrite (py_fmod_shift _ _ 1) by (simpl; lra).
  destruct (Rlt_dec PI (Rabs (a - b))); [| lra].
  destruct (Rlt_dec PI (Rabs (a - b) - 2 * PI * 1)); lra.
Qed.

(** A point the pair routine returns has passed the test of the source
    for both stations. *)
Lemma pair_intersection_passes_test (s1 s2 : Station) (d : R)
  (int_lat int_lon : R) :
  pair_intersection exact s1 s2 d = Returns (Some (int_lat, int_lon)) ->
  folded_diff (atan2 (int_lon - lon s1) (int_lat - lat s1))
              (radians (azimuth s1)) < PI / 2
  /\ folded_diff (atan2 (int_lon - lon s2) (int_lat - lat s2))
                 (radians (azimuth s2)) < PI / 2.
Proof.
  rewrite pair_intersection_unfold.
  destruct (line_intersection _ _ _ _) as [[px py] |]; [| discriminate].
  unfold Rltb.
  destruct (Rlt_dec _ _) as [H1 | H1]; cbn [andb]; [| discriminate].
  destruct (Rlt_dec _ _) as [H2 | H2]; [| discriminate].
  destruct (_ && _); [| discriminate].
  intros H. injection H as <- <-. split; assumption.
Qed.

(** Hence the claim holds for a station whose azimuth, in radians, is
    at most a full turn away from the bearing to the point. *)
Lemma direction_test_sound_within_turn (s1 s2 : Station) (d : R)
  (int_lat int_lon : R) :
  pair_intersection exact s1 s2 d = Returns (Some (int_lat, int_lon)) ->
  Rabs (atan2 (int_lon - lon s1) (int_lat - lat s1) - radians (azimuth s1))
  <= 2 * PI ->
  angular_deviation (atan2 (int_lon - lon s1) (int_lat - lat s1))
                    (radians (azimuth s1)) < PI / 2.
Proof.
  intros Hp Hturn.
  destruct (pair_intersection_passes_test s1 s2 d int_lat int_lon Hp)
    as [H1 _].
  now rewrite <- folded_diff_is_deviation.
Qed.

Lemma sqrt2_sqrt3_lower : 12 / 5 <= sqrt 2 * sqrt 3.
Proof.
  pose proof sqrt2_sqr as H2. pose proof sqrt3_sqr as H3.
  pose proof Rlt_sqrt2_0 as Hp2. pose proof Rlt_sqrt3_0 as Hp3.
  destruct (Rle_dec (12 / 5) (sqrt 2 * sqrt 3)) as [H | H]; [exact H |].
  assert (0 < sqrt 2 * sqrt 3) by now apply Rmult_lt_0_compat.
  assert ((sqrt 2 * sqrt 3) * (sqrt 2 * sqrt 3) <= 12 / 5 * (12 / 5))
    by (apply Rmult_le_compat; lra).
  replace ((sqrt 2 * sqrt 3) * (sqrt 2 * sqrt 3))
    with ((sqrt 2 * sqrt 2) * (sqrt 3 * sqrt 3)) in * by ring.
  rewrite H2, H3 in *. lra.
Qed.

Lemma sqrt3_lower : 12 / 7 < sqrt 3.
Proof.
  pose proof sqrt3_sqr as H3. pose proof Rlt_sqrt3_0 as Hp3.
  destruct (Rlt_dec (12 / 7) (sqrt 3)) as [H | H]; [exact H |].
  assert (sqrt 3 * sqrt 3 <= 12 / 7 * (12 / 7))
    by (apply Rmult_le_compat; lra).
  lra.
Qed.

Lemma atan_sqrt3 : atan (sqrt 3) = PI / 3.
Proof.
  rewrite <- tan_PI3. apply atan_tan.
  pose proof PI_RGT_0. lra.
Qed.

Lemma asin_le_neg_PI4 (u : R) :
  -1 <= u <= - (1 / sqrt 2) -> asin u <= - (PI / 4).
Proof.
  intros [Hlo Hhi]. pose proof PI_RGT_0 as Hpi.
  pose proof Rlt_sqrt2_0 as Hp2.
  assert (Hu1 : u <= 1).
  { assert (0 < 1 / sqrt 2) by (apply Rdiv_lt_0_compat; lra). lra. }
  pose proof (asin_bound u) as Hb.
  destruct (Rle_dec (asin u) (- (PI / 4))) as [H | H]; [exact H |].
  assert (Hs : sin (- (PI / 4)) < sin (asin u))
    by (apply sin_increasing_1; lra).
  rewrite sin_neg, sin_PI4, sin_asin in Hs by lra. lra.
Qed.

Lemma radians_60 : radians 60 = PI / 3.
Proof. unfold radians. lra. Qed.

Lemma radians_90 : radians 90 = PI / 2.
Proof. unfold radians. lra. Qed.

Lemma radians_330 : radians 330 = - (PI / 6) + 2 * IZR 1 * PI.
Proof. unfold radians. lra. Qed.

Lemma cos_330 : cos (radians 330) = sqrt 3 / 2.
Proof. now rewrite radians_330, cos_period_Z, cos_neg, cos_PI6. Qed.

Lemma sin_330 : sin (radians 330) = - (1 / 2).
Proof. now rewrite radians_330, sin_period_Z, sin_neg, sin_PI6. Qed.

Lemma cos_long_arc : cos long_arc = - (40 / 41).
Proof. unfold long_arc. apply cos_acos. lra. Qed.

Lemma sin_long_arc : sin long_arc = 9 / 41.
Proof.
  unfold long_arc. rewrite sin_acos by lra.
  replace (1 - Rsqr (- (40 / 41))) with (9 / 41 * (9 / 41))
    by (unfold Rsqr; field).
  apply sqrt_square. lra.
Qed.

Lemma long_arc_pos : 0 < 6371 * long_arc.
Proof.
  unfold long_arc. pose proof (acos_bound (- (40 / 41))) as [H _].
  destruct H as [H | H]; [lra |].
  pose proof cos_long_arc as Hc. unfold long_arc in Hc.
  rewrite <- H, cos_0 in Hc. lra.
Qed.

Lemma endpoint_N_long :
  endpoint_lat 60 330 (6371 * long_arc) <= -45
  /\ -180 < endpoint_lon 60 0 330 (6371 * long_arc) < 0.
Proof.
  unfold endpoint_lat, endpoint_lon.
  replace (6371 * long_arc / 6371) with long_arc by field.
  rewrite radians_60, radians_0, cos_330, sin_330, sin_PI3, cos_PI3,
    cos_long_arc, sin_long_arc.
  pose proof PI_RGT_0 as Hpi. pose proof Rlt_sqrt2_0 as Hp2.
  pose proof Rlt_sqrt3_0 as Hp3. pose proof sqrt2_sqrt3_lower as H6.
  assert (Hinv : 0 < / PI) by now apply Rinv_0_lt_compat.
  split.
  - replace (sqrt 3 / 2 * - (40 / 41) + 1 / 2 * (9 / 41) * (sqrt 3 / 2))
      with (- (71 / 164 * sqrt 3)) by field.
    assert (Hu : -1 <= - (71 / 164 * sqrt 3) <= - (1 / sqrt 2)).
    { split.
      - pose proof sqrt3_sqr as H3.
        assert (sqrt 3 <= 2); [| lra].
        destruct (Rle_dec (sqrt 3) 2) as [H | H]; [exact H |].
        assert (2 * 2 <= sqrt 3 * sqrt 3) by (apply Rmult_le_compat; lra).
        lra.
      - apply Ropp_le_contravar.
        apply Rmult_le_reg_r with (sqrt 2); [exact Hp2 |].
        replace (1 / sqrt 2 * sqrt 2) with 1 by (field; lra).
        lra. }
    apply asin_le_neg_PI4 in Hu.
    unfold degrees.
    replace (-45) with (- (PI / 4) * 180 * / PI) by (field; lra).
    unfold Rdiv at 1.
    apply Rmult_le_compat_r; lra.
  - match goal with |- _ < degrees (0 + atan2 ?y ?x) < _ =>
      pose proof (atan2_neg_y_bounds y x) as Hb end.
    lapply Hb; [clear Hb; intros Hb | lra].
    rewrite Rplus_0_l. unfold degrees.
    split.
    + replace (-180) with (- PI * 180 * / PI) by (field; lra).
      unfold Rdiv. apply Rmult_lt_compat_r; lra.
    + replace 0 with (0 * 180 * / PI) by ring.
      unfold Rdiv. apply Rmult_lt_compat_r; lra.
Qed.

Lemma endpoint_E_long :
  endpoint_lat 0 90 (6371 * long_arc) = 0
  /\ -20 < endpoint_lon 0 (-110) 90 (6371 * long_arc).
Proof.
  unfold endpoint_lat, endpoint_lon.
  replace (6371 * long_arc / 6371) with long_arc by field.
  rewrite radians_0, radians_90, sin_0, cos_0, sin_PI2, cos_PI2,
    cos_long_arc, sin_long_arc.
  pose proof PI_RGT_0 as Hpi.
  assert (Hinv : 0 < / PI) by now apply Rinv_0_lt_compat.
  split.
  - replace (0 * - (40 / 41) + 1 * (9 / 41) * 0) with 0 by ring.
    rewrite asin_0. unfold degrees. field. lra.
  - match goal with |- _ < degrees (_ + atan2 ?y ?x) =>
      replace y with (9 / 41) by ring; replace x with (- (40 / 41)) by ring
    end.
    unfold atan2.
    destruct (Rlt_dec 0 (- (40 / 41))); [lra |].
    destruct (Rlt_dec (- (40 / 41)) 0); [| lra].
    destruct (Rle_dec 0 (9 / 41)); [| lra].
    pose proof (atan_bound (9 / 41 / - (40 / 41))) as Hb.
    unfold degrees, radians.
    replace (-20) with ((-110 * PI / 180 + PI / 2) * 180 * / PI)
      by (field; lra).
    unfold Rdiv. apply Rmult_lt_compat_r; lra.
Qed.

(** The point [station_N] and [station_E] contribute at the distance
    [6371 * long_arc]: it lies on the equator, south-west of
    [station_N], more than 120 degrees west of north. *)
Lemma pair_N_E_long :
  exists int_lon,
    pair_intersection exact station_N station_E (6371 * long_arc)
    = Returns (Some (0, int_lon))
    /\ - PI < atan2 (int_lon - lon station_N) (0 - lat station_N)
       < - (2 * (PI / 3)).
Proof.
  destruct endpoint_N_long as [Hla [Hlo1 Hlo2]].
  destruct endpoint_E_long as [Hlb Hlob].
  set (d := 6371 * long_arc) in *.
  set (la := endpoint_lat 60 330 d) in *.
  set (lo := endpoint_lon 60 0 330 d) in *.
  set (lo2 := endpoint_lon 0 (-110) 90 d) in *.
  pose proof PI_RGT_0 as Hpi.
  assert (Hden : 0 < 60 - la) by lra.
  set (px := 60 * lo / (60 - la)).
  assert (Hpx : - (720 / 7) < px < 0).
  { unfold px. split.
    - apply Rmult_lt_reg_r with (60 - la); [exact Hden |].
      replace (60 * lo / (60 - la) * (60 - la)) with (60 * lo)
        by (field; lra).
      assert (720 / 7 * 105 <= 720 / 7 * (60 - la))
        by (apply Rmult_le_compat_l; lra).
      lra.
    - assert (0 < (- (60 * lo)) * / (60 - la))
        by (apply Rmult_lt_0_compat; [lra | now apply Rinv_0_lt_compat]).
      unfold Rdiv. lra. }
  assert (Hdir : - PI < atan2 (px - 0) (0 - 60) < - (2 * (PI / 3))).
  { rewrite atan2_neg_x_neg_y by lra.
    assert (Hq : 0 < (px - 0) / (0 - 60) < sqrt 3).
    { replace ((px - 0) / (0 - 60)) with (- px / 60) by (field; lra).
      pose proof sqrt3_lower. lra. }
    destruct Hq as [Hq1 Hq2].
    apply atan_increasing in Hq1. apply atan_increasing in Hq2.
    rewrite atan_0 in Hq1. rewrite atan_sqrt3 in Hq2. lra. }
  exists px. split; [| exact Hdir].
  rewrite pair_intersection_unfold.
  cbn [lat lon azimuth station_N station_E].
  fold d la lo lo2. rewrite Hlb.
  assert (Hli : line_intersection (0, 60) (lo, la) (-110, 0) (lo2, 0)
                = Some (px, 0)).
  { rewrite line_intersection_some.
    - unfold px. f_equal. f_equal; field; lra.
    - replace ((0 - lo) * (0 - 0) - (60 - la) * (-110 - lo2))
        with ((60 - la) * (110 + lo2)) by ring.
      assert (1 * 1 <= (60 - la) * (110 + lo2))
        by (apply Rmult_le_compat; lra).
      rewrite Rabs_pos_eq; lra. }
  rewrite Hli. cbv beta iota.
  (* station_N: the folded difference is negative *)
  rewrite radians_330.
  assert (Hraw : 5 * (PI / 2)
                 < Rabs (atan2 (px - 0) (0 - 60)
                         - (- (PI / 6) + 2 * IZR 1 * PI))
                 < 3 * PI).
  { rewrite Rabs_left by lra. lra. }
  rewrite folded_diff_large by lra.
  rewrite Rltb_true by lra.
  (* station_E: the point is due east *)
  replace (0 - 0) with 0 by ring.
  rewrite atan2_x0_pos_y, radians_90 by lra.
  rewrite folded_diff_small by (rewrite Rminus_diag, Rabs_R0; lra).
  rewrite Rminus_diag, Rabs_R0, Rltb_true by lra.
  rewrite !Rleb_true by lra.
  reflexivity.
Qed.

(** C1 fails on the code: for [station_N] and [station_E] the routine
    returns a point although the deviation, wrap-normalized into
    [[0, PI]], between the azimuth of [station_N] and the bearing from
    [station_N] to that point exceeds 90 degrees. *)
Theorem direction_test_accepts_wide_deviation :
  exists int_lat int_lon,
    calculate_all_intersections exact [station_N; station_E] (6371 * long_arc)
    = Returns [(int_lat, int_lon)]
    /\ PI / 2
       < angular_deviation
           (atan2 (int_lon - lon station_N) (int_lat - lat station_N))
           (radians (azimuth station_N)).
Proof.
  destruct pair_N_E_long as [px [Hp Hdir]].
  exists 0, px. split.
  - rewrite calculate_all_intersections_two, Hp. reflexivity.
  - pose proof PI_RGT_0 as Hpi.
    cbn [azimuth station_N]. rewrite radians_330.
    set (a := atan2 _ _) in *.
    assert (Hraw : Rabs (a - (- (PI / 6) + 2 * IZR 1 * PI))
                   = - (a - (- (PI / 6) + 2 * IZR 1 * PI)))
      by (apply Rabs_left; lra).
    destruct (folded_diff_beyond_turn a (- (PI / 6) + 2 * IZR 1 * PI))
      as [_ Hdev]; [rewrite Hraw; lra |].
    rewrite Hdev, Hraw. lra.
Qed.

(** ** Soundness of the rational enclosures *)

Lemma Q2R_inject_Z (z : Z) : Q2R (inject_Z z) = IZR z.
Proof. unfold Q2R, inject_Z. simpl. field. Qed.

Lemma Q2R_make (z : Z) (p : positive) : Q2R (z # p) = IZR z / IZR (Zpos p).
Proof. reflexivity. Qed.

Lemma IZR_pos_gt_0 (p : positive) : 0 < IZR (Zpos p).
Proof. apply IZR_lt. lia. Qed.

Lemma round_down_to_le (g : positive) (q : Q) :
  Q2R (round_down_to g q) <= Q2R q.
Proof.
  unfold round_down_to. rewrite Q2R_make.
  pose proof (IZR_pos_gt_0 g) as Hg.
  pose proof (Qle_Rle _ _ (Qfloor_le (q * inject_Z (Zpos g)))) as H.
  rewrite Q2R_inject_Z, Q2R_mult, Q2R_inject_Z in H.
  apply Rmult_le_reg_r with (IZR (Zpos g)); [exact Hg |].
  replace (IZR (Qfloor (q * inject_Z (Zpos g))) / IZR (Zpos g) * IZR (Zpos g))
    with (IZR (Qfloor (q * inject_Z (Zpos g)))) by (field; lra).
  exact H.
Qed.

Lemma round_up_to_ge (g : positive) (q : Q) :
  Q2R q <= Q2R (round_up_to g q).
Proof.
  unfold round_up_to. rewrite Q2R_make.
  pose proof (IZR_pos_gt_0 g) as Hg.
  pose proof (Qle_Rle _ _ (Qle_ceiling (q * inject_Z (Zpos g)))) as H.
  rewrite Q2R_inject_Z, Q2R_mult, Q2R_inject_Z in H.
  apply Rmult_le_reg_r with (IZR (Zpos g)); [exact Hg |].
  replace (IZR (Qceiling (q * inject_Z (Zpos g))) / IZR (Zpos g)
           * IZR (Zpos g))
    with (IZR (Qceiling (q * inject_Z (Zpos g)))) by (field; lra).
  exact H.
Qed.

Lemma round_down_le (q : Q) : Q2R (round_down q) <= Q2R q.
Proof. apply round_down_to_le. Qed.

Lemma round_up_ge (q : Q) : Q2R q <= Q2R (round_up q).
Proof. apply round_up_to_ge. Qed.

Lemma outward_sound (l u : Q) (x : R) :
  Q2R l <= x <= Q2R u -> encloses (outward l u) x.
Proof.
  intros [H1 H2]. unfold outward. cbn [encloses lower upper].
  pose proof (round_down_le l). pose proof (round_up_ge u). lra.
Qed.

Lemma ipoint_sound (z : Z) : encloses (ipoint (inject_Z z)) (IZR z).
Proof. cbn. rewrite Q2R_inject_Z. lra. Qed.

Lemma iadd_sound (a b : bound) (x y : R) :
  encloses a x -> encloses b y -> encloses (iadd a b) (x + y).
Proof.
  destruct a as [i |], b as [j |]; cbn [iadd encloses]; trivial.
  intros Hx Hy. apply outward_sound. rewrite !Q2R_plus. lra.
Qed.

Lemma iopp_sound (a : bound) (x : R) :
  encloses a x -> encloses (iopp a) (- x).
Proof.
  destruct a as [i |]; cbn; trivial.
  intros Hx. rewrite !Q2R_opp. lra.
Qed.

Lemma isub_sound (a b : bound) (x y : R) :
  encloses a x -> encloses b y -> encloses (isub a b) (x - y).
Proof.
  intros Hx Hy. unfold isub, Rminus.
  apply iadd_sound; [exact Hx | now apply iopp_sound].
Qed.

Lemma qmin_le (p q : Q) : Q2R (qmin p q) <= Q2R p /\ Q2R (qmin p q) <= Q2R q.
Proof.
  unfold qmin. destruct (Qle_bool p q) eqn:E.
  - apply Qle_bool_iff, Qle_Rle in E. lra.
  - assert (H : (q <= p)%Q).
    { destruct (Qlt_le_dec p q) as [Hlt | Hle]; [| exact Hle].
      apply Qlt_le_weak, Qle_bool_iff in Hlt. congruence. }
    apply Qle_Rle in H. lra.
Qed.

Lemma qmax_ge (p q : Q) : Q2R p <= Q2R (qmax p q) /\ Q2R q <= Q2R (qmax p q).
Proof.
  unfold qmax. destruct (Qle_bool p q) eqn:E.
  - apply Qle_bool_iff, Qle_Rle in E. lra.
  - assert (H : (q <= p)%Q).
    { destruct (Qlt_le_dec p q) as [Hlt | Hle]; [| exact Hle].
      apply Qlt_le_weak, Qle_bool_iff in Hlt. congruence. }
    apply Qle_Rle in H. lra.
Qed.

Lemma product_above_corner (a b c d x y : R) :
  a <= x <= b -> c <= y <= d ->
  a * c <= x * y \/ a * d <= x * y \/ b * c <= x * y \/ b * d <= x * y.
Proof.
  intros [Ha Hb] [Hc Hd].
  destruct (Rle_dec 0 y) as [Hy | Hy].
  - (* x * y >= a * y *)
    assert (a * y <= x * y) by (apply Rmult_le_compat_r; lra).
    destruct (Rle_dec 0 a) as [Hsa | Hsa].
    + left. assert (a * c <= a * y) by (apply Rmult_le_compat_l; lra). lra.
    + right. left.
      assert ((- a) * y <= (- a) * d) by (apply Rmult_le_compat_l; lra). lra.
  - (* x * y >= b * y *)
    assert ((- y) * x <= (- y) * b) by (apply Rmult_le_compat_l; lra).
    destruct (Rle_dec 0 b) as [Hsb | Hsb].
    + right. right. left.
      assert (b * c <= b * y) by (apply Rmult_le_compat_l; lra). lra.
    + right. right. right.
      assert ((- b) * y <= (- b) * d) by (apply Rmult_le_compat_l; lra). lra.
Qed.

Lemma product_below_corner (a b c d x y : R) :
  a <= x <= b -> c <= y <= d ->
  x * y <= a * c \/ x * y <= a * d \/ x * y <= b * c \/ x * y <= b * d.
Proof.
  intros Hx Hy.
  destruct (product_above_corner a b (- d) (- c) x (- y) Hx) as [H | [H | [H | H]]];
    [lra | | | |].
  - right. left. lra.
  - left. lra.
  - right. right. right. lra.
  - right. right. left. lra.
Qed.

Lemma imul_sound (a b : bound) (x y : R) :
  encloses a x -> encloses b y -> encloses (imul a b) (x * y).
Proof.
  destruct a as [i |], b as [j |]; cbn [imul encloses]; trivial.
  intros Hx Hy. apply outward_sound.
  set (p1 := (lower i * lower j)%Q). set (p2 := (lower i * upper j)%Q).
  set (p3 := (upper i * lower j)%Q). set (p4 := (upper i * upper j)%Q).
  pose proof (qmin_le (qmin p1 p2) (qmin p3 p4)) as [M1 M2].
  pose proof (qmin_le p1 p2) as [M3 M4]. pose proof (qmin_le p3 p4) as [M5 M6].
  pose proof (qmax_ge (qmax p1 p2) (qmax p3 p4)) as [N1 N2].
  pose proof (qmax_ge p1 p2) as [N3 N4]. pose proof (qmax_ge p3 p4) as [N5 N6].
  unfold p1, p2, p3, p4 in *. rewrite !Q2R_mult in *.
  split.
  - destruct (product_above_corner _ _ _ _ x y Hx Hy) as [H | [H | [H | H]]]; lra.
  - destruct (product_below_corner _ _ _ _ x y Hx Hy) as [H | [H | [H | H]]]; lra.
Qed.

Lemma Qlt_bool_Rlt (p q : Q) : Qlt_bool p q = true -> Q2R p < Q2R q.
Proof.
  unfold Qlt_bool. intros H. apply negb_true_iff in H.
  apply Qlt_Rlt. destruct (Qlt_le_dec p q) as [Hlt | Hle]; [exact Hlt |].
  apply Qle_bool_iff in Hle. congruence.
Qed.

Lemma Qle_bool_Rle (p q : Q) : Qle_bool p q = true -> Q2R p <= Q2R q.
Proof. intros H. now apply Qle_Rle, Qle_bool_iff. Qed.

Lemma Q2R_0 : Q2R 0 = 0.
Proof. unfold Q2R. simpl. lra. Qed.

Lemma Q2R_pos_inv (q : Q) : 0 < Q2R q -> Q2R (/ q) = / Q2R q.
Proof.
  intros H. apply Q2R_inv. intros E. apply Qeq_eqR in E.
  rewrite Q2R_0 in E. lra.
Qed.

Lemma iinv_sound (a : bound) (x : R) :
  encloses a x -> encloses (iinv a) (/ x).
Proof.
  destruct a as [i |]; cbn [iinv encloses]; trivial.
  intros [Hl Hu].
  destruct (Qlt_bool 0 (lower i)) eqn:E1; cbn [andb]; [| exact I].
  destruct (Qlt_bool 0 (upper i)) eqn:E2; [| exact I].
  apply Qlt_bool_Rlt in E1, E2. rewrite Q2R_0 in E1, E2.
  apply outward_sound. rewrite !Q2R_pos_inv by assumption.
  split; apply Rinv_le_contravar; lra.
Qed.

Lemma idiv_sound (a b : bound) (x y : R) :
  encloses a x -> encloses b y -> encloses (idiv a b) (x / y).
Proof.
  intros Hx Hy. unfold idiv, Rdiv.
  apply imul_sound; [exact Hx | now apply iinv_sound].
Qed.

Lemma ipow_sound (a : bound) (x : R) (n : nat) :
  encloses a x -> encloses (ipow a n) (x ^ n).
Proof.
  intros Hx. induction n as [| n IH]; cbn [ipow pow].
  - cbn. unfold Q2R. simpl. lra.
  - now apply imul_sound.
Qed.

Lemma isqrt_sound (a : bound) (x : R) :
  encloses a x -> encloses (isqrt a) (sqrt x).
Proof.
  destruct a as [i |]; cbn [isqrt encloses]; trivial.
  intros [Hl Hu]. cbv zeta.
  set (gl := Z.sqrt _ # grid). set (gu := (Z.sqrt _ + 1) # grid).
  destruct (Qle_bool 0 gl) eqn:E1; cbn [andb]; [| exact I].
  destruct (Qle_bool 0 gu) eqn:E2; cbn [andb]; [| exact I].
  destruct (Qle_bool (gl * gl) (lower i)) eqn:E3; cbn [andb]; [| exact I].
  destruct (Qle_bool (upper i) (gu * gu)) eqn:E4; [| exact I].
  apply Qle_bool_Rle in E1, E2, E3, E4.
  rewrite Q2R_0 in E1, E2. rewrite Q2R_mult in E3, E4.
  cbn [encloses lower upper].
  apply sqrt_between; lra.
Qed.

Lemma izero_to_sound (a : bound) (v r : R) :
  encloses a v -> 0 <= r <= v -> encloses (izero_to a) r.
Proof.
  destruct a as [i |]; cbn; trivial.
  intros [_ Hu] [H0 Hr]. rewrite Q2R_0. lra.
Qed.

Lemma iunit_sound (x : R) : -1 <= x <= 1 -> encloses iunit x.
Proof.
  intros H. cbn. unfold Q2R. simpl. lra.
Qed.

Lemma within_sound (a : bound) (l u : Q) (x : R) :
  within a l u = true -> encloses a x -> Q2R l <= x <= Q2R u.
Proof.
  destruct a as [i |]; cbn [within encloses]; [| discriminate].
  intros H [Hl Hu]. apply andb_true_iff in H as [H1 H2].
  apply Qle_bool_Rle in H1, H2. lra.
Qed.

Lemma fact_values :
  INR (fact 2) = 2 /\ INR (fact 3) = 6 /\ INR (fact 4) = 24
  /\ INR (fact 5) = 120 /\ INR (fact 6) = 720 /\ INR (fact 7) = 5040
  /\ INR (fact 8) = 40320 /\ INR (fact 9) = 362880.
Proof.
  repeat split; rewrite INR_IZR_INZ; apply f_equal; vm_compute; reflexivity.
Qed.

Lemma sin_lb_ub_poly (x : R) :
  sin_lb x = x - x ^ 3 / 6 + x ^ 5 / 120 - x ^ 7 / 5040 + 0
  /\ sin_ub x = sin_lb x + x ^ 9 / 362880.
Proof.
  destruct fact_values as (F2 & F3 & F4 & F5 & F6 & F7 & F8 & F9).
  unfold sin_ub, sin_lb, sin_approx.
  split.
  - cbn [sum_f_R0]. unfold sin_term.
    replace (2 * 0 + 1)%nat with 1%nat by reflexivity.
    replace (2 * 1 + 1)%nat with 3%nat by reflexivity.
    replace (2 * 2 + 1)%nat with 5%nat by reflexivity.
    replace (2 * 3 + 1)%nat with 7%nat by reflexivity.
    rewrite F3, F5, F7.
    replace (INR (fact 1)) with 1 by (simpl; lra).
    simpl pow. field.
  - change 4%nat with (S 3). cbn [sum_f_R0]. f_equal.
    unfold sin_term.
    replace (2 * 4 + 1)%nat with 9%nat by reflexivity. rewrite F9.
    simpl pow. field.
Qed.

Lemma cos_lb_ub_poly (x : R) :
  cos_lb x = 1 - x ^ 2 / 2 + x ^ 4 / 24 - x ^ 6 / 720
  /\ cos_ub x = cos_lb x + x ^ 8 / 40320.
Proof.
  destruct fact_values as (F2 & F3 & F4 & F5 & F6 & F7 & F8 & F9).
  unfold cos_ub, cos_lb, cos_approx.
  split.
  - cbn [sum_f_R0]. unfold cos_term.
    replace (2 * 0)%nat with 0%nat by reflexivity.
    replace (2 * 1)%nat with 2%nat by reflexivity.
    replace (2 * 2)%nat with 4%nat by reflexivity.
    replace (2 * 3)%nat with 6%nat by reflexivity.
    rewrite F2, F4, F6.
    replace (INR (fact 0)) with 1 by (simpl; lra).
    simpl pow. field.
  - change 4%nat with (S 3). cbn [sum_f_R0]. f_equal.
    unfold cos_term.
    replace (2 * 4)%nat with 8%nat by reflexivity. rewrite F8.
    simpl pow. field.
Qed.

(** Enclosure of an arithmetic expression, by its syntax; [leaf] closes
    what is not an operation or an integer literal. *)
Ltac enclose_with leaf :=
  lazymatch goal with
  | |- encloses _ (?x + ?y) => apply iadd_sound; enclose_with leaf
  | |- encloses _ (?x - ?y) => apply isub_sound; enclose_with leaf
  | |- encloses _ (?x / ?y) => apply idiv_sound; enclose_with leaf
  | |- encloses _ (?x * ?y) => apply imul_sound; enclose_with leaf
  | |- encloses _ (- ?x) => apply iopp_sound; enclose_with leaf
  | |- encloses _ (?x ^ ?n) => apply ipow_sound; enclose_with leaf
  | |- encloses _ (IZR ?z) => apply (ipoint_sound z)
  | |- _ => leaf tt
  end.

Lemma isin_sound (a : bound) (x : R) :
  encloses a x -> encloses (isin a) (sin x).
Proof.
  intros Hx. unfold isin.
  destruct (within a 0 3) eqn:E; [| apply iunit_sound, SIN_bound].
  pose proof (within_sound a 0 3 x E Hx) as [H0 H3].
  rewrite Q2R_0 in H0.
  replace (Q2R 3) with 3 in H3 by (unfold Q2R; simpl; lra).
  pose proof PI2_3_2 as Hpi.
  pose proof (SIN x H0 ltac:(lra)) as [Hlb Hub].
  destruct (sin_lb_ub_poly x) as [Elb Eub].
  replace (sin x) with (sin_lb x + (sin x - sin_lb x)) by ring.
  apply iadd_sound.
  - rewrite Elb.
    enclose_with ltac:(fun _ => exact Hx).
  - apply izero_to_sound with (v := x ^ 9 / 362880).
    + apply idiv_sound; [now apply ipow_sound | apply (ipoint_sound 362880)].
    + lra.
Qed.

Lemma icos_sound (a : bound) (x : R) :
  encloses a x -> encloses (icos a) (cos x).
Proof.
  intros Hx. unfold icos.
  destruct (within a (- (3 # 2)) (3 # 2)) eqn:E;
    [| apply iunit_sound, COS_bound].
  pose proof (within_sound a _ _ x E Hx) as [H0 H3].
  replace (Q2R (- (3 # 2))) with (- (3 / 2)) in H0 by (unfold Q2R; simpl; lra).
  replace (Q2R (3 # 2)) with (3 / 2) in H3 by (unfold Q2R; simpl; lra).
  pose proof PI2_3_2 as Hpi.
  pose proof (COS x ltac:(lra) ltac:(lra)) as [Hlb Hub].
  destruct (cos_lb_ub_poly x) as [Elb Eub].
  replace (cos x) with (cos_lb x + (cos x - cos_lb x)) by ring.
  apply iadd_sound.
  - rewrite Elb.
    enclose_with ltac:(fun _ => exact Hx).
  - apply izero_to_sound with (v := x ^ 8 / 40320).
    + apply idiv_sound; [now apply ipow_sound | apply (ipoint_sound 40320)].
    + lra.
Qed.

Lemma pi_sound : encloses pi_bound PI.
Proof.
  pose proof (PI_2_3_7_ineq 5) as H.
  unfold tg_alt, PI_2_3_7_tg, Ratan_seq in H.
  cbn [sum_f_R0 Nat.mul Nat.add] in H.
  rewrite !INR_IZR_INZ in H. cbn [Z.of_nat Pos.of_succ_nat Pos.succ] in H.
  cbn [encloses pi_bound lower upper]. unfold Q2R. cbn [Qnum Qden].
  simpl pow in H.
  lra.
Qed.

(** Enclosure of an expression built from integer literals, [PI], the
    arithmetic operations, [sqrt], [sin] and [cos], and from terms that
    a hypothesis encloses. *)
Ltac enclose :=
  enclose_with
    ltac:(fun _ =>
            lazymatch goal with
            | |- encloses _ PI => exact pi_sound
            | |- encloses _ (sqrt _) => apply isqrt_sound; enclose
            | |- encloses _ (sin _) => apply isin_sound; enclose
            | |- encloses _ (cos _) => apply icos_sound; enclose
            | |- encloses _ _ => eassumption
            end).

(** [enclose_value H x] adds the hypothesis [H] that [x] lies in the
    interval computed for it. *)
Ltac enclose_value H x :=
  eassert (H : encloses _ x) by (try unfold x; enclose);
  match type of H with
  | encloses ?b _ =>
      let v := eval vm_compute in b in
      replace b with v in H by (vm_compute; reflexivity)
  end.

(** The quantities shared by the easting and the northing of
    [utm_easting_northing], each enclosed once: the goal is the series
    with its constants and [radians] unfolded, [lat] the latitude in
    degrees. *)
Ltac utm_enclose_parts lat :=
  let lat_rad := fresh "lat_rad" in
  let s := fresh "s" in
  let c := fresh "c" in
  let e2 := fresh "e2" in
  let N := fresh "N" in
  let T := fresh "T" in
  let ep2 := fresh "ep2" in
  let C := fresh "C" in
  let A := fresh "A" in
  set (lat_rad := lat * PI / 180);
  set (s := sin lat_rad); set (c := cos lat_rad);
  set (e2 := sqrt _ * sqrt _);
  set (N := 6378137 / sqrt (1 - e2 * s ^ 2));
  set (T := (s / c) ^ 2);
  set (ep2 := e2 / (1 - e2));
  set (C := ep2 * c ^ 2);
  set (A := (_ - _) * c);
  let H := fresh "H" in enclose_value H lat_rad;
  let H := fresh "H" in enclose_value H s;
  let H := fresh "H" in enclose_value H c;
  clearbody s c;
  let H := fresh "H" in enclose_value H e2;
  clearbody e2;
  let H := fresh "H" in enclose_value H N;
  let H := fresh "H" in enclose_value H T;
  let H := fresh "H" in enclose_value H ep2;
  clearbody N T ep2;
  let H := fresh "H" in enclose_value H C;
  let H := fresh "H" in enclose_value H A;
  clearbody C A;
  let H := fresh "H" in enclose_value H (A ^ 2);
  let H := fresh "H" in enclose_value H (A ^ 3).

(** ** Paris in UTM *)

Lemma utm_zone_paris : utm_zone (488566 / 10000) (23522 / 10000) = 31%Z.
Proof.
  unfold utm_zone.
  rewrite (Rleb_false 56) by lra. rewrite (Rleb_false 72) by lra.
  cbn [andb]. rewrite py_int_nonneg by lra.
  rewrite (Zfloor_eq 30) by (simpl; lra). reflexivity.
Qed.

Lemma utm_letter_paris : utm_letter (488566 / 10000) = Returns "U"%char.
Proof.
  unfold utm_letter.
  rewrite !Rleb_true by lra. cbn [andb].
  rewrite py_int_nonneg by lra.
  rewrite (Zfloor_eq 16) by (simpl; lra). reflexivity.
Qed.

(** The transverse Mercator series at Paris, in zone 31. *)
Lemma utm_paris_enclosure :
  452482 <= fst (utm_easting_northing 31 (488566 / 10000) (23522 / 10000))
         <= 452484
  /\ 5411704
     <= snd (utm_easting_northing 31 (488566 / 10000) (23522 / 10000))
     <= 5411744.
Proof.
  unfold utm_easting_northing.
  rewrite Rltb_false by lra.
  unfold wgs84_ep2, wgs84_e2, wgs84_e, wgs84_f, wgs84_a, utm_k0, radians, tan.
  cbv zeta. cbn [fst snd].
  utm_enclose_parts (488566 / 10000).
  split.
  - match goal with |- _ <= ?e <= _ =>
      eassert (He : encloses _ e) by enclose end.
    apply (within_sound _ (452482 # 1) (452484 # 1)) in He.
    + unfold Q2R in He. cbn [Qnum Qden] in He. lra.
    + vm_compute. reflexivity.
  - match goal with |- _ <= ?e <= _ =>
      eassert (He : encloses _ e) by enclose end.
    apply (within_sound _ (5411704 # 1) (5411744 # 1)) in He.
    + unfold Q2R in He. cbn [Qnum Qden] in He. lra.
    + vm_compute. reflexivity.
Qed.

Lemma lat_lon_to_utm_paris :
  lat_lon_to_utm (488566 / 10000) (23522 / 10000)
  = Returns (31%Z, "U"%char,
             fst (utm_easting_northing 31 (488566 / 10000) (23522 / 10000)),
             snd (utm_easting_northing 31 (488566 / 10000) (23522 / 10000))).
Proof.
  rewrite (lat_lon_to_utm_letter _ _ _ utm_letter_paris), utm_zone_paris.
  reflexivity.
Qed.

(** C7, as stated, fails: at (48.8566, 2.3522) the easting is more than
    500 m from 448,000 m and the northing more than 500 m from
    5,411,000 m. *)
Lemma utm_paris_not_as_stated :
  exists easting northing,
    lat_lon_to_utm (488566 / 10000) (23522 / 10000)
    = Returns (31%Z, "U"%char, easting, northing)
    /\ 500 < Rabs (easting - 448000)
    /\ 500 < Rabs (northing - 5411000).
Proof.
  destruct utm_paris_enclosure as [He Hn].
  do 2 eexists. split; [exact lat_lon_to_utm_paris |].
  split; rewrite Rabs_pos_eq; lra.
Qed.

(** C7, amended. [lat_lon_to_utm(48.8566, 2.3522)] yields zone 31, band
    letter U, an easting within 1 m of 452,483 m, hence within 500 m of
    452,500 m, and a northing within 20 m of 5,411,724 m, hence within
    500 m of 5,411,700 m. *)
Theorem utm_paris :
  exists easting northing,
    lat_lon_to_utm (488566 / 10000) (23522 / 10000)
    = Returns (31%Z, "U"%char, easting, northing)
    /\ Rabs (easting - 452483) <= 1 /\ Rabs (northing - 5411724) <= 20
    /\ Rabs (easting - 452500) <= 500 /\ Rabs (northing - 5411700) <= 500.
Proof.
  destruct utm_paris_enclosure as [He Hn].
  do 2 eexists. split; [exact lat_lon_to_utm_paris |].
  repeat split; apply Rabs_le; lra.
Qed.

(** ** Longitudes out of range *)

Lemma utm_zone_west : utm_zone 0 (- (1859 / 10)) = 1%Z.
Proof.
  unfold utm_zone.
  rewrite (Rleb_false 56 0) by lra. rewrite (Rleb_false 72 0) by lra.
  cbn [andb]. unfold py_int.
  destruct (Rle_dec 0 ((- (1859 / 10) + 180) / 6)) as [H | _]; [lra |].
  rewrite (Zceil_eq 0) by (simpl; lra). reflexivity.
Qed.

(** At latitude 0 and longitude -185.9 the easting is negative. *)
Lemma utm_easting_west_negative :
  fst (utm_easting_northing 1 0 (- (1859 / 10))) < 0.
Proof.
  unfold utm_easting_northing.
  rewrite Rltb_false by lra.
  unfold wgs84_ep2, wgs84_e2, wgs84_e, wgs84_f, wgs84_a, utm_k0, radians, tan.
  cbv zeta. cbn [fst snd].
  utm_enclose_parts 0.
  match goal with |- ?e < 0 =>
    eassert (He : encloses _ e) by enclose end.
  apply (within_sound _ (- (500000 # 1)) (- (400000 # 1))) in He.
  - unfold Q2R in He. cbn [Qnum Qden Qopp Z.opp] in He. lra.
  - vm_compute. reflexivity.
Qed.

Lemma py_int_negative (x : R) : x < 0 -> (py_int x <= 0)%Z.
Proof.
  intros H. unfold py_int.
  destruct (Rle_dec 0 x) as [H0 | _]; [lra |].
  pose proof (Zceil_bound x) as [Hlo _].
  assert (Hlt : IZR (Zceil x) < IZR 1) by (simpl; lra).
  apply lt_IZR in Hlt. lia.
Qed.

(** C8, as stated, fails: at latitude 0 and longitude 200, outside
    [[-180, 180]], the zone is 64, outside 1..60, and both conversions
    return a result; at latitude 0 and longitude -185.9 the zone is 1,
    the column index [int(easting / 100000) - 1] is negative, and
    [lat_lon_to_mgrs] returns a result all the same. *)
Lemma utm_mgrs_accept_invalid_zone :
  (utm_zone 0 200 = 64%Z
   /\ (exists easting northing,
         lat_lon_to_utm 0 200 = Returns (64%Z, "N"%char, easting, northing))
   /\ (exists s, lat_lon_to_mgrs 0 200 = Returns s))
  /\ (exists easting northing,
        lat_lon_to_utm 0 (- (1859 / 10))
        = Returns (1%Z, "N"%char, easting, northing)
        /\ (py_int (easting / 100000) - 1 < 0)%Z
        /\ exists s, lat_lon_to_mgrs 0 (- (1859 / 10)) = Returns s).
Proof.
  split; [split; [exact utm_zone_0_200 | split] |].
  - do 2 eexists.
    rewrite (lat_lon_to_utm_letter 0 200 "N"%char utm_letter_0).
    rewrite utm_zone_0_200. reflexivity.
  - destruct (lat_lon_to_mgrs_total 0 200) as (l & cs & cl & rl & _ & _ & H).
    eexists. exact H.
  - do 2 eexists. split; [| split].
    + rewrite (lat_lon_to_utm_letter 0 _ "N"%char utm_letter_0).
      rewrite utm_zone_west. reflexivity.
    + pose proof utm_easting_west_negative as He.
      assert (Hq : fst (utm_easting_northing 1 0 (- (1859 / 10))) / 100000 < 0).
      { unfold Rdiv.
        assert (0 < - fst (utm_easting_northing 1 0 (- (1859 / 10)))
                    * / 100000)
          by (apply Rmult_lt_0_compat; lra).
        lra. }
      pose proof (py_int_negative _ Hq). lia.
    + destruct (lat_lon_to_mgrs_total 0 (- (1859 / 10)))
        as (l & cs & cl & rl & _ & _ & H).
      eexists. exact H.
Qed.

(** ** The projected endpoint on the sphere *)

Lemma atan2_bounds (y x : R) : - PI < atan2 y x <= PI.
Proof.
  pose proof PI_RGT_0 as Hpi. unfold atan2.
  destruct (Rlt_dec 0 x) as [Hx | Hx].
  - pose proof (atan_bound (y / x)). lra.
  - destruct (Rlt_dec x 0) as [Hx' | Hx'].
    + destruct (Rle_dec 0 y) as [Hy | Hy].
      * pose proof (atan_bound (y / x)) as Hb.
        assert (y / x <= 0).
        { assert (0 <= y * / (- x))
            by (apply Rmult_le_pos; [lra | left; apply Rinv_0_lt_compat; lra]).
          replace (y / x) with (- (y * / (- x))) by (field; lra). lra. }
        assert (atan (y / x) <= 0).
        { destruct H as [H | H].
          - left. rewrite <- atan_0. now apply atan_increasing.
          - rewrite H, atan_0. lra. }
        lra.
      * pose proof (atan2_neg_y_bounds y x ltac:(lra)) as Hb.
        unfold atan2 in Hb.
        destruct (Rlt_dec 0 x); [lra |].
        destruct (Rlt_dec x 0); [| lra].
        destruct (Rle_dec 0 y); lra.
    + destruct (Rlt_dec 0 y); [lra |].
      destruct (Rlt_dec y 0); lra.
Qed.

Lemma sqrt_sum_sqr_scaled (x t : R) :
  0 < x -> sqrt (x * x + (t * x) * (t * x)) = x * sqrt (1 + t * t).
Proof.
  intros Hx.
  replace (x * x + t * x * (t * x)) with ((x * x) * (1 + t * t)) by ring.
  rewrite sqrt_mult_alt by (apply Rle_0_sqr).
  rewrite sqrt_square by lra. reflexivity.
Qed.

Lemma one_plus_sqr_pos (t : R) : 0 < sqrt (1 + t * t).
Proof.
  apply sqrt_lt_R0. pose proof (Rle_0_sqr t) as H. unfold Rsqr in H. lra.
Qed.

(** Polar coordinates: the cosine of [atan2 y x] is [x] over the norm. *)
Lemma cos_atan2_norm (y x : R) :
  cos (atan2 y x) * sqrt (x * x + y * y) = x.
Proof.
  pose proof PI_RGT_0 as Hpi. unfold atan2.
  destruct (Rlt_dec 0 x) as [Hx | Hx].
  - assert (Hn : sqrt (x * x + y * y) = x * sqrt (1 + (y / x) * (y / x))).
    { rewrite <- (sqrt_sum_sqr_scaled x (y / x)) by lra.
      f_equal. field. lra. }
    pose proof (one_plus_sqr_pos (y / x)).
    rewrite cos_atan, Hn. unfold Rsqr. field. lra.
  - destruct (Rlt_dec x 0) as [Hx' | Hx'].
    + assert (Hn : sqrt (x * x + y * y)
                   = (- x) * sqrt (1 + (y / x) * (y / x))).
      { rewrite <- (sqrt_sum_sqr_scaled (- x) (y / x)) by lra.
        f_equal. field. lra. }
      pose proof (one_plus_sqr_pos (y / x)).
      destruct (Rle_dec 0 y).
      * rewrite neg_cos, cos_atan, Hn. unfold Rsqr. field. lra.
      * unfold Rminus. rewrite <- (cos_period_Z _ 1).
        replace (atan (y / x) + - PI + 2 * IZR 1 * PI)
          with (atan (y / x) + PI) by (simpl; ring).
        rewrite neg_cos, cos_atan, Hn. unfold Rsqr. field. lra.
    + assert (x = 0) by lra. subst x.
      destruct (Rlt_dec 0 y).
      * rewrite cos_PI2. ring.
      * destruct (Rlt_dec y 0).
        -- rewrite cos_neg, cos_PI2. ring.
        -- assert (y = 0) by lra. subst y.
           replace (0 * 0 + 0 * 0) with 0 by ring. rewrite sqrt_0. ring.
Qed.

Lemma radians_degrees (x : R) : radians (degrees x) = x.
Proof. unfold degrees, radians. field. apply PI_neq0. Qed.

Lemma radians_range (lat : R) :
  -90 <= lat <= 90 -> - (PI / 2) <= radians lat <= PI / 2.
Proof.
  intros [H1 H2]. pose proof PI_RGT_0 as Hpi. unfold radians.
  split.
  - replace (- (PI / 2)) with (-90 * PI / 180) by field.
    unfold Rdiv. apply Rmult_le_compat_r; [lra |].
    apply Rmult_le_compat_r; lra.
  - replace (PI / 2) with (90 * PI / 180) by field.
    unfold Rdiv. apply Rmult_le_compat_r; [lra |].
    apply Rmult_le_compat_r; lra.
Qed.

(** The norm of the two arguments of [atan2] in the projection. *)
Lemma haversine_atan2_norm (sp cp sd cd st ct : R) :
  sp * sp + cp * cp = 1 -> sd * sd + cd * cd = 1 -> st * st + ct * ct = 1 ->
  (cd - sp * (sp * cd + cp * sd * ct)) * (cd - sp * (sp * cd + cp * sd * ct))
  + (st * sd * cp) * (st * sd * cp)
  = (cp * cp)
    * (1 - (sp * cd + cp * sd * ct) * (sp * cd + cp * sd * ct)).
Proof.
  intros Hp Hd Ht. nsatz.
Qed.

Lemma atan2_0_nonneg (x : R) : 0 <= x -> atan2 0 x = 0.
Proof.
  intros [Hx | Hx].
  - rewrite atan2_pos_x by exact Hx.
    replace (0 / x) with 0 by (field; lra). apply atan_0.
  - subst x. apply atan2_0_0.
Qed.

Lemma degrees_plus (x y : R) : degrees (x + y) = degrees x + degrees y.
Proof. unfold degrees. field. apply PI_neq0. Qed.

Lemma radians_le (x y : R) : x <= y -> radians x <= radians y.
Proof.
  intros H. pose proof PI_RGT_0 as Hpi. unfold radians, Rdiv.
  apply Rmult_le_compat_r; [lra |]. apply Rmult_le_compat_r; lra.
Qed.

(** X1. The endpoint lies at the central angle [dist_km / 6371] from the
    origin: the spherical law of cosines holds between the origin, the
    endpoint returned and the distance, for an origin latitude in
    [[-90, 90]]. *)
Theorem haversine_central_angle (lat lon azimuth dist_km lat2 lon2 : R) :
  -90 <= lat <= 90 ->
  calc_endpoint_haversine exact lat lon azimuth dist_km
  = Returns (lat2, lon2) ->
  sin (radians lat) * sin (radians lat2)
  + cos (radians lat) * cos (radians lat2) * cos (radians (lon2 - lon))
  = cos (dist_km / 6371).
Proof.
  intros Hlat H. rewrite calc_endpoint_haversine_returns in H.
  injection H as <- <-. unfold endpoint_lat, endpoint_lon.
  rewrite radians_degrees.
  set (p := radians lat). set (dl := dist_km / 6371).
  set (t := radians azimuth).
  set (u := sin p * cos dl + cos p * sin dl * cos t).
  pose proof (haversine_asin_arg_bound p dl t) as Hu. fold u in Hu.
  rewrite sin_asin by exact Hu. rewrite cos_asin by exact Hu.
  set (y := sin t * sin dl * cos p). set (x := cos dl - sin p * u).
  replace (radians (degrees (radians lon + atan2 y x) - lon))
    with (atan2 y x)
    by (unfold degrees, radians; field; apply PI_neq0).
  assert (Hcp : 0 <= cos p).
  { pose proof (radians_range lat Hlat). apply cos_ge_0; unfold p; lra. }
  assert (Hw : 0 <= 1 - u * u).
  { destruct Hu as [H1 H2].
    assert (0 <= (1 - u) * (1 + u)) by (apply Rmult_le_pos; lra). lra. }
  pose proof (haversine_atan2_norm (sin p) (cos p) (sin dl) (cos dl)
                (sin t) (cos t) (sin_cos_sqr p) (sin_cos_sqr dl)
                (sin_cos_sqr t)) as Hn.
  fold u in Hn. fold x y in Hn.
  pose proof (cos_atan2_norm y x) as Hc. rewrite Hn in Hc.
  rewrite sqrt_mult_alt in Hc by (apply Rle_0_sqr).
  rewrite sqrt_square in Hc by exact Hcp.
  unfold Rsqr.
  replace (sin p * u + cos p * sqrt (1 - u * u) * cos (atan2 y x))
    with (sin p * u + cos (atan2 y x) * (cos p * sqrt (1 - u * u))) by ring.
  rewrite Hc. unfold x. ring.
Qed.

Lemma haversine_central_angle_witness :
  -90 <= 0 <= 90
  /\ sin (radians 0) * sin (radians 45)
     + cos (radians 0) * cos (radians 45) * cos (radians (90 - 0))
     = cos (6371 * (PI / 2) / 6371).
Proof.
  assert (Hr : -90 <= 0 <= 90) by lra.
  split; [exact Hr |].
  apply (haversine_central_angle 0 0 45 (6371 * (PI / 2)) 45 90 Hr).
  rewrite calc_endpoint_haversine_returns.
  destruct endpoint_A_quarter as [-> ->]. reflexivity.
Defined.

(** Due north (azimuth 0), in exact arithmetic, the projection follows
    the meridian up to the pole. *)
Lemma haversine_due_north_exact (lat lon d : R) :
  0 <= d -> -90 <= lat -> lat + degrees (d / 6371) <= 90 ->
  calc_endpoint_haversine exact lat lon 0 d
  = Returns (lat + degrees (d / 6371), lon).
Proof.
  intros Hd Hlo Hhi. rewrite calc_endpoint_haversine_returns.
  unfold endpoint_lat, endpoint_lon. rewrite radians_0, sin_0, cos_0.
  set (p := radians lat). set (dl := d / 6371).
  pose proof PI_RGT_0 as Hpi.
  assert (Hdl : 0 <= dl) by (unfold dl; lra).
  assert (Hp : - (PI / 2) <= p).
  { unfold p. replace (- (PI / 2)) with (radians (-90))
      by (unfold radians; field).
    now apply radians_le. }
  assert (Hpd : p + dl <= PI / 2).
  { apply radians_le in Hhi. unfold radians, degrees in Hhi.
    fold dl in Hhi. unfold p, radians.
    replace ((lat + dl * 180 / PI) * PI / 180) with (lat * PI / 180 + dl)
      in Hhi by (field; lra).
    lra. }
  replace (sin p * cos dl + cos p * sin dl * 1) with (sin (p + dl))
    by (rewrite sin_plus; ring).
  rewrite asin_sin by lra.
  assert (Hx : 0 <= cos dl - sin p * sin (p + dl)).
  { replace (cos dl) with (cos ((p + dl) - p)) by (f_equal; ring).
    rewrite cos_minus.
    replace (cos (p + dl) * cos p + sin (p + dl) * sin p
             - sin p * sin (p + dl))
      with (cos (p + dl) * cos p) by ring.
    apply Rmult_le_pos; apply cos_ge_0; lra. }
  replace (0 * sin dl * cos p) with 0 by ring.
  rewrite atan2_0_nonneg by exact Hx.
  rewrite Rplus_0_r, degrees_plus. unfold p.
  now rewrite !degrees_radians.
Qed.


(** X3. A distance of zero returns the origin, whatever the azimuth, for
    an origin latitude in [[-90, 90]]. *)
Theorem haversine_zero_distance (lat lon azimuth : R) :
  -90 <= lat <= 90 ->
  calc_endpoint_haversine exact lat lon azimuth 0 = Returns (lat, lon).
Proof.
  intros Hlat. rewrite calc_endpoint_haversine_returns.
  unfold endpoint_lat, endpoint_lon.
  replace (0 / 6371) with 0 by field. rewrite sin_0, cos_0.
  pose proof (radians_range lat Hlat) as Hp.
  set (p := radians lat) in *.
  replace (sin p * 1 + cos p * 0 * cos (radians azimuth)) with (sin p)
    by ring.
  rewrite asin_sin by lra.
  replace (sin (radians azimuth) * 0 * cos p) with 0 by ring.
  rewrite atan2_0_nonneg.
  - rewrite Rplus_0_r. unfold p. now rewrite !degrees_radians.
  - pose proof (sin_cos_sqr p). pose proof (Rle_0_sqr (cos p)) as Hc.
    unfold Rsqr in Hc. lra.
Qed.

Lemma haversine_zero_distance_witness :
  -90 <= 45 <= 90 /\ calc_endpoint_haversine exact 45 7 123 0 = Returns (45, 7).
Proof.
  assert (H : -90 <= 45 <= 90) by lra.
  split; [exact H | exact (haversine_zero_distance 45 7 123 H)].
Defined.

Lemma endpoint_east_quarter (lon : R) :
  endpoint_lat 0 90 (6371 * (PI / 2)) = 0
  /\ endpoint_lon 0 lon 90 (6371 * (PI / 2)) = lon + 90.
Proof.
  unfold endpoint_lat, endpoint_lon.
  replace (6371 * (PI / 2) / 6371) with (PI / 2) by field.
  rewrite radians_0, radians_90, sin_0, cos_0, sin_PI2, cos_PI2.
  pose proof PI_neq0 as Hpi.
  replace (0 * 0 + 1 * 1 * 0) with 0 by ring. rewrite asin_0, sin_0.
  split.
  - unfold degrees. field. exact Hpi.
  - replace (1 * 1 * 1) with 1 by ring. replace (0 - 0 * 0) with 0 by ring.
    rewrite atan2_x0_pos_y by lra.
    rewrite degrees_plus, degrees_radians. unfold degrees. field. exact Hpi.
Qed.

(** The two outcomes of the projection: a [ValueError] when the
    rounded argument [a] of [asin] is outside [[-1, 1]], the point
    computed from [asin a] otherwise. *)
Lemma calc_endpoint_haversine_outcome (fl : rounding)
  (lat lon azimuth dist_km : R) :
  calc_endpoint_haversine fl lat lon azimuth dist_km = Raises ValueError
  \/ exists a,
       -1 <= a <= 1
       /\ calc_endpoint_haversine fl lat lon azimuth dist_km
          = Returns
              (degrees (asin a),
               degrees (radians lon
                        + atan2 (sin (radians azimuth)
                                 * sin (dist_km / 6371) * cos (radians lat))
                                (cos (dist_km / 6371)
                                 - sin (radians lat) * sin (asin a)))).
Proof.
  unfold calc_endpoint_haversine, py_asin. cbv zeta.
  destruct (Rle_dec (-1) _) as [H1 | H1]; [| now left].
  destruct (Rle_dec _ 1) as [H2 | H2]; [| now left].
  right. eexists. split; [split; [exact H1 | exact H2] |].
  reflexivity.
Qed.

(** X4. The projection fails only with the [ValueError] of [asin];
    when it returns, whatever the rounding of the argument of [asin],
    the latitude is in [[-90, 90]] and the longitude is within 180
    degrees of the origin's, but it is not wrapped into [[-180, 180]]:
    from (0, 170), a quarter turn eastwards returns the longitude
    260. *)
Theorem haversine_ranges :
  (forall (fl : rounding) lat lon azimuth dist_km,
     match calc_endpoint_haversine fl lat lon azimuth dist_km with
     | Returns (lat2, lon2) =>
         -90 <= lat2 <= 90 /\ -180 < lon2 - lon <= 180
     | Raises e => e = ValueError
     end)
  /\ calc_endpoint_haversine exact 0 170 90 (6371 * (PI / 2))
     = Returns (0, 260).
Proof.
  split.
  - intros fl lat lon azimuth dist_km.
    destruct (calc_endpoint_haversine_outcome fl lat lon azimuth dist_km)
      as [-> | [a [_ ->]]]; [reflexivity |].
    pose proof PI_RGT_0 as Hpi.
    assert (Hinv : 0 < / PI) by now apply Rinv_0_lt_compat.
    split.
    + pose proof (asin_bound a) as [H1 H2].
      unfold degrees. split.
      * replace (-90) with (- (PI / 2) * 180 * / PI) by (field; lra).
        unfold Rdiv at 1. apply Rmult_le_compat_r; lra.
      * replace 90 with (PI / 2 * 180 * / PI) by (field; lra).
        unfold Rdiv at 1. apply Rmult_le_compat_r; lra.
    + match goal with |- _ < degrees (_ + atan2 ?y ?x) - _ <= _ =>
        pose proof (atan2_bounds y x) as [H1 H2];
        set (b := atan2 y x) in * end.
      rewrite degrees_plus, degrees_radians.
      replace (lon + degrees b - lon) with (degrees b) by ring.
      unfold degrees. split.
      * replace (-180) with (- PI * 180 * / PI) by (field; lra).
        unfold Rdiv. apply Rmult_lt_compat_r; lra.
      * replace 180 with (PI * 180 * / PI) at 2 by (field; lra).
        unfold Rdiv. apply Rmult_le_compat_r; lra.
  - rewrite calc_endpoint_haversine_returns.
    destruct (endpoint_east_quarter 170) as [-> ->].
    do 2 f_equal. ring.
Qed.

(** ** Pairs of stations *)

Lemma line_intersection_swap (p1 p2 p3 p4 : R * R) :
  line_intersection p3 p4 p1 p2 = line_intersection p1 p2 p3 p4.
Proof.
  destruct p1 as [x1 y1], p2 as [x2 y2], p3 as [x3 y3], p4 as [x4 y4].
  unfold line_intersection.
  set (D := (x1 - x2) * (y3 - y4) - (y1 - y2) * (x3 - x4)).
  replace ((x3 - x4) * (y1 - y2) - (y3 - y4) * (x1 - x2)) with (- D)
    by (unfold D; ring).
  rewrite Rabs_Ropp.
  destruct (Rlt_dec (Rabs D) (1 / 10000000000)) as [Hd | Hd];
    [reflexivity |].
  assert (Hne : D <> 0).
  { intros H0. rewrite H0, Rabs_R0 in Hd. lra. }
  f_equal. f_equal; unfold D in *; field; exact Hne.
Qed.

Lemma pair_intersection_swap (s1 s2 : Station) (d : R) :
  pair_intersection exact s2 s1 d = pair_intersection exact s1 s2 d.
Proof.
  rewrite !pair_intersection_unfold, line_intersection_swap.
  destruct (line_intersection _ _ _ _) as [[int_lon int_lat] |];
    [| reflexivity].
  now rewrite andb_comm.
Qed.

(** X5. The result for two stations does not depend on their order (in
    exact arithmetic): the same list of intersections is returned for
    [s1, s2] and for [s2, s1]. *)
Theorem calculate_all_intersections_order (s1 s2 : Station) (d : R) :
  calculate_all_intersections exact [s2; s1] d
  = calculate_all_intersections exact [s1; s2] d.
Proof.
  rewrite !calculate_all_intersections_two.
  now rewrite pair_intersection_swap.
Qed.

(** Two lines drawn from the same point meet at that point only. *)
Lemma line_intersection_common_origin (q e1 e2 p : R * R) :
  line_intersection q e1 q e2 = Some p -> p = q.
Proof.
  destruct q as [x y], e1 as [x2 y2], e2 as [x4 y4].
  unfold line_intersection.
  destruct (Rlt_dec _ _) as [Hd | Hd]; [discriminate |].
  intros H. injection H as <-.
  assert (Hne : forall D, ~ Rabs D < 1 / 10000000000 -> D <> 0).
  { intros D HD H0. rewrite H0, Rabs_R0 in HD. lra. }
  apply Hne in Hd.
  f_equal; field; exact Hd.
Qed.

Lemma line_intersection_same_line (q e : R * R) :
  line_intersection q e q e = None.
Proof.
  destruct q as [x y], e as [x2 y2]. unfold line_intersection.
  destruct (Rlt_dec _ _) as [Hd | Hd]; [reflexivity |].
  exfalso. apply Hd.
  match goal with |- Rabs ?D < _ => replace D with 0 by ring end.
  rewrite Rabs_R0. lra.
Qed.

Lemma pair_intersection_colocated_point (fl : rounding) (s1 s2 : Station)
  (d : R) (p : R * R) :
  lat s2 = lat s1 -> lon s2 = lon s1 ->
  pair_intersection fl s1 s2 d = Returns (Some p) ->
  p = (lat s1, lon s1).
Proof.
  intros Hlat Hlon. unfold pair_intersection. rewrite Hlat, Hlon.
  destruct (calc_endpoint_haversine fl (lat s1) (lon s1) (azimuth s1) d)
    as [end1 | e]; [| discriminate].
  destruct (calc_endpoint_haversine fl (lat s1) (lon s1) (azimuth s2) d)
    as [end2 | e]; [| discriminate].
  cbn [bind].
  destruct (line_intersection _ _ _ _) as [[int_lon int_lat] |] eqn:Hli;
    [| discriminate].
  apply line_intersection_common_origin in Hli. injection Hli as -> ->.
  destruct (_ && _); [| discriminate].
  destruct (_ && _); [| discriminate].
  intros H. now injection H as <-.
Qed.

Lemma endpoint_north_quarter (lon : R) :
  endpoint_lat 0 0 (6371 * (PI / 2)) = 90
  /\ endpoint_lon 0 lon 0 (6371 * (PI / 2)) = lon.
Proof.
  pose proof PI_RGT_0 as Hpi.
  pose proof (haversine_due_north_exact 0 lon (6371 * (PI / 2))) as H.
  assert (E : degrees (6371 * (PI / 2) / 6371) = 90)
    by (unfold degrees; field; lra).
  rewrite E in H.
  lapply H; [clear H; intros H | lra].
  lapply H; [clear H; intros H | lra].
  lapply H; [clear H; intros H | lra].
  rewrite calc_endpoint_haversine_returns in H.
  injection H as H1 H2. rewrite H1, H2. split; [ring | reflexivity].
Qed.

(** [station_A] and [station_A_north], at the same position with the
    bearings 45 and 0, cross at that position. *)
Lemma pair_A_A_north_quarter :
  pair_intersection exact station_A station_A_north (6371 * (PI / 2))
  = Returns (Some (0, 0)).
Proof.
  destruct endpoint_A_quarter as [Hla Hlo].
  destruct (endpoint_north_quarter 0) as [Hlb Hlob].
  pose proof PI_RGT_0 as Hpi.
  rewrite pair_intersection_unfold.
  cbn [lat lon azimuth station_A station_A_north].
  rewrite Hla, Hlo, Hlb, Hlob.
  assert (Hli : line_intersection (0, 0) (90, 45) (0, 0) (0, 90)
                = Some (0, 0)).
  { rewrite line_intersection_some.
    - f_equal. f_equal; field.
    - replace ((0 - 90) * (0 - 90) - (0 - 45) * (0 - 0)) with 8100 by ring.
      rewrite Rabs_pos_eq; lra. }
  rewrite Hli. cbv beta iota.
  rewrite !Rminus_0_r, atan2_0_0, radians_45, radians_0.
  rewrite !folded_diff_small
    by (rewrite ?Rminus_0_r, ?Rminus_0_l, ?Rabs_Ropp, ?Rabs_R0,
          ?Rabs_pos_eq; lra).
  rewrite Rminus_0_l, Rabs_Ropp, Rabs_pos_eq by lra.
  rewrite Rminus_0_r, Rabs_R0.
  rewrite !Rltb_true by lra.
  rewrite !Rleb_true by lra.
  reflexivity.
Qed.

(** X6. Two stations at the same position, whatever the rounding: a
    point is returned only if it is that position itself, and when they
    also have the same azimuth (the two chords are the same line) the
    pair routine returns no point, unless the projection raised its
    [ValueError]. *)
Theorem pair_intersection_colocated (fl : rounding) (s1 s2 : Station)
  (d : R) :
  lat s2 = lat s1 -> lon s2 = lon s1 ->
  (forall p, pair_intersection fl s1 s2 d = Returns (Some p) ->
             p = (lat s1, lon s1))
  /\ (azimuth s2 = azimuth s1 ->
      pair_intersection fl s1 s2 d = Returns None
      \/ pair_intersection fl s1 s2 d = Raises ValueError).
Proof.
  intros Hlat Hlon. split.
  - intros p. now apply pair_intersection_colocated_point.
  - intros Haz. unfold pair_intersection. rewrite Hlat, Hlon, Haz.
    destruct (calc_endpoint_haversine_outcome fl (lat s1) (lon s1)
                (azimuth s1) d) as [-> | [a [_ ->]]].
    + right. reflexivity.
    + left. cbn [bind fst snd].
      now rewrite line_intersection_same_line.
Qed.

Lemma pair_intersection_colocated_witness :
  lat station_A_north = lat station_A
  /\ lon station_A_north = lon station_A
  /\ pair_intersection exact station_A station_A_north (6371 * (PI / 2))
     = Returns (Some (0, 0))
  /\ (0, 0) = (lat station_A, lon station_A).
Proof.
  assert (H1 : lat station_A_north = lat station_A) by reflexivity.
  assert (H2 : lon station_A_north = lon station_A) by reflexivity.
  split; [exact H1 |]. split; [exact H2 |].
  split; [exact pair_A_A_north_quarter |].
  exact (proj1 (pair_intersection_colocated exact station_A station_A_north
                  (6371 * (PI / 2)) H1 H2)
               (0, 0) pair_A_A_north_quarter).
Defined.

(** The pair routine fails only with the [ValueError] of a projection,
    and a point it returns is in the coordinate ranges. *)
Lemma pair_intersection_in_range (fl : rounding) (s1 s2 : Station) (d : R) :
  match pair_intersection fl s1 s2 d with
  | Returns r => forall p, r = Some p -> in_coordinate_range p
  | Raises e => e = ValueError
  end.
Proof.
  unfold pair_intersection.
  destruct (calc_endpoint_haversine_outcome fl (lat s1) (lon s1)
              (azimuth s1) d) as [-> | [a1 [_ ->]]]; [reflexivity |].
  destruct (calc_endpoint_haversine_outcome fl (lat s2) (lon s2)
              (azimuth s2) d) as [-> | [a2 [_ ->]]]; [reflexivity |].
  cbn [bind].
  destruct (line_intersection _ _ _ _) as [[int_lon int_lat] |];
    [| discriminate].
  destruct (_ && _); [| discriminate].
  unfold Rleb.
  destruct (Rle_dec (-90) int_lat); cbn [andb]; [| discriminate].
  destruct (Rle_dec int_lat 90); cbn [andb]; [| discriminate].
  destruct (Rle_dec (-180) int_lon); cbn [andb]; [| discriminate].
  destruct (Rle_dec int_lon 180); [| discriminate].
  intros p Hp. injection Hp as <-. unfold in_coordinate_range.
  cbn [fst snd]. lra.
Qed.

Lemma intersections_from_in_range (fl : rounding) (s1 : Station)
  (rest : list Station) (d : R) :
  match intersections_from fl s1 rest d with
  | Returns l =>
      Forall in_coordinate_range l
      /\ (List.length l <= List.length rest)%nat
  | Raises e => e = ValueError
  end.
Proof.
  induction rest as [| s2 rest IH]; cbn [intersections_from].
  - split; [constructor | cbn; lia].
  - pose proof (pair_intersection_in_range fl s1 s2 d) as Hp.
    destruct (pair_intersection fl s1 s2 d) as [r | e]; [| exact Hp].
    cbn [bind].
    destruct (intersections_from fl s1 rest d) as [tl | e]; [| exact IH].
    cbn [bind]. destruct IH as [Hf Hlen].
    destruct r as [p |]; cbn [List.length].
    + split; [constructor; auto | lia].
    + split; [exact Hf | lia].
Qed.

Lemma calculate_all_intersections_bounded (fl : rounding)
  (stations : list Station) (d : R) :
  match calculate_all_intersections fl stations d with
  | Returns l =>
      Forall in_coordinate_range l
      /\ (2 * List.length l
          <= List.length stations * (List.length stations - 1))%nat
  | Raises e => e = ValueError
  end.
Proof.
  induction stations as [| s1 rest IH]; cbn [calculate_all_intersections].
  - split; [constructor | cbn; lia].
  - pose proof (intersections_from_in_range fl s1 rest d) as Hh.
    destruct (intersections_from fl s1 rest d) as [here | e]; [| exact Hh].
    cbn [bind].
    destruct (calculate_all_intersections fl rest d) as [later | e];
      [| exact IH].
    cbn [bind]. destruct Hh as [Fh Lh]. destruct IH as [Fl Ll]. split.
    + apply Forall_app. split; assumption.
    + rewrite length_app. cbn [List.length].
      replace (S (List.length rest) - 1)%nat with (List.length rest) by lia.
      destruct (List.length rest) as [| m]; [cbn in *; lia |].
      replace (S m - 1)%nat with m in Ll by lia. nia.
Qed.

(** X7. Whatever the rounding, [calculate_all_intersections] fails only
    with the [ValueError] of a projection; when it returns, every point
    has its latitude in [[-90, 90]] and its longitude in [[-180, 180]],
    and [n] stations give at most [n (n - 1) / 2] points. *)
Theorem calculate_all_intersections_in_range (fl : rounding)
  (stations : list Station) (d : R) :
  match calculate_all_intersections fl stations d with
  | Returns l =>
      Forall in_coordinate_range l
      /\ (2 * List.length l
          <= List.length stations * (List.length stations - 1))%nat
  | Raises e => e = ValueError
  end.
Proof. exact (calculate_all_intersections_bounded fl stations d). Qed.

(** ** The farthest pair and the circle *)

Lemma distance_km_sym (lat1 lon1 lat2 lon2 : R) :
  distance_km lat1 lon1 lat2 lon2 = distance_km lat2 lon2 lat1 lon1.
Proof.
  unfold distance_km. f_equal.
  replace ((lat2 + lat1) / 2) with ((lat1 + lat2) / 2) by field.
  ring.
Qed.

Lemma distance_km_same (lat1 lon1 : R) : distance_km lat1 lon1 lat1 lon1 = 0.
Proof.
  unfold distance_km.
  match goal with |- sqrt ?e = 0 => replace e with 0 by ring end.
  apply sqrt_0.
Qed.

(** X8. [distance_km] is symmetric, never negative, and zero from a
    point to itself. *)
Theorem distance_km_properties (lat1 lon1 lat2 lon2 : R) :
  distance_km lat1 lon1 lat2 lon2 = distance_km lat2 lon2 lat1 lon1
  /\ 0 <= distance_km lat1 lon1 lat2 lon2
  /\ distance_km lat1 lon1 lat1 lon1 = 0.
Proof.
  split; [apply distance_km_sym |].
  split; [apply distance_km_nonneg | apply distance_km_same].
Qed.

Lemma in_pair_cases {A : Type} (p q : A) (l : list A) :
  In p l -> In q l -> p = q \/ ordered_pair p q l \/ ordered_pair q p l.
Proof.
  induction l as [| x rest IH]; intros Hp Hq; [destruct Hp |].
  cbn [ordered_pair].
  destruct Hp as [Hp | Hp], Hq as [Hq | Hq].
  - left. congruence.
  - right. left. left. now split.
  - right. right. left. now split.
  - destruct (IH Hp Hq) as [H | [H | H]]; auto.
Qed.

(** The state of the search: its maximum bounds the pairs seen, and it
    is the initial state or the distance of the pair it holds. *)
Lemma farthest_inner (pi : R * R) (rest : list (R * R))
  (st : R * (R * R) * (R * R)) :
  let st' := fold_left (fun st pj => farthest_step pi pj st) rest st in
  fst (fst st) <= fst (fst st')
  /\ (forall pj, In pj rest -> point_distance pi pj <= fst (fst st'))
  /\ (st' = st
      \/ exists pj, In pj rest /\ st' = (point_distance pi pj, pi, pj)).
Proof.
  revert st. induction rest as [| pj rest IH]; intros st; cbn [fold_left].
  - cbv zeta. split; [lra |]. split; [intros ? [] | now left].
  - specialize (IH (farthest_step pi pj st)). cbv zeta in *.
    destruct IH as [Hm [Hall Hst]].
    set (st1 := farthest_step pi pj st) in *.
    assert (H1 : fst (fst st) <= fst (fst st1)
                 /\ point_distance pi pj <= fst (fst st1)
                 /\ (st1 = st \/ st1 = (point_distance pi pj, pi, pj))).
    { unfold st1, farthest_step, point_distance.
      destruct st as [[m a] b]. cbn [fst snd].
      destruct (Rlt_dec _ _); cbn [fst snd]; repeat split; auto; lra. }
    destruct H1 as [Ha [Hb Hc]].
    split; [lra |]. split.
    + intros q [<- | Hq]; [lra | now apply Hall].
    + destruct Hst as [-> | [q [Hq ->]]].
      * destruct Hc as [-> | ->]; [now left |].
        right. exists pj. split; [now left | reflexivity].
      * right. exists q. split; [now right | reflexivity].
Qed.

Lemma farthest_outer (points : list (R * R)) (st : R * (R * R) * (R * R)) :
  let st' := farthest_pair points st in
  fst (fst st) <= fst (fst st')
  /\ (forall p q, ordered_pair p q points ->
                  point_distance p q <= fst (fst st'))
  /\ (st' = st
      \/ exists p q, In p points /\ In q points
                     /\ st' = (point_distance p q, p, q)).
Proof.
  revert st. induction points as [| pi rest IH]; intros st;
    cbn [farthest_pair].
  - cbv zeta. split; [lra |]. split; [intros ? ? [] | now left].
  - pose proof (farthest_inner pi rest st) as Hin. cbv zeta in Hin.
    set (st1 := fold_left _ rest st) in *.
    specialize (IH st1). cbv zeta in *.
    destruct Hin as [Ha [Hb Hc]]. destruct IH as [Hm [Hall Hst]].
    split; [lra |]. split.
    + intros p q [[<- Hq] | Hpq].
      * specialize (Hb q Hq). lra.
      * now apply Hall.
    + destruct Hst as [-> | (p & q & Hp & Hq & ->)].
      * destruct Hc as [-> | (q & Hq & ->)]; [now left |].
        right. exists pi, q. repeat split; [now left | now right].
      * right. exists p, q. repeat split; now right.
Qed.

Lemma farthest_pair_scan (p0 p1 : R * R) (rest : list (R * R)) :
  let points := p0 :: p1 :: rest in
  let '(max_dist, a, b) := farthest_pair points (0, p0, p1) in
  In a points /\ In b points /\ max_dist = point_distance a b
  /\ forall p q, In p points -> In q points ->
                 point_distance p q <= max_dist.
Proof.
  cbv zeta. set (points := p0 :: p1 :: rest).
  pose proof (farthest_outer points (0, p0, p1)) as H. cbv zeta in H.
  destruct (farthest_pair points (0, p0, p1)) as [[m a] b].
  cbn [fst snd] in H. destruct H as [Hm [Hall Hst]].
  assert (Hab : In a points /\ In b points /\ m = point_distance a b).
  { destruct Hst as [Hst | (p & q & Hp & Hq & Hst)].
    - injection Hst as -> -> ->.
      split; [now left |]. split; [right; now left |].
      assert (H01 : point_distance p0 p1 <= 0).
      { apply Hall. cbn. left. split; [reflexivity | now left]. }
      pose proof (distance_km_nonneg (fst p0) (snd p0) (fst p1) (snd p1)).
      unfold point_distance in *. lra.
    - injection Hst as -> -> ->. auto. }
  destruct Hab as [Ha [Hb Hd]]. repeat split; try assumption.
  intros p q Hp Hq.
  destruct (in_pair_cases p q points Hp Hq) as [<- | [H | H]].
  - unfold point_distance. rewrite distance_km_same. exact Hm.
  - now apply Hall.
  - unfold point_distance. rewrite distance_km_sym. now apply Hall.
Qed.

(** X9. The scan of [smallest_enclosing_circle] for the farthest pair,
    started as the source starts it, returns two of the points and
    their distance, and no two points are farther apart. *)
Theorem farthest_pair_is_diameter (p0 p1 : R * R) (rest : list (R * R)) :
  let points := p0 :: p1 :: rest in
  let '(max_dist, a, b) := farthest_pair points (0, p0, p1) in
  In a points /\ In b points /\ max_dist = point_distance a b
  /\ forall p q, In p points -> In q points ->
                 point_distance p q <= max_dist.
Proof. exact (farthest_pair_scan p0 p1 rest). Qed.

Lemma grow_step_radius (st : R * R * R) (p : R * R) :
  snd st <= snd (grow_step st p).
Proof.
  destruct st as [[clat clon] r]. unfold grow_step.
  destruct (Rlt_dec _ _); cbn [snd]; lra.
Qed.

Lemma grow_fold_radius (points : list (R * R)) (st : R * R * R) :
  snd st <= snd (fold_left grow_step points st).
Proof.
  revert st. induction points as [| p points IH]; intros st;
    cbn [fold_left]; [lra |].
  pose proof (grow_step_radius st p). specialize (IH (grow_step st p)). lra.
Qed.

(** X10. For three points or more, the circle returned encloses every
    input point in the metric [distance_km], its radius is at least
    0.5 km, and no two input points are farther apart than twice the
    radius. *)
Theorem smallest_enclosing_circle_three_or_more (points : list (R * R)) :
  (3 <= List.length points)%nat ->
  let '(clat, clon, r) := smallest_enclosing_circle points in
  (forall p, In p points -> distance_km clat clon (fst p) (snd p) <= r)
  /\ 1 / 2 <= r
  /\ forall p q, In p points -> In q points -> point_distance p q <= 2 * r.
Proof.
  intros Hlen.
  destruct points as [| p0 [| p1 [| p2 rest]]]; cbn in Hlen; try lia.
  cbn [smallest_enclosing_circle].
  pose proof (farthest_pair_scan p0 p1 (p2 :: rest)) as Hd.
  cbv zeta in Hd.
  set (points := p0 :: p1 :: p2 :: rest) in *.
  destruct (farthest_pair points (0, p0, p1)) as [[max_dist a] b].
  destruct Hd as (_ & _ & _ & Hdiam).
  match goal with |- context [fold_left grow_step points ?st] =>
    pose proof (grow_fold_radius points st) as Hg;
    destruct (fold_left grow_step points st) as [[clat clon] radius] end.
  cbn [snd] in Hg.
  pose proof (cover_fold_ge clat clon points radius) as Hc.
  set (r := fold_left (cover_step clat clon) points radius) in *.
  pose proof (Rmax_l r (1 / 2)). pose proof (Rmax_r r (1 / 2)).
  split; [| split].
  - intros p Hp.
    pose proof (cover_fold_encloses clat clon points radius p Hp).
    fold r in H1. lra.
  - lra.
  - intros p q Hp Hq. specialize (Hdiam p q Hp Hq). lra.
Qed.

Lemma smallest_enclosing_circle_three_or_more_witness :
  (3 <= List.length three_points)%nat
  /\ let '(clat, clon, r) := smallest_enclosing_circle three_points in
     (forall p, In p three_points ->
                distance_km clat clon (fst p) (snd p) <= r)
     /\ 1 / 2 <= r
     /\ forall p q, In p three_points -> In q three_points ->
                    point_distance p q <= 2 * r.
Proof.
  assert (H : (3 <= List.length three_points)%nat) by (cbn; lia).
  split; [exact H |].
  exact (smallest_enclosing_circle_three_or_more three_points H).
Defined.

(** X11. For two points with the same latitude or the same longitude,
    the circle returned is centered at their midpoint and encloses both
    points. *)
Theorem smallest_enclosing_circle_two_aligned (p1 p2 : R * R) :
  fst p1 = fst p2 \/ snd p1 = snd p2 ->
  let '(clat, clon, r) := smallest_enclosing_circle [p1; p2] in
  clat = (fst p1 + fst p2) / 2 /\ clon = (snd p1 + snd p2) / 2
  /\ distance_km clat clon (fst p1) (snd p1) <= r
  /\ distance_km clat clon (fst p2) (snd p2) <= r.
Proof.
  intros H. cbn [smallest_enclosing_circle].
  split; [reflexivity |]. split; [reflexivity |].
  split; [apply Rmax_l |].
  eapply Rle_trans; [| apply Rmax_l].
  right. unfold distance_km. f_equal.
  destruct p1 as [a1 o1], p2 as [a2 o2]. cbn [fst snd] in *.
  destruct H as [-> | ->].
  - replace ((a2 + a2) / 2) with a2 by field. field.
  - replace ((o2 + o2) / 2) with o2 by field. field.
Qed.

Lemma smallest_enclosing_circle_two_aligned_witness :
  (fst (44, 7) = fst (44, 8) \/ snd (44, 7) = snd (44, 8))
  /\ let '(clat, clon, r) := smallest_enclosing_circle [(44, 7); (44, 8)] in
     clat = (fst (44, 7) + fst (44, 8)) / 2
     /\ clon = (snd (44, 7) + snd (44, 8)) / 2
     /\ distance_km clat clon (fst (44, 7)) (snd (44, 7)) <= r
     /\ distance_km clat clon (fst (44, 8)) (snd (44, 8)) <= r.
Proof.
  assert (H : fst (44, 7) = fst (44, 8) \/ snd (44, 7) = snd (44, 8))
    by (left; reflexivity).
  split; [exact H |].
  exact (smallest_enclosing_circle_two_aligned (44, 7) (44, 8) H).
Defined.

Lemma smallest_enclosing_circle_radius_floor (points : list (R * R)) :
  points <> [] -> 1 / 2 <= snd (smallest_enclosing_circle points).
Proof.
  intros Hne.
  destruct points as [| p0 [| p1 [| p2 rest]]]; [contradiction | | |].
  - cbn. lra.
  - cbn [smallest_enclosing_circle snd]. apply Rmax_r.
  - cbn [smallest_enclosing_circle].
    destruct (farthest_pair _ _) as [[m a] b].
    match goal with |- context [fold_left grow_step ?l ?st] =>
      destruct (fold_left grow_step l st) as [[clat clon] radius] end.
    cbn [snd]. apply Rmax_r.
Qed.

Lemma uncertainty_circle_facts
  (intersections : list (R * R)) :
  (calculate_uncertainty_circle intersections = None <-> intersections = [])
  /\ forall clat clon r area,
       calculate_uncertainty_circle intersections
       = Some (clat, clon, r, area) ->
       smallest_enclosing_circle intersections = (clat, clon, r)
       /\ 1 / 2 <= r /\ area = PI * r * r /\ PI / 4 <= area.
Proof.
  split.
  - destruct intersections as [| p l]; cbn [calculate_uncertainty_circle].
    + split; reflexivity.
    + destruct (smallest_enclosing_circle (p :: l)) as [[c1 c2] r].
      split; discriminate.
  - intros clat clon r area H.
    destruct intersections as [| p l]; [discriminate |].
    pose proof (smallest_enclosing_circle_radius_floor (p :: l)) as Hr.
    cbn [calculate_uncertainty_circle] in H.
    destruct (smallest_enclosing_circle (p :: l)) as [[c1 c2] r0].
    injection H as <- <- <- <-. cbn [snd] in Hr.
    specialize (Hr ltac:(discriminate)).
    repeat split; try lra.
    pose proof PI_RGT_0 as Hpi.
    assert (PI * (1 / 2) <= PI * r0) by (apply Rmult_le_compat_l; lra).
    assert (PI * r0 * (1 / 2) <= PI * r0 * r0)
      by (apply Rmult_le_compat_l; lra).
    lra.
Qed.

(** X12. [calculate_uncertainty_circle] returns [None] exactly for the
    empty list; otherwise it returns the circle of
    [smallest_enclosing_circle] with a radius of at least 0.5 km and
    the area [PI * radius^2], hence at least [PI / 4] km2. *)
Theorem calculate_uncertainty_circle_properties
  (intersections : list (R * R)) :
  (calculate_uncertainty_circle intersections = None <-> intersections = [])
  /\ forall clat clon r area,
       calculate_uncertainty_circle intersections
       = Some (clat, clon, r, area) ->
       smallest_enclosing_circle intersections = (clat, clon, r)
       /\ 1 / 2 <= r /\ area = PI * r * r /\ PI / 4 <= area.
Proof. exact (uncertainty_circle_facts intersections). Qed.

(** ** The center of the circle *)

Lemma grow_step_convex (st : R * R * R) (p : R * R) :
  0 <= snd st ->
  exists k, 0 <= k <= 1
            /\ fst (fst (grow_step st p))
               = fst (fst st) + k * (fst p - fst (fst st))
            /\ snd (fst (grow_step st p))
               = snd (fst st) + k * (snd p - snd (fst st))
            /\ 0 <= snd (grow_step st p).
Proof.
  destruct st as [[clat clon] r]. cbn [fst snd]. intros Hr.
  unfold grow_step.
  set (d := distance_km clat clon (fst p) (snd p)).
  destruct (Rlt_dec r d) as [Hd | Hd]; cbn [fst snd].
  - destruct (Rlt_dec 0 d) as [H0 | H0]; [| lra].
    exists (((r + d) / 2 - r) / d). repeat split; try lra.
    + apply Rmult_le_pos; [lra | left; now apply Rinv_0_lt_compat].
    + apply Rmult_le_reg_r with d; [exact H0 |].
      replace (((r + d) / 2 - r) / d * d) with ((r + d) / 2 - r)
        by (field; lra).
      lra.
  - exists 0. repeat split; lra.
Qed.

Lemma grow_fold_in_box (points : list (R * R)) (st : R * R * R)
  (lat_lo lat_hi lon_lo lon_hi : R) :
  0 <= snd st ->
  lat_lo <= fst (fst st) <= lat_hi -> lon_lo <= snd (fst st) <= lon_hi ->
  Forall (fun p => lat_lo <= fst p <= lat_hi /\ lon_lo <= snd p <= lon_hi)
         points ->
  lat_lo <= fst (fst (fold_left grow_step points st)) <= lat_hi
  /\ lon_lo <= snd (fst (fold_left grow_step points st)) <= lon_hi.
Proof.
  revert st. induction points as [| p points IH]; intros st Hr Hlat Hlon Hall;
    cbn [fold_left]; [now split |].
  inversion Hall as [| ? ? [Hp1 Hp2] Hrest]; subst.
  destruct (grow_step_convex st p Hr) as (k & Hk & E1 & E2 & Hr').
  apply IH; try assumption.
  - rewrite E1.
    assert (0 <= k * (fst p - lat_lo)) by (apply Rmult_le_pos; lra).
    assert (0 <= k * (lat_hi - fst p)) by (apply Rmult_le_pos; lra).
    assert (0 <= (1 - k) * (fst (fst st) - lat_lo))
      by (apply Rmult_le_pos; lra).
    assert (0 <= (1 - k) * (lat_hi - fst (fst st)))
      by (apply Rmult_le_pos; lra).
    lra.
  - rewrite E2.
    assert (0 <= k * (snd p - lon_lo)) by (apply Rmult_le_pos; lra).
    assert (0 <= k * (lon_hi - snd p)) by (apply Rmult_le_pos; lra).
    assert (0 <= (1 - k) * (snd (fst st) - lon_lo))
      by (apply Rmult_le_pos; lra).
    assert (0 <= (1 - k) * (lon_hi - snd (fst st)))
      by (apply Rmult_le_pos; lra).
    lra.
Qed.

Lemma enclosing_circle_center_box (points : list (R * R))
  (lat_lo lat_hi lon_lo lon_hi : R) :
  points <> [] ->
  Forall (fun p => lat_lo <= fst p <= lat_hi /\ lon_lo <= snd p <= lon_hi)
         points ->
  let '(clat, clon, _) := smallest_enclosing_circle points in
  lat_lo <= clat <= lat_hi /\ lon_lo <= clon <= lon_hi.
Proof.
  intros Hne Hall.
  assert (Hin : forall p, In p points ->
                  lat_lo <= fst p <= lat_hi /\ lon_lo <= snd p <= lon_hi)
    by (now apply Forall_forall).
  destruct points as [| p0 [| p1 [| p2 rest]]]; [contradiction | | |].
  - cbn [smallest_enclosing_circle]. apply Hin. now left.
  - cbn [smallest_enclosing_circle].
    destruct (Hin p0 ltac:(now left)) as [? ?].
    destruct (Hin p1 ltac:(right; now left)) as [? ?]. lra.
  - cbn [smallest_enclosing_circle].
    pose proof (farthest_pair_scan p0 p1 (p2 :: rest)) as Hd.
    cbv zeta in Hd.
    set (points := p0 :: p1 :: p2 :: rest) in *.
    destruct (farthest_pair points (0, p0, p1)) as [[max_dist a] b].
    destruct Hd as (Ha & Hb & Hm & _).
    destruct (Hin a Ha) as [? ?]. destruct (Hin b Hb) as [? ?].
    match goal with |- context [fold_left grow_step points ?st] =>
      pose proof (grow_fold_in_box points st lat_lo lat_hi lon_lo lon_hi)
        as Hbox;
      destruct (fold_left grow_step points st) as [[clat clon] radius] end.
    cbn [fst snd] in Hbox. apply Hbox; try lra; [| exact Hall].
    rewrite Hm. pose proof (distance_km_nonneg (fst a) (snd a) (fst b) (snd b)).
    unfold point_distance. lra.
Qed.

(** X13. The center returned by [smallest_enclosing_circle] lies in
    every latitude-longitude box that contains the input points (for a
    non-empty input). *)
Theorem smallest_enclosing_circle_center_in_box (points : list (R * R))
  (lat_lo lat_hi lon_lo lon_hi : R) :
  points <> [] ->
  Forall (fun p => lat_lo <= fst p <= lat_hi /\ lon_lo <= snd p <= lon_hi)
         points ->
  let '(clat, clon, _) := smallest_enclosing_circle points in
  lat_lo <= clat <= lat_hi /\ lon_lo <= clon <= lon_hi.
Proof. exact (enclosing_circle_center_box points lat_lo lat_hi lon_lo lon_hi). Qed.

Lemma smallest_enclosing_circle_center_in_box_witness :
  three_points <> []
  /\ Forall (fun p => 0 <= fst p <= 1 /\ 0 <= snd p <= 1) three_points
  /\ let '(clat, clon, _) := smallest_enclosing_circle three_points in
     0 <= clat <= 1 /\ 0 <= clon <= 1.
Proof.
  assert (Hne : three_points <> []) by discriminate.
  assert (Hall : Forall (fun p => 0 <= fst p <= 1 /\ 0 <= snd p <= 1)
                        three_points).
  { unfold three_points. repeat constructor; cbn [fst snd]; lra. }
  split; [exact Hne |]. split; [exact Hall |].
  exact (smallest_enclosing_circle_center_in_box three_points 0 1 0 1
           Hne Hall).
Defined.

(** ** The fix *)

Lemma filter_visible_idem (stations : list Station) :
  filter visible (filter visible stations) = filter visible stations.
Proof.
  induction stations as [| s rest IH]; [reflexivity |].
  cbn [filter]. destruct (visible s) eqn:E; [| exact IH].
  cbn [filter]. now rewrite E, IH.
Qed.

(** X14. Whatever the rounding, the fix computation ignores the stations
    that are not visible and fails only with the [ValueError] of a
    projection. A fix it returns is made of at least one point and at
    most [n (n - 1) / 2], [n] the number of visible stations; its radius
    is at least 0.5 km, its surface is [PI * radius^2], its center has
    latitude in [[-90, 90]] and longitude in [[-180, 180]], and its MGRS
    string is the conversion of the center. *)
Theorem mission_intersection_properties (fl : rounding)
  (stations : list Station) (d : R) :
  mission_intersection fl (filter visible stations) d
  = mission_intersection fl stations d
  /\ match mission_intersection fl stations d with
     | Returns r =>
         forall fx, r = Some fx ->
           (1 <= point_count fx)%nat
           /\ (2 * point_count fx
               <= List.length (filter visible stations)
                  * (List.length (filter visible stations) - 1))%nat
           /\ 1 / 2 <= radius_km fx
           /\ surface_km2 fx = PI * radius_km fx * radius_km fx
           /\ in_coordinate_range (center_lat fx, center_lon fx)
           /\ lat_lon_to_mgrs (center_lat fx) (center_lon fx)
              = Returns (mgrs fx)
     | Raises e => e = ValueError
     end.
Proof.
  split.
  - unfold mission_intersection. now rewrite filter_visible_idem.
  - unfold mission_intersection.
    set (vis := filter visible stations).
    destruct (2 <=? List.length vis)%nat; [| discriminate].
    pose proof (calculate_all_intersections_bounded fl vis d) as Hb.
    destruct (calculate_all_intersections fl vis d) as [l | e];
      [| exact Hb].
    destruct Hb as [Hrange Hlen]. cbn [bind].
    destruct l as [| p l]; [discriminate |].
    pose proof (uncertainty_circle_facts (p :: l))
      as [_ Hc].
    pose proof (enclosing_circle_center_box (p :: l)
                  (-90) 90 (-180) 180 ltac:(discriminate) Hrange) as Hbox.
    destruct (calculate_uncertainty_circle (p :: l))
      as [[[[clat clon] r] area] |] eqn:E; [| discriminate].
    destruct (Hc clat clon r area eq_refl) as (Hsec & Hr & Harea & _).
    rewrite Hsec in Hbox.
    destruct (lat_lon_to_mgrs_total clat clon)
      as (le & cs & cl & rl & _ & _ & Hm).
    cbv zeta in Hm. rewrite Hm. cbn [bind].
    intros fx Hfx. injection Hfx as <-.
    cbn [point_count radius_km surface_km2 center_lat center_lon mgrs].
    repeat split; try assumption; try (cbn [List.length]; lia);
      try (cbn [fst snd]; lra).
Qed.

(** ** UTM zones *)

Ltac decide_comparisons :=
  unfold Rleb, Rltb;
  repeat match goal with
         | |- context [Rle_dec ?a ?b] => destruct (Rle_dec a b)
         | |- context [Rlt_dec ?a ?b] => destruct (Rlt_dec a b)
         end;
  cbn [andb]; try lra.

Lemma default_zone_range (lon : R) :
  -180 <= lon < 180 -> (1 <= py_int ((lon + 180) / 6) + 1 <= 60)%Z.
Proof.
  intros H. rewrite py_int_nonneg by lra.
  pose proof (Zfloor_range ((lon + 180) / 6) 0 59) as Hr.
  lapply Hr; [clear Hr; intros Hr | simpl; lra].
  lapply Hr; [lia | simpl; lra].
Qed.

Lemma Rleb_elim (x y : R) : Rleb x y = true -> x <= y.
Proof. unfold Rleb. now destruct (Rle_dec x y). Qed.

Lemma Rltb_elim (x y : R) : Rltb x y = true -> x < y.
Proof. unfold Rltb. now destruct (Rlt_dec x y). Qed.

Ltac split_comparisons :=
  repeat match goal with
         | H : _ && _ = true |- _ => apply andb_true_iff in H; destruct H
         end;
  repeat match goal with
         | H : Rleb _ _ = true |- _ => apply Rleb_elim in H
         | H : Rltb _ _ = true |- _ => apply Rltb_elim in H
         end.

Lemma utm_zone_cases (lat lon : R) :
  utm_zone lat lon = (py_int ((lon + 180) / 6) + 1)%Z
  \/ (56 <= lat < 64 /\ 3 <= lon < 12 /\ utm_zone lat lon = 32%Z)
  \/ (72 <= lat < 84
      /\ ((0 <= lon < 9 /\ utm_zone lat lon = 31%Z)
          \/ (9 <= lon < 21 /\ utm_zone lat lon = 33%Z)
          \/ (21 <= lon < 33 /\ utm_zone lat lon = 35%Z)
          \/ (33 <= lon < 42 /\ utm_zone lat lon = 37%Z))).
Proof.
  unfold utm_zone.
  destruct (Rleb 56 lat && Rltb lat 64 && Rleb 3 lon && Rltb lon 12) eqn:E1.
  { split_comparisons. right. left. repeat split; assumption. }
  destruct (Rleb 72 lat && Rltb lat 84) eqn:E2; [| left; reflexivity].
  destruct (Rleb 0 lon && Rltb lon 9) eqn:E3.
  { split_comparisons. right. right. split; [lra |].
    left. split; [lra | reflexivity]. }
  destruct (Rleb 9 lon && Rltb lon 21) eqn:E4.
  { split_comparisons. right. right. split; [lra |].
    right. left. split; [lra | reflexivity]. }
  destruct (Rleb 21 lon && Rltb lon 33) eqn:E5.
  { split_comparisons. right. right. split; [lra |].
    right. right. left. split; [lra | reflexivity]. }
  destruct (Rleb 33 lon && Rltb lon 42) eqn:E6.
  { split_comparisons. right. right. split; [lra |].
    right. right. right. split; [lra | reflexivity]. }
  left. reflexivity.
Qed.

Lemma utm_zone_no_override (lat lon : R) :
  no_zone_override lat ->
  utm_zone lat lon = (py_int ((lon + 180) / 6) + 1)%Z.
Proof.
  intros H. unfold no_zone_override in H.
  destruct (utm_zone_cases lat lon) as [E | [(? & ? & _) | (? & _)]];
    [exact E | lra | lra].
Qed.

(** X15. For a longitude in [[-180, 180)] the zone of [lat_lon_to_utm]
    is in 1..60, Norway (56 <= lat < 64, 3 <= lon < 12) is in zone 32
    and Svalbard (72 <= lat < 84, 0 <= lon < 42) in one of the zones
    31, 33, 35, 37; at the longitude 180 itself the zone is 61. *)
Theorem utm_zone_range (lat lon : R) :
  (-180 <= lon < 180 -> (1 <= utm_zone lat lon <= 60)%Z)
  /\ (56 <= lat < 64 -> 3 <= lon < 12 -> utm_zone lat lon = 32%Z)
  /\ (72 <= lat < 84 -> 0 <= lon < 42 ->
      In (utm_zone lat lon) [31; 33; 35; 37]%Z)
  /\ utm_zone lat 180 = 61%Z.
Proof.
  split; [| split; [| split]].
  - intros H. pose proof (default_zone_range lon H).
    destruct (utm_zone_cases lat lon)
      as [-> | [(_ & _ & ->) | (_ & [(_ & ->) | [(_ & ->) | [(_ & ->) | (_ & ->)]]])]];
      lia.
  - intros H1 H2. unfold utm_zone.
    now rewrite !Rleb_true, !Rltb_true by lra.
  - intros H1 H2. unfold utm_zone.
    rewrite (Rltb_false lat 64) by lra.
    rewrite andb_false_r. cbn [andb].
    rewrite (Rleb_true 72), (Rltb_true lat 84) by lra. cbn [andb].
    decide_comparisons; cbn; auto.
  - destruct (utm_zone_cases lat 180)
      as [-> | [(_ & ? & _) | (_ & [(? & _) | [(? & _) | [(? & _) | (? & _)]]])]];
      try lra.
    rewrite py_int_nonneg by lra.
    rewrite (Zfloor_eq 60) by (simpl; lra). reflexivity.
Qed.

Lemma utm_zone_range_witness :
  -180 <= 7 < 180 /\ (1 <= utm_zone 44 7 <= 60)%Z.
Proof.
  assert (H : -180 <= 7 < 180) by lra.
  split; [exact H | exact (proj1 (utm_zone_range 44 7) H)].
Defined.

(** X16. For a longitude of at least -180, the longitude is at most 6
    degrees west and less than 6 degrees east of the central meridian
    of its zone, and at most 3 degrees west and less than 3 degrees east
    of it where no Norway or Svalbard override applies; the 6 degrees
    west are reached: at latitude 60 the longitude 3 is in zone 32,
    whose central meridian is 9. *)
Theorem utm_zone_central_meridian (lat lon : R) :
  -180 <= lon ->
  -6 <= lon - central_meridian (utm_zone lat lon) < 6
  /\ (no_zone_override lat ->
      -3 <= lon - central_meridian (utm_zone lat lon) < 3)
  /\ utm_zone 60 3 = 32%Z
  /\ 3 - central_meridian (utm_zone 60 3) = -6.
Proof.
  intros Hlon.
  assert (Hd : -3 <= lon - central_meridian (py_int ((lon + 180) / 6) + 1)
               < 3).
  { rewrite py_int_nonneg by lra.
    pose proof (Zfloor_bound ((lon + 180) / 6)) as [H1 H2].
    unfold central_meridian.
    rewrite plus_IZR, minus_IZR, mult_IZR, minus_IZR, plus_IZR.
    simpl IZR. lra. }
  assert (H32 : utm_zone 60 3 = 32%Z).
  { unfold utm_zone. now rewrite !Rleb_true, !Rltb_true by lra. }
  split; [| split; [| split]].
  - destruct (utm_zone_cases lat lon)
      as [-> | [(_ & ? & ->) | (_ & [(? & ->) | [(? & ->) | [(? & ->) | (? & ->)]]])]];
      unfold central_meridian in *; simpl IZR; lra.
  - intros Hno. now rewrite (utm_zone_no_override lat lon Hno).
  - exact H32.
  - rewrite H32. unfold central_meridian. simpl IZR. lra.
Qed.

Lemma utm_zone_central_meridian_witness :
  -180 <= 7
  /\ -6 <= 7 - central_meridian (utm_zone 44 7) < 6
  /\ (no_zone_override 44 -> -3 <= 7 - central_meridian (utm_zone 44 7) < 3)
  /\ utm_zone 60 3 = 32%Z
  /\ 3 - central_meridian (utm_zone 60 3) = -6.
Proof.
  assert (H : -180 <= 7) by lra.
  split; [exact H | exact (utm_zone_central_meridian 44 7 H)].
Defined.

(** ** Symmetries of the transverse Mercator series *)

Lemma central_zone (k : Z) (d : R) :
  (1 <= k)%Z -> -3 <= d < 3 ->
  (py_int ((central_meridian k + d + 180) / 6) + 1)%Z = k.
Proof.
  intros Hk Hd.
  assert (E : (central_meridian k + d + 180) / 6 = IZR (k - 1) + (3 + d) / 6).
  { unfold central_meridian.
    rewrite plus_IZR, minus_IZR, mult_IZR, !minus_IZR. simpl IZR. field. }
  assert (H0 : 0 <= IZR (k - 1)) by (apply IZR_le; lia).
  rewrite py_int_nonneg by (rewrite E; lra).
  rewrite (Zfloor_eq (k - 1)) by (rewrite E; lra). lia.
Qed.

Lemma utm_easting_northing_mirror (zone : Z) (lat d : R) :
  fst (utm_easting_northing zone lat (central_meridian zone - d))
  = 1000000 - fst (utm_easting_northing zone lat (central_meridian zone + d))
  /\ snd (utm_easting_northing zone lat (central_meridian zone - d))
     = snd (utm_easting_northing zone lat (central_meridian zone + d)).
Proof.
  unfold utm_easting_northing. cbv zeta. cbn [fst snd].
  fold (central_meridian zone).
  replace (radians (central_meridian zone - d)
           - radians (central_meridian zone)) with (- radians d)
    by (unfold radians; field).
  replace (radians (central_meridian zone + d)
           - radians (central_meridian zone)) with (radians d)
    by (unfold radians; field).
  split.
  - unfold Rdiv. ring.
  - unfold Rdiv. destruct (Rltb lat 0); ring.
Qed.

Lemma utm_easting_on_meridian (zone : Z) (lat : R) :
  fst (utm_easting_northing zone lat (central_meridian zone)) = 500000.
Proof.
  unfold utm_easting_northing. cbv zeta. cbn [fst snd].
  fold (central_meridian zone).
  rewrite Rminus_diag. unfold Rdiv. ring.
Qed.

(** X17. The projection is symmetric about the central meridian: where
    no zone override applies, two points of the same latitude at the same
    angular distance (below 3 degrees) east and west of the central
    meridian of a zone [k >= 1] get the zone [k], the same band letter,
    the same northing, and eastings symmetric about 500000; on the
    meridian itself the easting is 500000. *)
Theorem lat_lon_to_utm_mirror (k : Z) (lat d : R) :
  (1 <= k)%Z -> no_zone_override lat -> 0 <= d < 3 ->
  exists letter e n,
    lat_lon_to_utm lat (central_meridian k + d)
    = Returns (k, letter, 500000 + e, n)
    /\ lat_lon_to_utm lat (central_meridian k - d)
       = Returns (k, letter, 500000 - e, n)
    /\ (d = 0 -> e = 0).
Proof.
  intros Hk Hno Hd.
  destruct (utm_letter_total lat) as [c Hc].
  exists c,
    (fst (utm_easting_northing k lat (central_meridian k + d)) - 500000),
    (snd (utm_easting_northing k lat (central_meridian k + d))).
  rewrite !(lat_lon_to_utm_letter lat _ c Hc).
  rewrite !(utm_zone_no_override lat _ Hno).
  rewrite (central_zone k d Hk) by lra.
  assert (Hw : (py_int ((central_meridian k - d + 180) / 6) + 1)%Z = k).
  { replace (central_meridian k - d) with (central_meridian k + - d) by ring.
    apply central_zone; [exact Hk | lra]. }
  rewrite Hw.
  destruct (utm_easting_northing_mirror k lat d) as [He Hn].
  rewrite He, Hn.
  split; [do 3 f_equal; ring |].
  split; [do 3 f_equal; ring |].
  intros ->. rewrite Rplus_0_r, utm_easting_on_meridian. ring.
Qed.

Lemma lat_lon_to_utm_mirror_witness :
  (1 <= 31)%Z /\ no_zone_override 44 /\ 0 <= 2 < 3
  /\ exists letter e n,
       lat_lon_to_utm 44 (central_meridian 31 + 2)
       = Returns (31%Z, letter, 500000 + e, n)
       /\ lat_lon_to_utm 44 (central_meridian 31 - 2)
          = Returns (31%Z, letter, 500000 - e, n)
       /\ (2 = 0 -> e = 0).
Proof.
  assert (H1 : (1 <= 31)%Z) by lia.
  assert (H2 : no_zone_override 44) by (left; lra).
  assert (H3 : 0 <= 2 < 3) by lra.
  split; [exact H1 |]. split; [exact H2 |]. split; [exact H3 |].
  exact (lat_lon_to_utm_mirror 31 44 2 H1 H2 H3).
Defined.

Lemma utm_easting_northing_south (zone : Z) (lat lon : R) :
  0 < lat ->
  fst (utm_easting_northing zone (- lat) lon)
  = fst (utm_easting_northing zone lat lon)
  /\ snd (utm_easting_northing zone (- lat) lon)
     = 10000000 - snd (utm_easting_northing zone lat lon).
Proof.
  intros Hlat.
  unfold utm_easting_northing. cbv zeta. cbn [fst snd].
  rewrite (Rltb_true (- lat) 0), (Rltb_false lat 0) by lra.
  replace (radians (- lat)) with (- radians lat) by (unfold radians; field).
  replace (2 * - radians lat) with (- (2 * radians lat)) by ring.
  replace (4 * - radians lat) with (- (4 * radians lat)) by ring.
  replace (6 * - radians lat) with (- (6 * radians lat)) by ring.
  rewrite !sin_neg, !cos_neg, !tan_neg.
  replace ((- sin (radians lat)) ^ 2) with (sin (radians lat) ^ 2) by ring.
  unfold Rdiv. split; ring.
Qed.

Lemma utm_northing_equator (zone : Z) (lon : R) :
  snd (utm_easting_northing zone 0 lon) = 0.
Proof.
  unfold utm_easting_northing. cbv zeta. cbn [fst snd].
  rewrite (Rltb_false 0 0) by lra.
  rewrite radians_0.
  rewrite !Rmult_0_r, tan_0, sin_0. unfold Rdiv. ring.
Qed.

(** X18. The two hemispheres mirror each other: for a northern latitude
    with no zone override, the point of opposite latitude and same
    longitude gets the same zone and easting, and a northing that is
    10,000,000 minus the northern one (the false northing of l. 250-251);
    on the equator itself the northing is 0. *)
Theorem lat_lon_to_utm_hemispheres (lat lon : R) :
  0 < lat -> no_zone_override lat ->
  (exists zone north south e n,
     lat_lon_to_utm lat lon = Returns (zone, north, e, n)
     /\ lat_lon_to_utm (- lat) lon = Returns (zone, south, e, 10000000 - n))
  /\ (exists zone letter e, lat_lon_to_utm 0 lon = Returns (zone, letter, e, 0)).
Proof.
  intros Hlat Hno. split.
  - destruct (utm_letter_total lat) as [c Hc].
    destruct (utm_letter_total (- lat)) as [c' Hc'].
    exists (utm_zone lat lon), c, c'.
    exists (fst (utm_easting_northing (utm_zone lat lon) lat lon)),
      (snd (utm_easting_northing (utm_zone lat lon) lat lon)).
    split; [now apply lat_lon_to_utm_letter |].
    rewrite (lat_lon_to_utm_letter (- lat) lon c' Hc').
    assert (Hz : utm_zone (- lat) lon = utm_zone lat lon).
    { rewrite (utm_zone_no_override lat lon Hno).
      apply utm_zone_no_override. left. lra. }
    rewrite Hz.
    destruct (utm_easting_northing_south (utm_zone lat lon) lat lon Hlat)
      as [-> ->].
    reflexivity.
  - destruct (utm_letter_total 0) as [c Hc].
    exists (utm_zone 0 lon), c,
      (fst (utm_easting_northing (utm_zone 0 lon) 0 lon)).
    rewrite (lat_lon_to_utm_letter 0 lon c Hc).
    now rewrite utm_northing_equator.
Qed.

Lemma lat_lon_to_utm_hemispheres_witness :
  0 < 44 /\ no_zone_override 44
  /\ (exists zone north south e n,
        lat_lon_to_utm 44 7 = Returns (zone, north, e, n)
        /\ lat_lon_to_utm (- 44) 7 = Returns (zone, south, e, 10000000 - n))
  /\ (exists zone letter e, lat_lon_to_utm 0 7 = Returns (zone, letter, e, 0)).
Proof.
  assert (H1 : 0 < 44) by lra.
  assert (H2 : no_zone_override 44) by (left; lra).
  split; [exact H1 |]. split; [exact H2 |].
  exact (lat_lon_to_utm_hemispheres 44 7 H1 H2).
Defined.

(** ** Latitude bands *)

Lemma utm_letter_at (lat : R) (i : Z) (c : ascii) :
  -80 <= lat <= 84 ->
  IZR i <= (lat + 80) / 8 < IZR i + 1 ->
  String.get (Z.to_nat i) "CDEFGHJKLMNPQRSTUVWXX" = Some c ->
  utm_letter lat = Returns c.
Proof.
  intros Hlat Hi Hc.
  destruct (utm_letter_in_range lat Hlat) as [c' [Hr Hg]].
  rewrite py_int_nonneg in Hg by lra.
  rewrite (Zfloor_eq i) in Hg by lra.
  congruence.
Qed.

Lemma utm_letter_band (lat : R) :
  -80 <= lat <= 84 ->
  exists i, (0 <= i <= 20)%Z
            /\ IZR i <= (lat + 80) / 8 < IZR i + 1
            /\ exists c, utm_letter lat = Returns c
                         /\ String.get (Z.to_nat i) "CDEFGHJKLMNPQRSTUVWXX"
                            = Some c.
Proof.
  intros Hlat.
  destruct (utm_letter_in_range lat Hlat) as [c [Hr Hg]].
  pose proof (utm_letter_index lat Hlat) as Hi.
  rewrite py_int_nonneg in Hg, Hi by lra.
  exists (Zfloor ((lat + 80) / 8)). split; [exact Hi |].
  split; [| now exists c].
  pose proof (Zfloor_bound ((lat + 80) / 8)). lra.
Qed.

(** X19. The band letter tells the hemisphere and is never I or O: a
    latitude in [[-80, 0)] gets one of C..M (without I), a latitude in
    [[0, 84]] one of N..X (without O), the whole of [[72, 84]] gets X (a
    band of 12 degrees), and a latitude outside [[-80, 84]] gets Z. *)
Theorem utm_letter_bands (lat : R) :
  (-80 <= lat < 0 ->
   exists c, utm_letter lat = Returns c
             /\ In c (list_ascii_of_string "CDEFGHJKLM"))
  /\ (0 <= lat <= 84 ->
      exists c, utm_letter lat = Returns c
                /\ In c (list_ascii_of_string "NPQRSTUVWX"))
  /\ (72 <= lat <= 84 -> utm_letter lat = Returns "X"%char)
  /\ (lat < -80 \/ 84 < lat -> utm_letter lat = Returns "Z"%char).
Proof.
  split; [| split; [| split]].
  - intros H.
    destruct (utm_letter_band lat) as (i & Hi & Hb & c & Hc & Hg); [lra |].
    exists c. split; [exact Hc |].
    assert (Hi9 : (0 <= i <= 9)%Z).
    { split; [lia |]. apply Z.lt_succ_r. apply lt_IZR. simpl IZR. lra. }
    assert (Hcases : (i = 0 \/ i = 1 \/ i = 2 \/ i = 3 \/ i = 4 \/ i = 5
                      \/ i = 6 \/ i = 7 \/ i = 8 \/ i = 9)%Z) by lia.
    repeat (destruct Hcases as [-> | Hcases];
            [vm_compute in Hg; injection Hg as <-; cbn; tauto |]).
    subst i. vm_compute in Hg. injection Hg as <-. cbn. tauto.
  - intros H.
    destruct (utm_letter_band lat) as (i & Hi & Hb & c & Hc & Hg); [lra |].
    exists c. split; [exact Hc |].
    assert (Hi10 : (10 <= i <= 20)%Z).
    { split; [| lia]. apply Z.lt_pred_le. apply lt_IZR.
      replace (Z.pred 10) with 9%Z by reflexivity.
      change (IZR 9) with 9. lra. }
    assert (Hcases : (i = 10 \/ i = 11 \/ i = 12 \/ i = 13 \/ i = 14
                      \/ i = 15 \/ i = 16 \/ i = 17 \/ i = 18 \/ i = 19
                      \/ i = 20)%Z) by lia.
    repeat (destruct Hcases as [-> | Hcases];
            [vm_compute in Hg; injection Hg as <-; cbn; tauto |]).
    subst i. vm_compute in Hg. injection Hg as <-. cbn. tauto.
  - intros H.
    destruct (utm_letter_band lat) as (i & Hi & Hb & c & Hc & Hg); [lra |].
    rewrite Hc. f_equal.
    assert (Hcases : (i = 19 \/ i = 20)%Z).
    { assert (Hlt : (18 < i)%Z) by (apply lt_IZR; change (IZR 18) with 18; lra).
      lia. }
    destruct Hcases as [-> | ->]; vm_compute in Hg; congruence.
  - intros H. apply utm_letter_out_of_range. lra.
Qed.

(** ** The easting stays inside the grid *)

Lemma PI_enclosure : 314159 / 100000 <= PI <= 314160 / 100000.
Proof.
  pose proof (within_sound pi_bound (314159 # 100000) (314160 # 100000) PI) as H.
  lapply H; [clear H; intros H | vm_compute; reflexivity].
  specialize (H pi_sound). unfold Q2R in H. cbn [Qnum Qden] in H. lra.
Qed.

Lemma Rabs_mult_le (x y a b : R) :
  Rabs x <= a -> Rabs y <= b -> Rabs (x * y) <= a * b.
Proof.
  intros Hx Hy. rewrite Rabs_mult.
  apply Rmult_le_compat; auto using Rabs_pos.
Qed.

Lemma wgs84_e2_bounds : 0 < wgs84_e2 < 67 / 10000.
Proof.
  unfold wgs84_e2, wgs84_e, wgs84_f.
  rewrite sqrt_sqrt by lra. lra.
Qed.

Lemma wgs84_ep2_bounds : 0 < wgs84_ep2 < 68 / 10000.
Proof.
  pose proof wgs84_e2_bounds as [H1 H2]. unfold wgs84_ep2.
  split.
  - apply Rdiv_lt_0_compat; lra.
  - apply (Rmult_lt_reg_r (1 - wgs84_e2)); [lra |].
    unfold Rdiv. rewrite Rmult_assoc, Rinv_l by lra. lra.
Qed.

(** The radius of curvature [N] of [lat_lon_to_utm]. *)
Lemma utm_N_bounds (v : R) :
  0 <= v <= 1 ->
  0 < wgs84_a / sqrt (1 - wgs84_e2 * v) <= 6399900.
Proof.
  intros Hv. pose proof wgs84_e2_bounds as [H1 H2].
  assert (Hs : 9966 / 10000 <= sqrt (1 - wgs84_e2 * v)).
  { refine (proj1 (sqrt_between _ (9966 / 10000) 1 _ _ _)); [lra | lra |].
    split; nra. }
  unfold wgs84_a. split.
  - apply Rdiv_lt_0_compat; lra.
  - apply (Rmult_le_reg_r (sqrt (1 - wgs84_e2 * v))); [lra |].
    unfold Rdiv. rewrite Rmult_assoc, Rinv_l by lra. nra.
Qed.

(** The bracket of the easting series, as a polynomial in the squares of
    [cos lat] and [sin lat] and of the longitude offset. *)
Lemma utm_series_factor_bounds (u v w ep2 : R) :
  0 <= u -> 0 <= v -> u + v = 1 -> 0 <= w <= 11 / 1000 ->
  0 < ep2 < 68 / 10000 ->
  Rabs (1 + (u - v + ep2 * (u * u)) * w / 6
        + (5 * (u * u) - 18 * (v * u) + v * v + 72 * (ep2 * (u * u * u))
           - 58 * (ep2 * (u * u))) * (w * w) / 120)
  <= 1002 / 1000.
Proof.
  intros Hu Hv Huv Hw Hep.
  assert (Hu1 : u <= 1) by lra. assert (Hv1 : v <= 1) by lra.
  assert (Huu : 0 <= u * u <= 1) by nra.
  assert (Hvu : 0 <= v * u <= 1) by nra.
  assert (Hvv : 0 <= v * v <= 1) by nra.
  assert (Hu3 : 0 <= u * u * u <= 1) by nra.
  assert (He2 : 0 <= ep2 * (u * u) <= 68 / 10000) by nra.
  assert (He3 : 0 <= ep2 * (u * u * u) <= 68 / 10000) by nra.
  assert (Hww : 0 <= w * w <= 121 / 1000000) by nra.
  set (P2 := u - v + ep2 * (u * u)).
  set (P4 := 5 * (u * u) - 18 * (v * u) + v * v + 72 * (ep2 * (u * u * u))
             - 58 * (ep2 * (u * u))).
  assert (HP2 : Rabs P2 <= 10068 / 10000)
    by (apply Rabs_le; unfold P2; lra).
  assert (HP4 : Rabs P4 <= 19) by (apply Rabs_le; unfold P4; lra).
  assert (Hw' : Rabs w <= 11 / 1000) by (apply Rabs_le; lra).
  assert (Hww' : Rabs (w * w) <= 121 / 1000000) by (apply Rabs_le; lra).
  pose proof (Rabs_le_between _ _ (Rabs_mult_le _ _ _ _ HP2 Hw')) as H2.
  pose proof (Rabs_le_between _ _ (Rabs_mult_le _ _ _ _ HP4 Hww')) as H4.
  apply Rabs_le. lra.
Qed.

Lemma utm_easting_offset_bound (zone : Z) (lat lon m : R) :
  Rabs (lon - central_meridian zone) <= 6 ->
  Rabs ((lon - central_meridian zone) * cos (radians lat)) <= m ->
  Rabs (fst (utm_easting_northing zone lat lon) - 500000) <= 112000 * m.
Proof.
  intros Hd Hm.
  pose proof PI_enclosure as Hpi.
  pose proof wgs84_ep2_bounds as Hep.
  unfold utm_easting_northing. cbv zeta. cbn [fst snd].
  fold (central_meridian zone).
  set (phi := radians lat) in *. unfold tan.
  set (c := cos phi) in *. set (s := sin phi).
  set (N := wgs84_a / sqrt (1 - wgs84_e2 * s ^ 2)).
  set (delta := lon - central_meridian zone) in *.
  replace (radians lon - radians (central_meridian zone))
    with (delta * (PI / 180)) by (unfold delta, radians; field).
  set (d := delta * (PI / 180)).
  set (B := 1 + (c * c - s * s + wgs84_ep2 * (c * c * (c * c)))
                * (d * d) / 6
            + (5 * (c * c * (c * c)) - 18 * (s * s * (c * c))
               + s * s * (s * s)
               + 72 * (wgs84_ep2 * (c * c * (c * c) * (c * c)))
               - 58 * (wgs84_ep2 * (c * c * (c * c))))
              * (d * d * (d * d)) / 120).
  match goal with |- Rabs (utm_k0 * N * ?S + 500000 - 500000) <= _ =>
    assert (HS : S = delta * c * (PI / 180) * B) end.
  { unfold B, d. destruct (Req_dec c 0) as [Hc | Hc].
    - rewrite Hc. unfold Rdiv. ring.
    - field. exact Hc. }
  rewrite HS.
  replace (utm_k0 * N * (delta * c * (PI / 180) * B) + 500000 - 500000)
    with (utm_k0 * N * (delta * c * (PI / 180) * B)) by ring.
  assert (Hsc : s * s + c * c = 1) by apply sin_cos_sqr.
  assert (HN : 0 < N <= 6399900).
  { unfold N. apply utm_N_bounds. nra. }
  assert (Hdd : 0 <= d * d <= 11 / 1000).
  { assert (Hdb : Rabs d <= 6 * (31416 / 1800000)).
    { unfold d. apply Rabs_mult_le; [exact Hd |]. apply Rabs_le. lra. }
    apply Rabs_le_between in Hdb. nra. }
  assert (HB : Rabs B <= 1002 / 1000).
  { unfold B.
    pose proof (utm_series_factor_bounds (c * c) (s * s) (d * d) wgs84_ep2)
      as H.
    lapply H; [clear H; intros H | nra].
    lapply H; [clear H; intros H | nra].
    lapply H; [clear H; intros H | lra].
    specialize (H Hdd Hep).
    match goal with |- Rabs ?x <= _ =>
      match type of H with Rabs ?y <= _ =>
        replace x with y by ring end end.
    exact H. }
  assert (Hm0 : 0 <= m) by (eapply Rle_trans; [apply Rabs_pos | exact Hm]).
  assert (Hk : Rabs (utm_k0 * N) <= (9996 / 10000) * 6399900).
  { apply Rabs_mult_le; apply Rabs_le; unfold utm_k0; lra. }
  assert (HA : Rabs (delta * c * (PI / 180) * B)
               <= m * (31416 / 1800000) * (1002 / 1000)).
  { apply Rabs_mult_le; [| exact HB].
    apply Rabs_mult_le; [exact Hm |]. apply Rabs_le. lra. }
  pose proof (Rabs_mult_le _ _ _ _ Hk HA) as H.
  eapply Rle_trans; [exact H |]. nra.
Qed.
Lemma default_zone_offset (lon : R) :
  -180 <= lon ->
  -3 <= lon - central_meridian (py_int ((lon + 180) / 6) + 1) < 3.
Proof.
  intros Hlon. rewrite py_int_nonneg by lra.
  pose proof (Zfloor_bound ((lon + 180) / 6)) as [H1 H2].
  unfold central_meridian.
  rewrite plus_IZR, minus_IZR, mult_IZR, minus_IZR, plus_IZR.
  simpl IZR. lra.
Qed.

Lemma utm_zone_offset (lat lon : R) :
  -180 <= lon ->
  -3 <= lon - central_meridian (utm_zone lat lon) < 3
  \/ (56 <= lat < 84
      /\ -6 <= lon - central_meridian (utm_zone lat lon) < 6).
Proof.
  intros Hlon. pose proof (default_zone_offset lon Hlon) as Hd.
  destruct (utm_zone_cases lat lon)
    as [-> | [(? & ? & ->) | (? & [(? & ->) | [(? & ->) | [(? & ->) | (? & ->)]]])]];
    [left; exact Hd | right; unfold central_meridian; simpl IZR; lra ..].
Qed.

Lemma cos_radians_high_latitude (lat : R) :
  56 <= lat < 84 -> 0 <= cos (radians lat) <= 56 / 100.
Proof.
  intros Hlat. pose proof PI_enclosure as Hpi.
  unfold radians. split.
  - apply cos_ge_0; nra.
  - assert (H56 : cos (56 * PI / 180) <= 56 / 100).
    { enclose_value He (cos (56 * PI / 180)).
      apply (within_sound _ (0 # 1) (56 # 100)) in He.
      - unfold Q2R in He. cbn [Qnum Qden] in He. lra.
      - vm_compute. reflexivity. }
    eapply Rle_trans; [| exact H56].
    apply cos_decr_1; nra.
Qed.

(** X20. For every latitude and every longitude of at least -180 the
    easting of [lat_lon_to_utm] lies strictly between 100,000 and
    900,000 m, so the 100 km column index [int(easting / 100000) - 1] of
    [lat_lon_to_mgrs] is already in 0..7 and its two clamps (l. 268-271)
    change nothing. *)
Theorem utm_easting_in_grid (lat lon : R) :
  -180 <= lon ->
  exists zone letter e n,
    lat_lon_to_utm lat lon = Returns (zone, letter, e, n)
    /\ 100000 < e < 900000
    /\ (0 <= py_int (e / 100000) - 1 <= 7)%Z.
Proof.
  intros Hlon.
  destruct (lat_lon_to_utm_total lat lon) as [c [_ Hc]].
  do 4 eexists. split; [exact Hc |].
  set (zone := utm_zone lat lon).
  set (e := fst (utm_easting_northing zone lat lon)).
  assert (He : Rabs (e - 500000) <= 380000).
  { destruct (utm_zone_offset lat lon Hlon) as [Hd | [Hlat Hd]];
      fold zone in Hd.
    - eapply Rle_trans;
        [apply (utm_easting_offset_bound zone lat lon 3) |]; [| | lra].
      + apply Rabs_le. lra.
      + replace 3 with (3 * 1) by ring.
        apply Rabs_mult_le; [apply Rabs_le; lra |].
        apply Rabs_le. pose proof (COS_bound (radians lat)). lra.
    - pose proof (cos_radians_high_latitude lat Hlat) as Hcos.
      eapply Rle_trans;
        [apply (utm_easting_offset_bound zone lat lon (6 * (56 / 100))) |];
        [| | lra].
      + apply Rabs_le. lra.
      + apply Rabs_mult_le; apply Rabs_le; lra. }
  apply Rabs_le_between in He.
  split; [lra |].
  rewrite py_int_nonneg by lra.
  pose proof (Zfloor_range (e / 100000) 1 8) as Hr.
  lapply Hr; [clear Hr; intros Hr | simpl; lra].
  lapply Hr; [lia | simpl; lra].
Qed.

Lemma utm_easting_in_grid_witness :
  -180 <= 7
  /\ exists zone letter e n,
       lat_lon_to_utm 44 7 = Returns (zone, letter, e, n)
       /\ 100000 < e < 900000
       /\ (0 <= py_int (e / 100000) - 1 <= 7)%Z.
Proof.
  assert (H : -180 <= 7) by lra.
  split; [exact H | exact (utm_easting_in_grid 44 7 H)].
Defined.

(** ** The components of [dd_to_dms] *)

Lemma round_half_even_between (x : R) (a b : Z) :
  IZR a <= x <= IZR b -> (a <= round_half_even x <= b)%Z.
Proof.
  intros [Ha Hb].
  pose proof (Zfloor_bound x) as [Hlo Hhi].
  assert (Hfa : (a <= Zfloor x)%Z) by now apply Zfloor_lub.
  assert (Hfb : (Zfloor x <= b)%Z).
  { apply Z.lt_succ_r. apply lt_IZR. rewrite succ_IZR. lra. }
  assert (Hup : IZR (Zfloor x) < x -> (Zfloor x + 1 <= b)%Z).
  { intros Hlt. assert (Zfloor x < b)%Z; [apply lt_IZR; lra | lia]. }
  unfold round_half_even.
  destruct (Rlt_dec _ _) as [H1 | H1]; [lia |].
  destruct (Rlt_dec _ _) as [H2 | H2].
  - split; [lia | apply Hup; lra].
  - destruct (Z.even _); [lia |]. split; [lia | apply Hup; lra].
Qed.

Lemma py_round_2_between (x : R) (a b : Z) :
  IZR a <= x <= IZR b -> IZR a <= py_round x 2 <= IZR b.
Proof.
  intros H. unfold py_round.
  pose proof (round_half_even_between (x * 10 ^ 2) (a * 100) (b * 100)) as Hr.
  rewrite !mult_IZR in Hr.
  lapply Hr; [clear Hr; intros [H1 H2] | simpl; lra].
  apply IZR_le in H1, H2. rewrite mult_IZR in H1, H2.
  simpl pow. simpl IZR in H1, H2. lra.
Qed.

(** X21. For every decimal value, [dd_to_dms] returns whole degrees
    [deg = floor |dd|], minutes in 0..59 and seconds in [[0, 60]], with
    N or E for a value of at least 0 and S or W below 0 (N/S exactly when
    the axis is "lat"); the seconds do reach 60.0, outside the range of a
    DMS coordinate: 0.9999999 degrees gives 0 deg 59 min 60.0 s. *)
Theorem dd_to_dms_components (dd : R) (coord_type : string) :
  (exists deg minutes seconds direction,
     dd_to_dms dd coord_type = (deg, minutes, seconds, direction)
     /\ (0 <= deg)%Z /\ IZR deg <= Rabs dd < IZR deg + 1
     /\ (0 <= minutes <= 59)%Z
     /\ 0 <= seconds <= 60
     /\ (0 <= dd -> direction = if coord_type =? "lat" then "N" else "E")
     /\ (dd < 0 -> direction = if coord_type =? "lat" then "S" else "W"))%string
  /\ dd_to_dms (9999999 / 10000000) "lat" = (0%Z, 59%Z, 60, "N"%string).
Proof.
  split.
  - unfold dd_to_dms. do 4 eexists. split; [reflexivity |].
    pose proof (Rabs_pos dd) as Hy.
    set (y := Rabs dd) in *.
    rewrite (py_int_nonneg y Hy).
    pose proof (Zfloor_bound y) as [Hlo Hhi].
    set (deg := Zfloor y) in *.
    assert (Hdeg : (0 <= deg)%Z) by (apply Zfloor_lub; simpl; lra).
    assert (Hf : 0 <= (y - IZR deg) * 60 < 60) by lra.
    rewrite (py_int_nonneg _ (proj1 Hf)).
    pose proof (Zfloor_bound ((y - IZR deg) * 60)) as [Hmlo Hmhi].
    pose proof (Zfloor_range ((y - IZR deg) * 60) 0 59) as Hm.
    lapply Hm; [clear Hm; intros Hm | simpl; lra].
    lapply Hm; [clear Hm; intros Hm | simpl; lra].
    set (minutes := Zfloor ((y - IZR deg) * 60)) in *.
    split; [exact Hdeg |]. split; [lra |]. split; [exact Hm |].
    split.
    + pose proof (py_round_2_between
                    ((y - IZR deg - IZR minutes / 60) * 3600) 0 60) as Hs.
      simpl IZR in Hs. apply Hs. lra.
    + split; intros Hdd; destruct (Rle_dec 0 dd); try lra;
        destruct (coord_type =? "lat")%string; reflexivity.
  - unfold dd_to_dms.
    rewrite Rabs_pos_eq by lra.
    rewrite py_int_nonneg by lra.
    rewrite (Zfloor_eq 0) by (simpl; lra).
    rewrite py_int_nonneg by (simpl; lra).
    rewrite (Zfloor_eq 59) by (simpl; lra).
    destruct (Rle_dec 0 (9999999 / 10000000)) as [_ | H]; [| lra].
    cbn [String.eqb Ascii.eqb Bool.eqb andb].
    do 2 f_equal.
    unfold py_round, round_half_even.
    rewrite (Zfloor_eq 5999) by (simpl; lra).
    destruct (Rlt_dec _ _) as [H1 | H1]; [simpl in H1; lra |].
    destruct (Rlt_dec _ _) as [H2 | H2]; [| simpl in H2; lra].
    simpl. lra.
Qed.

(** ** The sign of [dms_to_dd] *)

Lemma round_half_even_opp (x : R) :
  round_half_even (- x) = (- round_half_even x)%Z.
Proof.
  pose proof (Zfloor_bound x) as [Hlo Hhi].
  destruct (Req_dec x (IZR (Zfloor x))) as [Hint | Hfrac].
  - assert (Hf : Zfloor (- x) = (- Zfloor x)%Z).
    { apply Zfloor_eq. rewrite opp_IZR. lra. }
    unfold round_half_even. rewrite Hf, opp_IZR.
    destruct (Rlt_dec (- x - - IZR (Zfloor x)) (1 / 2)) as [_ | H]; [| lra].
    destruct (Rlt_dec (x - IZR (Zfloor x)) (1 / 2)) as [_ | H]; [| lra].
    reflexivity.
  - assert (Hf : Zfloor (- x) = (- Zfloor x - 1)%Z).
    { apply Zfloor_eq. rewrite minus_IZR, opp_IZR. lra. }
    unfold round_half_even. rewrite Hf, minus_IZR, opp_IZR.
    replace (Z.even (- Zfloor x - 1)) with (negb (Z.even (Zfloor x)))
      by (rewrite Z.even_sub, Z.even_opp; cbn;
          now destruct (Z.even (Zfloor x))).
    destruct (Rlt_dec (x - IZR (Zfloor x)) (1 / 2)) as [H1 | H1];
      destruct (Rlt_dec (- x - (- IZR (Zfloor x) - 1)) (1 / 2)) as [H2 | H2];
      try lra.
    + destruct (Rlt_dec (1 / 2) (- x - (- IZR (Zfloor x) - 1))) as [H3 | H3];
        [lia | lra].
    + destruct (Rlt_dec (1 / 2) (x - IZR (Zfloor x))) as [H3 | H3];
        [lia | lra].
    + destruct (Rlt_dec (1 / 2) (x - IZR (Zfloor x))) as [H3 | H3]; [lra |].
      destruct (Rlt_dec (1 / 2) (- x - (- IZR (Zfloor x) - 1))) as [H4 | H4];
        [lra |].
      destruct (Z.even (Zfloor x)); cbn; lia.
Qed.

Lemma py_round_opp (x : R) (n : nat) : py_round (- x) n = - py_round x n.
Proof.
  unfold py_round.
  replace (- x * 10 ^ n) with (- (x * 10 ^ n)) by ring.
  rewrite round_half_even_opp, opp_IZR. unfold Rdiv. ring.
Qed.

(** X22. [dms_to_dd] negates for exactly the two directions "S" and "W":
    every other string (lower-case "s" and "w" included) gives the value
    of "N", and "S" and "W" give its exact opposite, rounding
    included. *)
Theorem dms_to_dd_direction (deg minutes : Z) (seconds : R)
  (direction : string) :
  exists v,
    dms_to_dd deg minutes seconds "N" = Returns v
    /\ dms_to_dd deg minutes seconds "S" = Returns (- v)
    /\ dms_to_dd deg minutes seconds "W" = Returns (- v)
    /\ dms_to_dd deg minutes seconds "s" = Returns v
    /\ (direction <> "S"%string -> direction <> "W"%string ->
        dms_to_dd deg minutes seconds direction = Returns v).
Proof.
  eexists. split; [reflexivity |].
  unfold dms_to_dd.
  split; [cbn [existsb String.eqb Ascii.eqb Bool.eqb andb orb];
          now rewrite py_round_opp |].
  split; [cbn [existsb String.eqb Ascii.eqb Bool.eqb andb orb];
          now rewrite py_round_opp |].
  split; [reflexivity |].
  intros HS HW. cbn [existsb].
  apply String.eqb_neq in HS, HW. rewrite HS, HW. reflexivity.
Qed.

(** ** The tile list covers its box *)

Lemma py_int_le (x y : R) : x <= y -> (py_int x <= py_int y)%Z.
Proof.
  intros H. unfold py_int.
  destruct (Rle_dec 0 x) as [Hx | Hx]; destruct (Rle_dec 0 y) as [Hy | Hy].
  - now apply Zfloor_le.
  - lra.
  - apply Z.le_trans with 0%Z.
    + pose proof (Zceil_bound x) as [Hc _].
      assert (Zceil x < 1)%Z by (apply lt_IZR; lra). lia.
    + apply Zfloor_lub. simpl. lra.
  - now apply Zceil_le.
Qed.

Lemma In_py_range (a b i : Z) : In i (py_range a b) <-> (a <= i < b)%Z.
Proof.
  unfold py_range. rewrite in_map_iff. split.
  - intros [k [<- Hk]]. apply in_seq in Hk. lia.
  - intros H. exists (Z.to_nat (i - a)). split; [lia |].
    apply in_seq. lia.
Qed.

Lemma radians_open_range (lat : R) :
  -90 < lat < 90 -> - (PI / 2) < radians lat < PI / 2.
Proof.
  intros H. pose proof PI_RGT_0. unfold radians. split; nra.
Qed.

(** [tan x + 1 / cos x] is the tangent of [PI / 4 + x / 2]. *)
Lemma secant_plus_tan (x : R) :
  - (PI / 2) < x < PI / 2 -> tan x + 1 / cos x = tan (PI / 4 + x / 2).
Proof.
  intros Hx.
  set (a := PI / 4 + x / 2).
  assert (Ha : 0 < a < PI / 2) by (unfold a; lra).
  assert (Hca : 0 < cos a) by (apply cos_gt_0; lra).
  assert (Hsa : 0 < sin a) by (apply sin_gt_0; lra).
  assert (Hs : sin x = - cos (2 * a)).
  { rewrite <- sin_shift, <- sin_neg. f_equal. unfold a. lra. }
  assert (Hc : cos x = sin (2 * a)).
  { rewrite <- cos_shift, <- cos_neg. f_equal. unfold a. lra. }
  unfold tan. rewrite Hs, Hc, cos_2a, sin_2a.
  pose proof (sin_cos_sqr a) as Hsq.
  assert (Hns : sin a <> 0) by lra.
  assert (Hnc : cos a <> 0) by lra.
  field_simplify_eq; [| auto].
  nra.
Qed.

Lemma lat_lon_to_tile_returns (lat lon : R) (zoom : Z) :
  -90 < lat < 90 ->
  0 < tan (radians lat) + 1 / cos (radians lat)
  /\ lat_lon_to_tile lat lon zoom
     = TileReturns (tile_x lon zoom, tile_y lat zoom).
Proof.
  intros Hlat. apply radians_open_range in Hlat.
  assert (Hpos : 0 < tan (radians lat) + 1 / cos (radians lat)).
  { rewrite (secant_plus_tan _ Hlat). apply tan_gt_0; lra. }
  split; [exact Hpos |].
  assert (Hc : 0 < cos (radians lat)) by (apply cos_gt_0; lra).
  unfold lat_lon_to_tile, py_truediv.
  destruct (Req_dec_T (cos (radians lat)) 0) as [H0 | _]; [lra |].
  cbn [tile_bind]. unfold py_log.
  destruct (Rlt_dec 0 _) as [_ | H]; [| contradiction].
  reflexivity.
Qed.

Lemma mercator_le (lat1 lat2 : R) :
  -90 < lat1 -> lat1 <= lat2 -> lat2 < 90 -> mercator lat1 <= mercator lat2.
Proof.
  intros H1 H12 H2.
  destruct (Req_dec lat1 lat2) as [-> | Hne]; [lra |].
  assert (Hr1 := radians_open_range lat1 ltac:(lra)).
  assert (Hr2 := radians_open_range lat2 ltac:(lra)).
  assert (Hlt : radians lat1 < radians lat2).
  { pose proof PI_RGT_0. unfold radians. nra. }
  unfold mercator.
  rewrite (secant_plus_tan _ Hr1), (secant_plus_tan _ Hr2).
  apply Rlt_le, ln_increasing.
  - apply tan_gt_0; lra.
  - apply tan_increasing; lra.
Qed.

Lemma tile_x_le (lon1 lon2 : R) (zoom : Z) :
  lon1 <= lon2 -> (tile_x lon1 zoom <= tile_x lon2 zoom)%Z.
Proof.
  intros H. unfold tile_x. apply py_int_le.
  pose proof (powerRZ_lt 2 zoom ltac:(lra)). nra.
Qed.

Lemma tile_y_le (lat1 lat2 : R) (zoom : Z) :
  -90 < lat1 -> lat1 <= lat2 -> lat2 < 90 ->
  (tile_y lat2 zoom <= tile_y lat1 zoom)%Z.
Proof.
  intros H1 H12 H2. unfold tile_y. apply py_int_le.
  pose proof (powerRZ_lt 2 zoom ltac:(lra)) as Hn.
  pose proof (mercator_le lat1 lat2 H1 H12 H2) as Hm.
  pose proof PI_RGT_0 as Hpi.
  assert (Hd : mercator lat1 / PI <= mercator lat2 / PI).
  { unfold Rdiv. apply Rmult_le_compat_r; [| exact Hm].
    apply Rlt_le, Rinv_0_lt_compat, Hpi. }
  nra.
Qed.

Lemma tiles_loop_returns (min_lat min_lon max_lat max_lon : R)
  (f : Z -> list (Z * Z * Z)) (zooms : list Z) (tiles : list (Z * Z * Z)) :
  (forall z, tiles_at_zoom min_lat min_lon max_lat max_lon z
             = TileReturns (f z)) ->
  tiles_loop min_lat min_lon max_lat max_lon zooms tiles
  = TileReturns (tiles ++ flat_map f zooms).
Proof.
  intros Hf. revert tiles.
  induction zooms as [| z zooms IH]; intros tiles; cbn [tiles_loop flat_map].
  - now rewrite app_nil_r.
  - rewrite Hf. cbn [tile_bind]. rewrite IH. now rewrite app_assoc.
Qed.

(** The tiles listed at one zoom level when both corners are off the
    poles. *)
Lemma get_tiles_for_bounds_returns (min_lat min_lon max_lat max_lon : R)
  (min_zoom max_zoom : Z) :
  -90 < min_lat < 90 -> -90 < max_lat < 90 ->
  get_tiles_for_bounds min_lat min_lon max_lat max_lon min_zoom max_zoom
  = TileReturns
      (flat_map
         (fun z =>
            flat_map
              (fun x => map (fun y => (z, x, y))
                            (py_range (tile_y max_lat z)
                                      (tile_y min_lat z + 1)))
              (py_range (tile_x min_lon z) (tile_x max_lon z + 1)))
         (py_range min_zoom (max_zoom + 1))).
Proof.
  intros Hmin Hmax. unfold get_tiles_for_bounds.
  rewrite (tiles_loop_returns _ _ _ _
             (fun z =>
                flat_map
                  (fun x => map (fun y => (z, x, y))
                                (py_range (tile_y max_lat z)
                                          (tile_y min_lat z + 1)))
                  (py_range (tile_x min_lon z) (tile_x max_lon z + 1)))).
  - reflexivity.
  - intros z. unfold tiles_at_zoom.
    rewrite (proj2 (lat_lon_to_tile_returns min_lat min_lon z Hmin)).
    cbn [tile_bind].
    rewrite (proj2 (lat_lon_to_tile_returns max_lat max_lon z Hmax)).
    reflexivity.
Qed.

Lemma In_tiles (min_lat min_lon max_lat max_lon : R) (min_zoom max_zoom : Z)
  (tiles : list (Z * Z * Z)) (z x y : Z) :
  -90 < min_lat < 90 -> -90 < max_lat < 90 ->
  get_tiles_for_bounds min_lat min_lon max_lat max_lon min_zoom max_zoom
  = TileReturns tiles ->
  In (z, x, y) tiles
  <-> (min_zoom <= z <= max_zoom)%Z
      /\ (tile_x min_lon z <= x <= tile_x max_lon z)%Z
      /\ (tile_y max_lat z <= y <= tile_y min_lat z)%Z.
Proof.
  intros Hmin Hmax Ht.
  rewrite (get_tiles_for_bounds_returns _ _ _ _ _ _ Hmin Hmax) in Ht.
  injection Ht as <-.
  rewrite in_flat_map. split.
  - intros [z' [Hz Hin]]. apply in_flat_map in Hin as [x' [Hx Hin]].
    apply in_map_iff in Hin as [y' [Heq Hy]].
    injection Heq as -> -> ->.
    apply In_py_range in Hz, Hx, Hy. lia.
  - intros (Hz & Hx & Hy). exists z. split; [apply In_py_range; lia |].
    apply in_flat_map. exists x. split; [apply In_py_range; lia |].
    apply in_map_iff. exists y. split; [reflexivity |].
    apply In_py_range. lia.
Qed.

(** X23. The tile list covers the box: when both corners are off the
    poles, [get_tiles_for_bounds] returns a list, and for every point
    of the box [[min_lat, max_lat] x [min_lon, max_lon]] and every zoom
    level in [[min_zoom, max_zoom]] the tile of that point, as
    [lat_lon_to_tile] computes it, is in the list. *)
Theorem get_tiles_for_bounds_covers
  (min_lat min_lon max_lat max_lon lat lon : R) (min_zoom max_zoom z : Z) :
  -90 < min_lat -> max_lat < 90 ->
  min_lat <= lat <= max_lat -> min_lon <= lon <= max_lon ->
  (min_zoom <= z <= max_zoom)%Z ->
  exists tiles x y,
    get_tiles_for_bounds min_lat min_lon max_lat max_lon min_zoom max_zoom
    = TileReturns tiles
    /\ lat_lon_to_tile lat lon z = TileReturns (x, y)
    /\ In (z, x, y) tiles.
Proof.
  intros Hmin Hmax Hlat Hlon Hz.
  assert (H1 : -90 < min_lat < 90) by lra.
  assert (H2 : -90 < max_lat < 90) by lra.
  eexists. exists (tile_x lon z), (tile_y lat z).
  split; [apply (get_tiles_for_bounds_returns _ _ _ _ _ _ H1 H2) |].
  split; [apply lat_lon_to_tile_returns; lra |].
  eapply In_tiles; [exact H1 | exact H2 | | ].
  - apply (get_tiles_for_bounds_returns _ _ _ _ _ _ H1 H2).
  - split; [exact Hz |]. split.
    + split; apply tile_x_le; lra.
    + split; apply tile_y_le; lra.
Qed.

Lemma get_tiles_for_bounds_covers_witness :
  -90 < 43 /\ 45 < 90 /\ 43 <= 44 <= 45 /\ 6 <= 7 <= 8
  /\ (1 <= 3 <= 5)%Z
  /\ exists tiles x y,
       get_tiles_for_bounds 43 6 45 8 1 5 = TileReturns tiles
       /\ lat_lon_to_tile 44 7 3 = TileReturns (x, y)
       /\ In (3%Z, x, y) tiles.
Proof.
  assert (H1 : -90 < 43) by lra.
  assert (H2 : 45 < 90) by lra.
  assert (H3 : 43 <= 44 <= 45) by lra.
  assert (H4 : 6 <= 7 <= 8) by lra.
  assert (H5 : (1 <= 3 <= 5)%Z) by lia.
  repeat (split; [assumption |]).
  exact (get_tiles_for_bounds_covers 43 6 45 8 44 7 1 5 3 H1 H2 H3 H4 H5).
Defined.

Lemma NoDup_map_injective {A B : Type} (f : A -> B) (l : list A) :
  (forall x y, In x l -> In y l -> f x = f y -> x = y) ->
  NoDup l -> NoDup (map f l).
Proof.
  intros Hinj Hl.
  induction Hl as [| a l Ha Hl IH]; cbn [map]; constructor.
  - intros Hin. apply in_map_iff in Hin as [b [Hb Hbl]].
    assert (b = a) by (apply Hinj; [now right | now left | exact Hb]).
    subst b. contradiction.
  - apply IH. intros x y Hx Hy. apply Hinj; now right.
Qed.

Lemma NoDup_py_range (a b : Z) : NoDup (py_range a b).
Proof.
  unfold py_range. apply NoDup_map_injective; [| apply seq_NoDup].
  intros x y _ _ H. lia.
Qed.

Lemma NoDup_flat_map {A B : Type} (f : A -> list B) (l : list A) :
  NoDup l ->
  (forall a, NoDup (f a)) ->
  (forall a b x, In x (f a) -> In x (f b) -> a = b) ->
  NoDup (flat_map f l).
Proof.
  intros Hl Hf Hdis.
  induction Hl as [| a l Ha Hl IH]; cbn [flat_map]; [constructor |].
  apply NoDup_app; [apply Hf | exact IH |].
  intros x Hx Hin. apply in_flat_map in Hin as [b [Hb Hxb]].
  pose proof (Hdis a b x Hx Hxb). subst b. contradiction.
Qed.

(** X24. [get_tiles_for_bounds] lists nothing else and nothing twice:
    when both corners are off the poles, a tile is in the list exactly
    when its zoom is in [[min_zoom, max_zoom]] and its column and row lie
    between those of the two corner tiles at that zoom, and the list has
    no duplicate; so when, at every zoom level of the range, the column
    of the [max_lon] corner is below that of the [min_lon] corner (the
    corners are exchanged, as for the longitudes 100 and -100 at zoom 1)
    the list is empty. *)
Theorem get_tiles_for_bounds_exact
  (min_lat min_lon max_lat max_lon : R) (min_zoom max_zoom : Z) :
  -90 < min_lat < 90 -> -90 < max_lat < 90 ->
  exists tiles,
    get_tiles_for_bounds min_lat min_lon max_lat max_lon min_zoom max_zoom
    = TileReturns tiles
    /\ (forall z x y,
          In (z, x, y) tiles
          <-> (min_zoom <= z <= max_zoom)%Z
              /\ (tile_x min_lon z <= x <= tile_x max_lon z)%Z
              /\ (tile_y max_lat z <= y <= tile_y min_lat z)%Z)
    /\ NoDup tiles
    /\ ((forall z, (min_zoom <= z <= max_zoom)%Z ->
                   (tile_x max_lon z < tile_x min_lon z)%Z) ->
        tiles = []).
Proof.
  intros Hmin Hmax.
  pose proof (get_tiles_for_bounds_returns min_lat min_lon max_lat max_lon
                min_zoom max_zoom Hmin Hmax) as Hr.
  eexists. split; [exact Hr |].
  assert (Hin := fun z x y => In_tiles _ _ _ _ _ _ _ z x y Hmin Hmax Hr).
  split; [exact Hin |]. split.
  - apply NoDup_flat_map; [apply NoDup_py_range | |].
    + intros z. apply NoDup_flat_map; [apply NoDup_py_range | |].
      * intros x. apply NoDup_map_injective; [| apply NoDup_py_range].
        intros y y' _ _ H. now injection H.
      * intros x x' t Ht Ht'.
        apply in_map_iff in Ht as [y [<- _]].
        apply in_map_iff in Ht' as [y' [H _]]. now injection H.
    + intros z z' t Ht Ht'.
      apply in_flat_map in Ht as [x [_ Ht]].
      apply in_map_iff in Ht as [y [<- _]].
      apply in_flat_map in Ht' as [x' [_ Ht']].
      apply in_map_iff in Ht' as [y' [H _]]. now injection H.
  - intros Hempty.
    match goal with |- ?l = [] => set (tiles := l) in * end.
    destruct tiles as [| [[z x] y] l']; [reflexivity |].
    exfalso.
    assert (Hi : In (z, x, y) ((z, x, y) :: l')) by (left; reflexivity).
    apply Hin in Hi. destruct Hi as [Hz Hi].
    specialize (Hempty z Hz). lia.
Qed.

Lemma tile_x_exchanged (z : Z) :
  (1 <= z <= 1)%Z -> (tile_x (-100) z < tile_x 100 z)%Z.
Proof.
  intros Hz. assert (z = 1%Z) by lia. subst z.
  unfold tile_x. replace (powerRZ 2 1) with 2 by (simpl; ring).
  rewrite !py_int_nonneg by lra.
  rewrite (Zfloor_eq 0) by (simpl; lra).
  rewrite (Zfloor_eq 1) by (simpl; lra). lia.
Qed.

Lemma get_tiles_for_bounds_exact_witness :
  (-90 < 43 < 90 /\ -90 < 45 < 90)
  /\ (exists tiles,
        get_tiles_for_bounds 43 6 45 8 1 5 = TileReturns tiles
        /\ (forall z x y,
              In (z, x, y) tiles
              <-> (1 <= z <= 5)%Z
                  /\ (tile_x 6 z <= x <= tile_x 8 z)%Z
                  /\ (tile_y 45 z <= y <= tile_y 43 z)%Z)
        /\ NoDup tiles
        /\ ((forall z, (1 <= z <= 5)%Z -> (tile_x 8 z < tile_x 6 z)%Z) ->
            tiles = []))
  /\ get_tiles_for_bounds 43 100 45 (-100) 1 1 = TileReturns [].
Proof.
  assert (H1 : -90 < 43 < 90) by lra.
  assert (H2 : -90 < 45 < 90) by lra.
  split; [split; [exact H1 | exact H2] |].
  split; [exact (get_tiles_for_bounds_exact 43 6 45 8 1 5 H1 H2) |].
  destruct (get_tiles_for_bounds_exact 43 100 45 (-100) 1 1 H1 H2)
    as [tiles [Hr [_ [_ Hempty]]]].
  rewrite Hr. f_equal. apply Hempty. exact tile_x_exchanged.
Defined.

(** ** Tiles inside the Mercator band *)

Lemma exp_pow_nat (x : R) (n : nat) : exp (INR n * x) = exp x ^ n.
Proof.
  induction n as [| n IH].
  - simpl. rewrite Rmult_0_l. apply exp_0.
  - rewrite S_INR, Rmult_plus_distr_r, Rmult_1_l, exp_plus, IH. simpl. ring.
Qed.

Lemma pow_1024 (a : R) :
  a ^ 1024 = (((((((((a ^ 2) ^ 2) ^ 2) ^ 2) ^ 2) ^ 2) ^ 2) ^ 2) ^ 2) ^ 2.
Proof. rewrite <- !pow_mult. reflexivity. Qed.

Lemma exp_PI_lower : 23 < exp PI.
Proof.
  pose proof PI_enclosure as Hpi.
  apply Rlt_le_trans with (exp (INR 1024 * (314159 / 102400000))).
  2:{ assert (E : INR 1024 * (314159 / 102400000) = 314159 / 100000).
      { rewrite INR_IZR_INZ. change (Z.of_nat 1024) with 1024%Z. lra. }
      rewrite E.
      destruct (Req_dec (314159 / 100000) PI) as [<- | Hne]; [lra |].
      apply Rlt_le, exp_increasing. lra. }
  rewrite exp_pow_nat.
  apply Rlt_le_trans with ((1 + 314159 / 102400000) ^ 1024).
  - rewrite pow_1024.
    match goal with |- _ < ?e => set (v := e) end.
    enclose_value He v. clearbody v.
    apply (within_sound _ (2301 # 100) (24 # 1)) in He.
    + unfold Q2R in He. cbn [Qnum Qden] in He. lra.
    + vm_compute. reflexivity.
  - apply pow_incr. split; [lra |].
    apply Rlt_le, exp_ineq1. lra.
Qed.

Lemma cotan_small : cos (PI / 72) / sin (PI / 72) < 23.
Proof.
  enclose_value He (cos (PI / 72) / sin (PI / 72)).
  apply (within_sound _ (22 # 1) (2295 # 100)) in He.
  - unfold Q2R in He. cbn [Qnum Qden] in He. lra.
  - vm_compute. reflexivity.
Qed.

Lemma mercator_85 : mercator 85 < PI.
Proof.
  unfold mercator.
  assert (Hr : - (PI / 2) < radians 85 < PI / 2)
    by (apply radians_open_range; lra).
  rewrite (secant_plus_tan _ Hr).
  replace (PI / 4 + radians 85 / 2) with (PI / 2 - PI / 72)
    by (unfold radians; lra).
  unfold tan. rewrite sin_shift, cos_shift.
  pose proof PI_RGT_0 as Hpi.
  assert (Hs : 0 < sin (PI / 72)) by (apply sin_gt_0; lra).
  assert (Hc : 0 < cos (PI / 72)) by (apply cos_gt_0; lra).
  apply Rlt_le_trans with (ln (exp PI)); [| rewrite ln_exp; lra].
  apply ln_increasing.
  - now apply Rdiv_lt_0_compat.
  - pose proof cotan_small. pose proof exp_PI_lower. lra.
Qed.

Lemma mercator_opp (lat : R) :
  -90 < lat < 90 -> mercator (- lat) = - mercator lat.
Proof.
  intros Hlat.
  assert (H1 := radians_open_range lat Hlat).
  assert (Hc : 0 < cos (radians lat)) by (apply cos_gt_0; lra).
  assert (Hpos : 0 < tan (radians lat) + 1 / cos (radians lat))
    by apply (lat_lon_to_tile_returns lat 0 0 Hlat).
  unfold mercator.
  replace (radians (- lat)) with (- radians lat) by (unfold radians; field).
  rewrite tan_neg, cos_neg.
  rewrite <- ln_Rinv by exact Hpos. f_equal.
  pose proof (sin_cos_sqr (radians lat)) as Hsq.
  unfold tan in *.
  apply (Rmult_eq_reg_r (sin (radians lat) / cos (radians lat)
                         + 1 / cos (radians lat))); [| lra].
  rewrite Rinv_l by lra.
  field_simplify_eq; [| lra]. nra.
Qed.

Lemma mercator_range (lat : R) :
  -85 <= lat <= 85 -> - PI < mercator lat < PI.
Proof.
  intros Hlat. pose proof mercator_85 as H85.
  split.
  - pose proof (mercator_le (-85) lat) as H.
    lapply H; [clear H; intros H | lra].
    lapply H; [clear H; intros H | lra].
    lapply H; [clear H; intros H | lra].
    assert (E : mercator (-85) = - mercator 85).
    { rewrite <- mercator_opp by lra. reflexivity. }
    lra.
  - pose proof (mercator_le lat 85) as H.
    lapply H; [clear H; intros H | lra].
    lapply H; [clear H; intros H | lra].
    lapply H; [lra | lra].
Qed.

Lemma powerRZ_2_IZR (zoom : Z) :
  (0 <= zoom)%Z -> powerRZ 2 zoom = IZR (2 ^ zoom).
Proof.
  intros Hz. rewrite <- (Z2Nat.id zoom Hz) at 1.
  rewrite <- pow_powerRZ, pow_IZR, Z2Nat.id by exact Hz. reflexivity.
Qed.

Lemma py_int_below (v : R) (n : Z) :
  0 <= v < IZR n -> (0 <= py_int v < n)%Z.
Proof.
  intros [H0 Hn]. rewrite py_int_nonneg by exact H0.
  pose proof (Zfloor_bound v) as [Hlo Hhi].
  split; [apply Zfloor_lub; simpl; lra |].
  apply lt_IZR. lra.
Qed.

(** X25. [lat_lon_to_tile] stays on the grid of its zoom level inside
    the Mercator band: for a zoom of at least 0, a latitude in
    [[-85, 85]] and a longitude in [[-180, 180)] it returns a column and
    a row in [[0, 2^zoom)]; at the longitude 180 exactly the column is
    [2^zoom], one past the last column, and on the equator the row is
    [2^zoom / 2] (integer division). *)
Theorem lat_lon_to_tile_on_grid (lat lon : R) (zoom : Z) :
  (0 <= zoom)%Z -> -85 <= lat <= 85 ->
  (-180 <= lon < 180 ->
   exists x y, lat_lon_to_tile lat lon zoom = TileReturns (x, y)
               /\ (0 <= x < 2 ^ zoom)%Z /\ (0 <= y < 2 ^ zoom)%Z)
  /\ (exists y, lat_lon_to_tile lat 180 zoom = TileReturns ((2 ^ zoom)%Z, y))
  /\ (exists x, lat_lon_to_tile 0 lon zoom
                = TileReturns (x, (2 ^ zoom / 2)%Z)).
Proof.
  intros Hz Hlat.
  pose proof (powerRZ_2_IZR zoom Hz) as Hn.
  assert (Hpos : 0 < IZR (2 ^ zoom)).
  { rewrite <- Hn. apply powerRZ_lt. lra. }
  split; [| split].
  - intros Hlon. exists (tile_x lon zoom), (tile_y lat zoom).
    split; [apply lat_lon_to_tile_returns; lra |].
    split.
    + unfold tile_x. rewrite Hn. apply py_int_below. split; [nra |].
      assert ((lon + 180) / 360 < 1) by lra. nra.
    + unfold tile_y. rewrite Hn. apply py_int_below.
      pose proof (mercator_range lat Hlat) as [Hlo Hhi].
      pose proof PI_RGT_0 as Hpi.
      assert (Hq : -1 < mercator lat / PI < 1).
      { split.
        - apply (Rmult_lt_reg_r PI); [lra |].
          unfold Rdiv. rewrite Rmult_assoc, Rinv_l by lra. lra.
        - apply (Rmult_lt_reg_r PI); [lra |].
          unfold Rdiv. rewrite Rmult_assoc, Rinv_l by lra. lra. }
      split; nra.
  - exists (tile_y lat zoom).
    rewrite (proj2 (lat_lon_to_tile_returns lat 180 zoom ltac:(lra))).
    do 2 f_equal. unfold tile_x. rewrite Hn.
    replace ((180 + 180) / 360 * IZR (2 ^ zoom)) with (IZR (2 ^ zoom))
      by field.
    rewrite py_int_nonneg by lra. apply ZfloorZ.
  - exists (tile_x lon zoom).
    rewrite (proj2 (lat_lon_to_tile_returns 0 lon zoom ltac:(lra))).
    do 2 f_equal. unfold tile_y, mercator.
    rewrite radians_0, tan_0, cos_0.
    replace (0 + 1 / 1) with 1 by field. rewrite ln_1, Hn.
    replace ((1 - 0 / PI) / 2 * IZR (2 ^ zoom)) with (IZR (2 ^ zoom) / 2)
      by (unfold Rdiv; ring).
    rewrite py_int_nonneg by lra.
    apply Zfloor_eq.
    pose proof (Z.div_mod (2 ^ zoom) 2 ltac:(lia)) as Hdm.
    pose proof (Z.mod_pos_bound (2 ^ zoom) 2 ltac:(lia)) as Hm.
    assert (E : IZR (2 ^ zoom)
                = 2 * IZR (2 ^ zoom / 2) + IZR ((2 ^ zoom) mod 2)).
    { rewrite <- mult_IZR, <- plus_IZR. f_equal. exact Hdm. }
    assert (H0 : 0 <= IZR ((2 ^ zoom) mod 2)) by (apply IZR_le; lia).
    assert (H1 : IZR ((2 ^ zoom) mod 2) <= 1) by (apply IZR_le; lia).
    lra.
Qed.

Lemma lat_lon_to_tile_on_grid_witness :
  (0 <= 3)%Z /\ -85 <= 44 <= 85
  /\ (-180 <= 7 < 180 ->
      exists x y, lat_lon_to_tile 44 7 3 = TileReturns (x, y)
                  /\ (0 <= x < 2 ^ 3)%Z /\ (0 <= y < 2 ^ 3)%Z)
  /\ (exists y, lat_lon_to_tile 44 180 3 = TileReturns ((2 ^ 3)%Z, y))
  /\ (exists x, lat_lon_to_tile 0 7 3 = TileReturns (x, (2 ^ 3 / 2)%Z)).
Proof.
  assert (H1 : (0 <= 3)%Z) by lia.
  assert (H2 : -85 <= 44 <= 85) by lra.
  split; [exact H1 |]. split; [exact H2 |].
  exact (lat_lon_to_tile_on_grid 44 7 3 H1 H2).
Defined.

(** ** The shape of an MGRS string *)

Lemma usize_nb_digits (d : Decimal.uint) :
  DecimalPos.Unsigned.usize d = N.of_nat (Decimal.nb_digits d).
Proof.
  induction d; cbn [DecimalPos.Unsigned.usize Decimal.nb_digits];
    rewrite ?IHd; lia.
Qed.

Lemma of_uint_acc_lower (d : Decimal.uint) (acc : positive) :
  (10 ^ N.of_nat (Decimal.nb_digits d) <= Npos (Pos.of_uint_acc d acc))%N.
Proof.
  rewrite DecimalPos.Unsigned.of_uint_acc_rev, usize_nb_digits.
  assert (H : (1 <= Npos acc)%N) by lia.
  nia.
Qed.

Lemma pos_to_uint_lower (p : positive) :
  (10 ^ N.of_nat (Decimal.nb_digits (Pos.to_uint p) - 1) <= Npos p)%N.
Proof.
  pose proof (DecimalPos.Unsigned.of_to p) as Hof.
  pose proof (DecimalPos.Unsigned.to_of (Pos.to_uint p)) as Hnorm.
  rewrite Hof in Hnorm. cbn [N.to_uint] in Hnorm.
  pose proof (DecimalPos.Unsigned.to_uint_nonzero p) as Hnz.
  destruct (Pos.to_uint p) as [| d | d | d | d | d | d | d | d | d | d];
    cbn [Decimal.nb_digits Nat.sub]; rewrite ?Nat.sub_0_r;
    try (cbn [Pos.of_uint] in Hof; injection Hof as <-;
         apply of_uint_acc_lower).
  - cbn. lia.
  - exfalso. unfold Decimal.unorm in Hnorm. cbn [Decimal.nzhead] in Hnorm.
    pose proof (DecimalFacts.nb_digits_nzhead d) as Hle.
    destruct (Decimal.nzhead d) eqn:E; cbv beta iota in Hnorm;
      [injection Hnorm as Hd; subst d;
       now apply Hnz
      | rewrite <- Hnorm in Hle; cbn [Decimal.nb_digits] in Hle; lia ..].
Qed.

Lemma to_uint_digits (n : N) :
  (n < 100000)%N -> (1 <= Decimal.nb_digits (N.to_uint n) <= 5)%nat.
Proof.
  intros Hn. destruct n as [| p]; [cbn; lia |].
  cbn [N.to_uint].
  pose proof (pos_to_uint_lower p) as Hlow.
  pose proof (DecimalPos.Unsigned.to_uint_nonnil p) as Hnil.
  destruct (Pos.to_uint p) eqn:E; try congruence;
    cbn [Decimal.nb_digits Nat.sub] in *; rewrite Nat.sub_0_r in Hlow;
    (split; [lia |]);
    (destruct (Nat.le_gt_cases (Decimal.nb_digits u) 4) as [Hle | Hgt];
     [lia | exfalso;
      assert (H5 : (10 ^ 5 <= 10 ^ N.of_nat (Decimal.nb_digits u))%N)
        by (apply N.pow_le_mono_r; lia);
      change (10 ^ 5)%N with 100000%N in H5; lia]).
Qed.

Lemma string_length_append (s1 s2 : string) :
  String.length (s1 ++ s2) = (String.length s1 + String.length s2)%nat.
Proof.
  induction s1 as [| c s1 IH]; cbn [append String.length]; [reflexivity |].
  now rewrite IH.
Qed.

Lemma zeros_length (n : nat) : String.length (zeros n) = n.
Proof.
  induction n as [| n IH]; cbn [zeros String.length]; [reflexivity |].
  now rewrite IH.
Qed.

Lemma string_of_uint_length (d : Decimal.uint) :
  String.length (NilEmpty.string_of_uint d) = Decimal.nb_digits d.
Proof.
  induction d;
    cbn [NilEmpty.string_of_uint String.length Decimal.nb_digits];
    rewrite ?IHd; reflexivity.
Qed.

Lemma all_digits_append (s1 s2 : string) :
  all_digits s1 -> all_digits s2 -> all_digits (s1 ++ s2).
Proof.
  unfold all_digits. intros H1 H2.
  induction s1 as [| c s1 IH]; cbn [append list_ascii_of_string] in *;
    [exact H2 |].
  inversion H1; subst. constructor; [assumption | now apply IH].
Qed.

Lemma all_digits_zeros (n : nat) : all_digits (zeros n).
Proof.
  unfold all_digits.
  induction n as [| n IH]; cbn [zeros list_ascii_of_string]; constructor;
    [cbn; tauto | exact IH].
Qed.

Lemma all_digits_string_of_uint (d : Decimal.uint) :
  all_digits (NilEmpty.string_of_uint d).
Proof.
  unfold all_digits.
  induction d; cbn [NilEmpty.string_of_uint list_ascii_of_string];
    constructor; try exact IHd; cbn; tauto.
Qed.

(** [f"{z:05d}"] on an integer of at most five digits. *)
Lemma format_05d_five_digits (z : Z) :
  (0 <= z < 100000)%Z ->
  String.length (format_05d z) = 5%nat /\ all_digits (format_05d z).
Proof.
  intros Hz. unfold format_05d.
  destruct (Z.ltb_spec z 0) as [Hneg | _]; [lia |].
  pose proof (to_uint_digits (Z.abs_N z) ltac:(lia)) as Hd.
  pose proof (DecimalPos.Unsigned.to_uint_nonnil) as Hp.
  assert (E : NilZero.string_of_uint (N.to_uint (Z.abs_N z))
              = NilEmpty.string_of_uint (N.to_uint (Z.abs_N z))).
  { destruct (N.to_uint (Z.abs_N z)); try reflexivity.
    cbn in Hd. lia. }
  rewrite E. split.
  - rewrite string_length_append, zeros_length, string_of_uint_length. lia.
  - apply all_digits_append;
      [apply all_digits_zeros | apply all_digits_string_of_uint].
Qed.

Lemma py_fmod_range (x m : R) : 0 < m -> 0 <= py_fmod x m < m.
Proof.
  intros Hm. unfold py_fmod.
  pose proof (Zfloor_bound (x / m)) as [Hlo Hhi].
  assert (E : x = m * (x / m)) by (field; lra).
  split.
  - assert (m * IZR (Zfloor (x / m)) <= m * (x / m))
      by (apply Rmult_le_compat_l; lra).
    lra.
  - assert (m * (x / m) < m * (IZR (Zfloor (x / m)) + 1))
      by (apply Rmult_lt_compat_l; lra).
    lra.
Qed.

Lemma string_get_In (s : string) (n : nat) (c : ascii) :
  String.get n s = Some c -> In c (list_ascii_of_string s).
Proof.
  revert n. induction s as [| a s IH]; intros n H; [discriminate |].
  destruct n as [| n]; cbn [String.get list_ascii_of_string] in *.
  - injection H as ->. now left.
  - right. now apply (IH n).
Qed.

Lemma mgrs_col_set_in (zone : Z) :
  let set_number := (zone mod 6)%Z in
  let set_number := if (set_number =? 0)%Z then 6%Z else set_number in
  exists col_set,
    list_index
      ["ABCDEFGH"; "JKLMNPQR"; "STUVWXYZ"; "ABCDEFGH"; "JKLMNPQR"; "STUVWXYZ"]%string
      (set_number - 1) = Returns col_set
    /\ In col_set ["ABCDEFGH"; "JKLMNPQR"; "STUVWXYZ"]%string.
Proof.
  intros set_number set_number'.
  assert (H : (0 <= zone mod 6 < 6)%Z) by (apply Z.mod_pos_bound; lia).
  fold set_number in H.
  assert (Hs : (set_number' - 1 = 0 \/ set_number' - 1 = 1
                \/ set_number' - 1 = 2 \/ set_number' - 1 = 3
                \/ set_number' - 1 = 4 \/ set_number' - 1 = 5)%Z).
  { unfold set_number'. destruct (Z.eqb_spec set_number 0); lia. }
  destruct Hs as [-> | [-> | [-> | [-> | [-> | ->]]]]];
    eexists; (split; [reflexivity | cbn; tauto]).
Qed.

(** X26. Whatever the input, [lat_lon_to_mgrs] returns a string of one
    shape: the zone number, the band letter, a space, a column letter
    and a row letter that are never I or O (the column among A..H, J..N,
    P..Z, the row among A..H, J..N, P..V), a space, and two fields of
    exactly five decimal digits separated by a space. *)
Theorem lat_lon_to_mgrs_shape (lat lon : R) :
  exists band col row e n,
    lat_lon_to_mgrs lat lon
    = Returns (format_d (utm_zone lat lon) ++ String band " "
               ++ String col (String row " ") ++ e ++ " " ++ n)%string
    /\ utm_letter lat = Returns band
    /\ In col (list_ascii_of_string "ABCDEFGHJKLMNPQRSTUVWXYZ")
    /\ In row (list_ascii_of_string "ABCDEFGHJKLMNPQRSTUV")
    /\ String.length e = 5%nat /\ all_digits e
    /\ String.length n = 5%nat /\ all_digits n.
Proof.
  destruct (lat_lon_to_utm_total lat lon) as [letter [Hl Hu]].
  set (zone := utm_zone lat lon) in *.
  set (easting := fst (utm_easting_northing zone lat lon)) in *.
  set (northing := snd (utm_easting_northing zone lat lon)) in *.
  destruct (mgrs_col_set_in zone) as [col_set [Hset Hin]].
  set (col_idx := Z.max 0 (Z.min 7 (py_int (easting / 100000) - 1))).
  destruct (str_index_in_bounds col_set col_idx) as [col_letter [Hcol Hget]].
  { unfold col_idx.
    destruct Hin as [<- | [<- | [<- | []]]]; simpl; lia. }
  set (row_idx := (py_int (northing / 100000) mod 20)%Z).
  destruct (str_index_in_bounds "ABCDEFGHJKLMNPQRSTUV" (row_idx mod 20))
    as [row_letter [Hrow Hrget]].
  { simpl. apply Z.mod_pos_bound. lia. }
  exists letter, col_letter, row_letter,
    (format_05d (py_int (py_fmod easting 100000))),
    (format_05d (py_int (py_fmod northing 100000))).
  split.
  { unfold lat_lon_to_mgrs. rewrite Hu. cbn [bind].
    fold zone. rewrite Hset. cbn [bind].
    rewrite mgrs_col_idx_clamped. fold col_idx. rewrite Hcol. cbn [bind].
    fold row_idx. rewrite Hrow. cbn [bind]. reflexivity. }
  split; [exact Hl |].
  split.
  { apply string_get_In in Hget.
    destruct Hin as [<- | [<- | [<- | []]]]; cbn in Hget |- *; tauto. }
  split; [now apply string_get_In in Hrget |].
  assert (Hf : forall x, (0 <= py_int (py_fmod x 100000) < 100000)%Z).
  { intros x. apply py_int_below. apply py_fmod_range. lra. }
  destruct (format_05d_five_digits _ (Hf easting)) as [H1 H2].
  destruct (format_05d_five_digits _ (Hf northing)) as [H3 H4].
  repeat split; assumption.
Qed.

(** ** Tile URLs *)

Lemma replace_from_pass (a : ascii) (o new pre rest : string) :
  Forall (fun c => c <> a) (list_ascii_of_string pre) ->
  replace_from (String a o) new (pre ++ rest) 0
  = (pre ++ replace_from (String a o) new rest 0)%string.
Proof.
  induction pre as [| c pre IH]; intros H; cbn [append]; [reflexivity |].
  cbn [list_ascii_of_string] in H. inversion H as [| ? ? Hc Hpre]; subst.
  cbn [replace_from String.prefix].
  destruct (ascii_dec a c) as [E | _]; [now subst |].
  now rewrite IH.
Qed.

Lemma prefix_append (old post : string) :
  String.prefix old (old ++ post) = true.
Proof.
  induction old as [| a old IH]; cbn [append].
  - destruct post; reflexivity.
  - cbn [String.prefix].
    destruct (ascii_dec a a) as [_ | H]; [exact IH | contradiction].
Qed.

Lemma replace_from_skip (old new t post : string) :
  replace_from old new (t ++ post) (String.length t)
  = replace_from old new post 0.
Proof.
  induction t as [| c t IH]; cbn [append String.length]; [| exact IH].
  destruct post; reflexivity.
Qed.

Lemma replace_from_hit (a : ascii) (o new post : string) :
  replace_from (String a o) new (String a o ++ post) 0
  = (new ++ replace_from (String a o) new post 0)%string.
Proof.
  pose proof (prefix_append (String a o) post) as Hp.
  cbn [append] in Hp |- *. cbn [replace_from]. rewrite Hp.
  cbn [String.length]. rewrite Nat.sub_succ, Nat.sub_0_r.
  now rewrite replace_from_skip.
Qed.

Lemma string_of_uint_no_brace (d : Decimal.uint) :
  Forall (fun c => c <> "{"%char)
         (list_ascii_of_string (NilEmpty.string_of_uint d)).
Proof.
  induction d; cbn [NilEmpty.string_of_uint list_ascii_of_string];
    constructor; try exact IHd; discriminate.
Qed.

Lemma format_d_no_brace (z : Z) :
  Forall (fun c => c <> "{"%char) (list_ascii_of_string (format_d z)).
Proof.
  unfold format_d, NilZero.string_of_int.
  destruct (Z.to_int z) as [d | d].
  - unfold NilZero.string_of_uint.
    destruct d; try apply string_of_uint_no_brace.
    repeat constructor; discriminate.
  - cbn [list_ascii_of_string]. constructor; [discriminate |].
    unfold NilZero.string_of_uint.
    destruct d; try apply string_of_uint_no_brace.
    repeat constructor; discriminate.
Qed.

(** The three replacements of [get_tile_url] on a URL whose
    placeholders come in the order [{z}], [{x}], [{y}], between texts
    without an opening brace before them. *)
Lemma replace_zxy (pre mid1 mid2 post : string) (z x y : Z) :
  Forall (fun c => c <> "{"%char) (list_ascii_of_string pre) ->
  Forall (fun c => c <> "{"%char) (list_ascii_of_string mid1) ->
  Forall (fun c => c <> "{"%char) (list_ascii_of_string mid2) ->
  str_replace post "{z}" (format_d z) = post ->
  str_replace post "{x}" (format_d x) = post ->
  str_replace post "{y}" (format_d y) = post ->
  str_replace
    (str_replace
       (str_replace (pre ++ "{z}" ++ mid1 ++ "{x}" ++ mid2 ++ "{y}" ++ post)
                    "{z}" (format_d z))
       "{x}" (format_d x))
    "{y}" (format_d y)
  = (pre ++ format_d z ++ mid1 ++ format_d x ++ mid2 ++ format_d y
     ++ post)%string.
Proof.
  intros Hpre H1 H2 Pz Px Py.
  pose proof (format_d_no_brace z) as Hz.
  pose proof (format_d_no_brace x) as Hx.
  unfold str_replace in *.
  assert (Ez : replace_from "{z}" (format_d z)
                 (pre ++ "{z}" ++ mid1 ++ "{x}" ++ mid2 ++ "{y}" ++ post) 0
               = (pre ++ format_d z ++ mid1 ++ "{x}" ++ mid2 ++ "{y}"
                  ++ post)%string).
  { rewrite replace_from_pass by exact Hpre.
    rewrite replace_from_hit.
    rewrite replace_from_pass by exact H1.
    change ("{x}" ++ mid2 ++ "{y}" ++ post)%string
      with (String "{" (String "x" (String "}" (mid2 ++ "{y}" ++ post)))).
    cbn [replace_from String.prefix].
    destruct (ascii_dec "{" "{") as [_ | H]; [| contradiction].
    destruct (ascii_dec "z" "x") as [H | _]; [discriminate |].
    cbn [replace_from String.prefix].
    destruct (ascii_dec "{" "x") as [H | _]; [discriminate |].
    destruct (ascii_dec "{" "}") as [H | _]; [discriminate |].
    cbn [replace_from].
    rewrite replace_from_pass by exact H2.
    change ("{y}" ++ post)%string
      with (String "{" (String "y" (String "}" post))).
    cbn [replace_from String.prefix].
    destruct (ascii_dec "{" "{") as [_ | H]; [| contradiction].
    destruct (ascii_dec "z" "y") as [H | _]; [discriminate |].
    cbn [replace_from String.prefix].
    destruct (ascii_dec "{" "y") as [H | _]; [discriminate |].
    destruct (ascii_dec "{" "}") as [H | _]; [discriminate |].
    cbn [replace_from]. rewrite Pz. reflexivity. }
  rewrite Ez.
  assert (Ex : replace_from "{x}" (format_d x)
                 (pre ++ format_d z ++ mid1 ++ "{x}" ++ mid2 ++ "{y}"
                  ++ post) 0
               = (pre ++ format_d z ++ mid1 ++ format_d x ++ mid2 ++ "{y}"
                  ++ post)%string).
  { rewrite replace_from_pass by exact Hpre.
    rewrite replace_from_pass by exact Hz.
    rewrite replace_from_pass by exact H1.
    rewrite replace_from_hit.
    rewrite replace_from_pass by exact H2.
    change ("{y}" ++ post)%string
      with (String "{" (String "y" (String "}" post))).
    cbn [replace_from String.prefix].
    destruct (ascii_dec "{" "{") as [_ | H]; [| contradiction].
    destruct (ascii_dec "x" "y") as [H | _]; [discriminate |].
    cbn [replace_from String.prefix].
    destruct (ascii_dec "{" "y") as [H | _]; [discriminate |].
    destruct (ascii_dec "{" "}") as [H | _]; [discriminate |].
    cbn [replace_from]. rewrite Px. reflexivity. }
  rewrite Ex.
  rewrite replace_from_pass by exact Hpre.
  rewrite replace_from_pass by exact Hz.
  rewrite replace_from_pass by exact H1.
  rewrite replace_from_pass by exact Hx.
  rewrite replace_from_pass by exact H2.
  rewrite replace_from_hit. rewrite Py. reflexivity.
Qed.
Ltac no_brace := repeat constructor; discriminate.

Ltac reduce_list_index :=
  match goal with
  | |- context [list_index ?l ?k] =>
      let v := eval vm_compute in (list_index l k) in
      change (list_index l k) with v
  end;
  cbn [bind].

Lemma dict_get_missing {V : Type} (d : list (string * V)) (key : string)
  (default : V) :
  (forall v, ~ In (key, v) d) -> dict_get d key default = default.
Proof.
  induction d as [| [k v] d IH]; intros H; cbn [dict_get]; [reflexivity |].
  destruct (String.eqb_spec key k) as [-> | _].
  - exfalso. apply (H v). now left.
  - apply IH. intros v' Hin. apply (H v'). now right.
Qed.

(** X27. [get_tile_url] never fails and falls back on OpenStreetMap for
    a key that is not in [TILE_PROVIDERS]; for "osm" it returns
    [https://<s>.tile.openstreetmap.org/<z>/<x>/<y>.png], the subdomain
    [<s>] being the entry [subdomain_index mod 3] of a, b, c (also for a
    negative index); for "cartodb-dark" the placeholder [{r}] of the
    URL is never replaced and stays in the address that is requested. *)
Theorem get_tile_url_forms (provider_key : string) (z x y i : Z) :
  (exists u, get_tile_url provider_key z x y i = Returns u)
  /\ ((forall p, ~ In (provider_key, p) TILE_PROVIDERS) ->
      get_tile_url provider_key z x y i = get_tile_url "osm" z x y i)
  /\ (exists s,
        list_index ["a"; "b"; "c"]%string (i mod 3) = Returns s
        /\ get_tile_url "osm" z x y i
           = Returns ("https://" ++ s ++ ".tile.openstreetmap.org/"
                      ++ format_d z ++ "/" ++ format_d x ++ "/"
                      ++ format_d y ++ ".png")%string)
  /\ (exists s,
        list_index ["a"; "b"; "c"; "d"]%string (i mod 4) = Returns s
        /\ get_tile_url "cartodb-dark" z x y i
           = Returns ("https://" ++ s ++ ".basemaps.cartocdn.com/dark_all/"
                      ++ format_d z ++ "/" ++ format_d x ++ "/"
                      ++ format_d y ++ "{r}.png")%string).
Proof.
  split; [| split; [| split]].
  - unfold get_tile_url.
    set (provider := dict_get TILE_PROVIDERS provider_key provider_osm).
    destruct (subdomains provider) as [| s0 subs] eqn:E.
    + cbn [bind]. eexists. reflexivity.
    + set (l := s0 :: subs).
      assert (Hl : (0 < Z.of_nat (List.length l))%Z) by (cbn; lia).
      pose proof (Z.mod_pos_bound i _ Hl) as Hm.
      unfold list_index.
      destruct (Z.ltb_spec (i mod Z.of_nat (List.length l)) 0) as [? | _];
        [lia |].
      destruct (Z.ltb_spec (i mod Z.of_nat (List.length l)) 0) as [? | _];
        [lia |].
      destruct (nth_error l (Z.to_nat (i mod Z.of_nat (List.length l))))
        eqn:En.
      * cbn [bind]. eexists. reflexivity.
      * apply nth_error_None in En. lia.
  - intros Hmiss. unfold get_tile_url.
    rewrite (dict_get_missing _ _ _ Hmiss). reflexivity.
  - unfold get_tile_url.
    change (dict_get TILE_PROVIDERS "osm" provider_osm) with provider_osm.
    cbn [url subdomains provider_osm List.length].
    change (Z.of_nat 3) with 3%Z.
    pose proof (Z.mod_pos_bound i 3 ltac:(lia)) as Hm.
    assert (Hc : (i mod 3 = 0 \/ i mod 3 = 1 \/ i mod 3 = 2)%Z) by lia.
    destruct Hc as [-> | [-> | ->]]; eexists; (split; [reflexivity |]);
      reduce_list_index.
    + replace (str_replace
                 "https://{s}.tile.openstreetmap.org/{z}/{x}/{y}.png"
                 "{s}" "a")
        with ("https://a.tile.openstreetmap.org/" ++ "{z}" ++ "/" ++ "{x}"
              ++ "/" ++ "{y}" ++ ".png")%string by reflexivity.
      rewrite (replace_zxy "https://a.tile.openstreetmap.org/" "/" "/" ".png" z x y); [reflexivity | no_brace .. | | |]; reflexivity.
    + replace (str_replace
                 "https://{s}.tile.openstreetmap.org/{z}/{x}/{y}.png"
                 "{s}" "b")
        with ("https://b.tile.openstreetmap.org/" ++ "{z}" ++ "/" ++ "{x}"
              ++ "/" ++ "{y}" ++ ".png")%string by reflexivity.
      rewrite (replace_zxy "https://b.tile.openstreetmap.org/" "/" "/" ".png" z x y); [reflexivity | no_brace .. | | |]; reflexivity.
    + replace (str_replace
                 "https://{s}.tile.openstreetmap.org/{z}/{x}/{y}.png"
                 "{s}" "c")
        with ("https://c.tile.openstreetmap.org/" ++ "{z}" ++ "/" ++ "{x}"
              ++ "/" ++ "{y}" ++ ".png")%string by reflexivity.
      rewrite (replace_zxy "https://c.tile.openstreetmap.org/" "/" "/" ".png" z x y); [reflexivity | no_brace .. | | |]; reflexivity.
  - unfold get_tile_url.
    change (dict_get TILE_PROVIDERS "cartodb-dark" provider_osm)
      with provider_cartodb_dark.
    cbn [url subdomains provider_cartodb_dark List.length].
    change (Z.of_nat 4) with 4%Z.
    pose proof (Z.mod_pos_bound i 4 ltac:(lia)) as Hm.
    assert (Hc : (i mod 4 = 0 \/ i mod 4 = 1 \/ i mod 4 = 2
                  \/ i mod 4 = 3)%Z) by lia.
    destruct Hc as [-> | [-> | [-> | ->]]]; eexists;
      (split; [reflexivity |]); reduce_list_index.
    + replace (str_replace
                 "https://{s}.basemaps.cartocdn.com/dark_all/{z}/{x}/{y}{r}.png"
                 "{s}" "a")
        with ("https://a.basemaps.cartocdn.com/dark_all/" ++ "{z}" ++ "/" ++ "{x}"
              ++ "/" ++ "{y}" ++ "{r}.png")%string by reflexivity.
      rewrite (replace_zxy "https://a.basemaps.cartocdn.com/dark_all/" "/" "/" "{r}.png" z x y);
        [reflexivity | no_brace .. | | |]; reflexivity.
    + replace (str_replace
                 "https://{s}.basemaps.cartocdn.com/dark_all/{z}/{x}/{y}{r}.png"
                 "{s}" "b")
        with ("https://b.basemaps.cartocdn.com/dark_all/" ++ "{z}" ++ "/" ++ "{x}"
              ++ "/" ++ "{y}" ++ "{r}.png")%string by reflexivity.
      rewrite (replace_zxy "https://b.basemaps.cartocdn.com/dark_all/" "/" "/" "{r}.png" z x y);
        [reflexivity | no_brace .. | | |]; reflexivity.
    + replace (str_replace
                 "https://{s}.basemaps.cartocdn.com/dark_all/{z}/{x}/{y}{r}.png"
                 "{s}" "c")
        with ("https://c.basemaps.cartocdn.com/dark_all/" ++ "{z}" ++ "/" ++ "{x}"
              ++ "/" ++ "{y}" ++ "{r}.png")%string by reflexivity.
      rewrite (replace_zxy "https://c.basemaps.cartocdn.com/dark_all/" "/" "/" "{r}.png" z x y);
        [reflexivity | no_brace .. | | |]; reflexivity.
    + replace (str_replace
                 "https://{s}.basemaps.cartocdn.com/dark_all/{z}/{x}/{y}{r}.png"
                 "{s}" "d")
        with ("https://d.basemaps.cartocdn.com/dark_all/" ++ "{z}" ++ "/" ++ "{x}"
              ++ "/" ++ "{y}" ++ "{r}.png")%string by reflexivity.
      rewrite (replace_zxy "https://d.basemaps.cartocdn.com/dark_all/" "/" "/" "{r}.png" z x y);
        [reflexivity | no_brace .. | | |]; reflexivity.
Qed.

(** ** The projection due north, under rounding *)

Lemma one_degree_bounds :
  17 / 1000 <= sin (PI / 180) /\ cos (PI / 180) <= 9999 / 10000.
Proof.
  split.
  - enclose_value He (sin (PI / 180)).
    apply (within_sound _ (17 # 1000) (18 # 1000)) in He.
    + unfold Q2R in He. cbn [Qnum Qden] in He. lra.
    + vm_compute. reflexivity.
  - enclose_value He (cos (PI / 180)).
    apply (within_sound _ (99 # 100) (9999 # 10000)) in He.
    + unfold Q2R in He. cbn [Qnum Qden] in He. lra.
    + vm_compute. reflexivity.
Qed.

(** Between the latitudes -89 and 89 the cosine is at least 0.017 and
    the sine at most 0.9999 in absolute value. *)
Lemma off_pole_bounds (y : R) :
  - (PI / 2 - PI / 180) <= y <= PI / 2 - PI / 180 ->
  17 / 1000 <= cos y /\ - (9999 / 10000) <= sin y <= 9999 / 10000.
Proof.
  intros [Hlo Hhi]. pose proof PI_RGT_0 as Hpi.
  destruct one_degree_bounds as [Hs Hc].
  assert (Ec : cos (PI / 2 - PI / 180) = sin (PI / 180)) by apply cos_shift.
  assert (Es : sin (PI / 2 - PI / 180) = cos (PI / 180)) by apply sin_shift.
  split; [| split].
  - destruct (Rle_dec 0 y) as [H0 | H0].
    + pose proof (cos_decr_1 y (PI / 2 - PI / 180)) as H.
      lapply H; [clear H; intros H | lra].
      lapply H; [clear H; intros H | lra].
      lapply H; [clear H; intros H | lra].
      lapply H; [clear H; intros H | lra].
      specialize (H Hhi). lra.
    + rewrite <- cos_neg.
      pose proof (cos_decr_1 (- y) (PI / 2 - PI / 180)) as H.
      lapply H; [clear H; intros H | lra].
      lapply H; [clear H; intros H | lra].
      lapply H; [clear H; intros H | lra].
      lapply H; [clear H; intros H | lra].
      lapply H; [lra | lra].
  - pose proof (sin_incr_1 (- (PI / 2 - PI / 180)) y) as H.
    lapply H; [clear H; intros H | lra].
    lapply H; [clear H; intros H | lra].
    lapply H; [clear H; intros H | lra].
    lapply H; [clear H; intros H | lra].
    specialize (H Hlo). rewrite sin_neg in H. lra.
  - pose proof (sin_incr_1 y (PI / 2 - PI / 180)) as H.
    lapply H; [clear H; intros H | lra].
    lapply H; [clear H; intros H | lra].
    lapply H; [clear H; intros H | lra].
    lapply H; [clear H; intros H | lra].
    specialize (H Hhi). lra.
Qed.

Lemma radians_plus_degrees (lat x : R) :
  radians (lat + degrees x) = radians lat + x.
Proof. unfold radians, degrees. field. apply PI_neq0. Qed.

(** X2. Due north (azimuth 0) and off the poles, the projection follows
    the meridian whatever the rounding of the argument of [asin]: for a
    rounding accurate to [1e-9], an origin latitude of at least -89 and
    a distance [d >= 0] that ends at a latitude of at most 89, it
    returns the longitude unchanged and a latitude whose sine is within
    the rounding error of the sine of [lat + degrees (d / 6371)]; in
    exact arithmetic the latitude is [lat + degrees (d / 6371)]. *)
Theorem haversine_due_north (fl : rounding) (eps lat lon d : R) :
  accurate_to eps fl -> eps <= 1 / 1000000000 ->
  0 <= d -> -89 <= lat -> lat + degrees (d / 6371) <= 89 ->
  (exists lat2,
     calc_endpoint_haversine fl lat lon 0 d = Returns (lat2, lon)
     /\ Rabs (sin (radians lat2)
              - sin (radians (lat + degrees (d / 6371)))) <= eps)
  /\ calc_endpoint_haversine exact lat lon 0 d
     = Returns (lat + degrees (d / 6371), lon).
Proof.
  intros Hfl Heps Hd Hlo Hhi.
  pose proof PI_RGT_0 as Hpi.
  assert (Hdeg : 0 <= degrees (d / 6371)).
  { unfold degrees, Rdiv. repeat apply Rmult_le_pos; try lra.
    apply Rlt_le, Rinv_0_lt_compat, Hpi. }
  split; [| apply haversine_due_north_exact; lra].
  set (p := radians lat). set (dl := d / 6371) in *.
  assert (Hdl : 0 <= dl) by (unfold dl; lra).
  assert (E89 : radians 89 = PI / 2 - PI / 180) by (unfold radians; field).
  assert (Em89 : radians (-89) = - (PI / 2 - PI / 180))
    by (unfold radians; field).
  assert (Hp : - (PI / 2 - PI / 180) <= p <= PI / 2 - PI / 180).
  { rewrite <- Em89, <- E89. split; apply radians_le; lra. }
  assert (Hpd : - (PI / 2 - PI / 180) <= p + dl <= PI / 2 - PI / 180).
  { rewrite <- Em89, <- E89. unfold p.
    rewrite <- (radians_plus_degrees lat dl).
    split; apply radians_le; lra. }
  destruct (off_pole_bounds p Hp) as [Hcp [Hsp1 Hsp2]].
  destruct (off_pole_bounds (p + dl) Hpd) as [Hcq [Hsq1 Hsq2]].
  set (a := sin (p + dl)) in *.
  pose proof (Rabs_le_between _ _ (Hfl a)) as Ha.
  assert (Heps0 : 0 <= eps)
    by (eapply Rle_trans; [apply Rabs_pos | apply (Hfl a)]).
  unfold calc_endpoint_haversine. cbv zeta.
  rewrite radians_0, sin_0, cos_0. fold p dl.
  replace (sin p * cos dl + cos p * sin dl * 1) with a
    by (unfold a; rewrite sin_plus; ring).
  unfold py_asin.
  destruct (Rle_dec (-1) (fl a)) as [H1 | H1]; [| lra].
  destruct (Rle_dec (fl a) 1) as [H2 | H2]; [| lra].
  cbn [bind]. cbv beta. rewrite sin_asin by lra.
  assert (Hx : 0 <= cos dl - sin p * fl a).
  { assert (E : cos dl - sin p * a = cos (p + dl) * cos p).
    { replace (cos dl) with (cos ((p + dl) - p)) by (f_equal; ring).
      rewrite cos_minus. unfold a. ring. }
    assert (Hprod : 17 / 1000 * (17 / 1000) <= cos (p + dl) * cos p)
      by (apply Rmult_le_compat; lra).
    assert (Herr : Rabs (sin p * (fl a - a)) <= 1 * eps).
    { apply Rabs_mult_le; [apply Rabs_le; lra | apply Hfl]. }
    apply Rabs_le_between in Herr.
    replace (cos dl - sin p * fl a)
      with (cos dl - sin p * a - sin p * (fl a - a)) by ring.
    lra. }
  replace (0 * sin dl * cos p) with 0 by ring.
  rewrite atan2_0_nonneg by exact Hx.
  exists (degrees (asin (fl a))). split.
  - rewrite Rplus_0_r, degrees_radians. reflexivity.
  - rewrite radians_degrees, sin_asin by lra.
    rewrite radians_plus_degrees. fold p a. apply Hfl.
Qed.

Lemma haversine_due_north_witness :
  accurate_to 0 exact /\ 0 <= 1 / 1000000000
  /\ 0 <= 1000 /\ -89 <= 10 /\ 10 + degrees (1000 / 6371) <= 89
  /\ (exists lat2,
        calc_endpoint_haversine exact 10 20 0 1000 = Returns (lat2, 20)
        /\ Rabs (sin (radians lat2)
                 - sin (radians (10 + degrees (1000 / 6371)))) <= 0)
  /\ calc_endpoint_haversine exact 10 20 0 1000
     = Returns (10 + degrees (1000 / 6371), 20).
Proof.
  assert (H0 : accurate_to 0 exact).
  { intros x. unfold exact. rewrite Rminus_diag, Rabs_R0. lra. }
  assert (H1 : 0 <= 1 / 1000000000) by lra.
  assert (H2 : 0 <= 1000) by lra.
  assert (H3 : -89 <= 10) by lra.
  assert (H4 : 10 + degrees (1000 / 6371) <= 89).
  { pose proof PI_enclosure as Hpi. unfold degrees.
    assert (1000 / 6371 * 180 / PI <= 79); [| lra].
    apply (Rmult_le_reg_r PI); [lra |].
    unfold Rdiv. rewrite Rmult_assoc, Rinv_l by lra. lra. }
  split; [exact H0 |]. split; [exact H1 |]. split; [exact H2 |].
  split; [exact H3 |]. split; [exact H4 |].
  exact (haversine_due_north exact 0 10 20 1000 H0 H1 H2 H3 H4).
Defined.
